(** * Kokkos CUDA device reduction: a shallow embedding of
      [Kokkos_CudaDeviceReduce.hpp]

    The development follows the source file top to bottom: the padded
    shared-memory slot ([CudaWordCount], [CudaSharedMemoryReduceType]),
    the intra-block tree reduction ([reduce_shared_on_cuda]), the two
    kernels ([run_reduce_functor_on_cuda], [run_reduce_operator_on_cuda]),
    the two finalize functors, the host-side driver
    ([cuda_parallel_reduce]) and the two [ParallelReduce::run] entry
    points.

    - Machine integers are natural numbers with the wrap-around of their
      C++ type written out: [unsigned int] is 32 bits wide, [size_t] 64.
    - Loops that the C++ text does not bound carry a [fuel] argument and
      give no result when it runs out.
    - A shared-memory slot is represented by the [value] member of the
      union; the copies the kernels make word by word are copies of whole
      slots here.  The two copy loops themselves are modelled word by
      word after the driver ([copy_words_loop], [store_words_loop]).
    - The lanes of a block run in warps of [warpSize] lanes.  The lanes
      of a warp take every step together; the warps of a block take
      their steps in an order that the hardware chooses and wait for
      each other at [__syncthreads()] only.  [reduce_shared_on_cuda] has
      its barrier before every round when [__DEVICE_EMULATION__] is
      defined, and before the rounds with [warpSize < j] when it is not.
      That a lane reads no slot another warp writes since the last
      barrier is a property of the launch, not of the model; where it
      holds the rounds run in step ([reduce_in_step]).
    - The blocks of a grid run one after the other, and a block writes
      its own slot of the scratch buffer only.
    - [CudaDevice], [ValueView], [create_value] and [deep_copy] are used
      by the source file but defined elsewhere; they are modelled from
      the specification, each with a remark where it is defined. *)

From stdpp Require Import base numbers list option gmap.
From Stdlib Require Import NArith ZArith Lia.

Local Open Scope N_scope.

(** ** Machine integers *)

(** Conversion to [unsigned int] (the type of [threadIdx.x], [blockDim.x],
    [blockIdx.x], [gridDim.x] and of [CudaWordType]). *)
Definition unsigned_int (x : N) : N := x mod 2 ^ 32.

(** Conversion to [size_t]. *)
Definition size_t (x : N) : N := x mod 2 ^ 64.

(** [a - b] computed in [size_t]. *)
Definition size_t_sub (a b : N) : N := size_t (a + 2 ^ 64 - size_t b).

(** ** The shared-memory slot *)

(** [enum { size = sizeof(CudaWordType) }] *)
Definition sizeof_CudaWordType : N := 4.

(** [CudaWordCount<T>::value = ( sizeof(T) + size - 1 ) / size] *)
Definition CudaWordCount (sizeof_type : N) : N :=
  size_t_sub (size_t (sizeof_type + sizeof_CudaWordType)) 1
    / sizeof_CudaWordType.

(** [enum { SharedMemoryBanks = 32 }] *)
Definition SharedMemoryBanks : N := 32.

(** The length of [CudaSharedMemoryReduceType<ValueType>::storage]:
    [WordCount + ( WordCount % SharedMemoryBanks ? 0 : 1 )]. *)
Definition storage_length (sizeof_value : N) : N :=
  let WordCount := CudaWordCount sizeof_value in
  WordCount + (if negb (WordCount mod SharedMemoryBanks =? 0) then 0 else 1).

(** [sizeof(CudaSharedMemoryReduceType<ValueType>)]: the union is as large
    as its larger member, rounded up to its alignment. *)
Definition round_up (n a : N) : N := (n + a - 1) / a * a.

Definition sizeof_reduce_type (sizeof_value alignof_value : N) : N :=
  round_up (N.max sizeof_value (sizeof_CudaWordType * storage_length sizeof_value))
           (N.max alignof_value sizeof_CudaWordType).

(** ** The reduction functor *)

(** What the kernels use of [FunctorType]: the static [init] and [join],
    the call operator [functor( iwork , value )], and the size and
    alignment of [value_type].  [init] and the call operator update the
    value they are handed; here they return the updated value. *)
Class ReduceFunctor (V : Type) := {
  functor_init : V;
  functor_join : V → V → V;
  functor_call : N → V → V;
  sizeof_value_type : N;
  alignof_value_type : N;
}.

Definition reduce_size `{ReduceFunctor V} : N :=
  sizeof_reduce_type sizeof_value_type alignof_value_type.

(** A functor that records the work items it is called with, in order. *)
Definition visit_log : ReduceFunctor (list N) := {|
  functor_init := [];
  functor_join := λ a b, a ++ b;
  functor_call := λ iwork value, value ++ [iwork];
  sizeof_value_type := 8;
  alignof_value_type := 8;
|}.

(** Sum of a per-item contribution, on exact integers. *)
Definition sum_of (c : N → N) : ReduceFunctor N := {|
  functor_init := 0;
  functor_join := λ a b, a + b;
  functor_call := λ iwork value, value + c iwork;
  sizeof_value_type := 8;
  alignof_value_type := 8;
|}.

(** ** The work loop of [run_reduce_functor_on_cuda] *)

(** The lanes [0 .. n-1] of a block, or the blocks of a grid. *)
Definition lanes (n : N) : list N := N.of_nat <$> seq 0 (N.to_nat n).

Section Kernel.
Context {V : Type} `{F : ReduceFunctor V}.

(** [for ( ; iwork < work_count ; iwork += work_stride )
       functor( iwork , shared_local->value );] *)
Fixpoint work_loop (fuel : nat) (work_count work_stride iwork : N)
    (value : V) : option V :=
  match fuel with
  | O => None
  | S fuel' =>
      if iwork <? work_count
      then work_loop fuel' work_count work_stride
             (size_t (iwork + work_stride)) (functor_call iwork value)
      else Some value
  end.

(** One lane of [run_reduce_functor_on_cuda] up to the reduction:
    [init] on its own slot, then the work loop from
    [threadIdx.x + blockDim.x * blockIdx.x] with stride
    [blockDim.x * gridDim.x], both computed in [unsigned int]. *)
Definition lane_accumulate (fuel : nat)
    (work_count blockDim gridDim blockIdx threadIdx : N) : option V :=
  let work_stride := unsigned_int (blockDim * gridDim) in
  let iwork := unsigned_int (threadIdx + unsigned_int (blockDim * blockIdx)) in
  work_loop fuel work_count work_stride iwork functor_init.

(** *** [reduce_shared_on_cuda] *)

(** Shared memory of one block: one slot per lane, slot [i] is
    [cuda_reduce_shared_memory() + i].  A slot is represented by its
    [value] member. *)

(** What lane [threadIdx] does in one round:
    [if ( threadIdx.x < j ) join( shared_local->value , shared_local[j].value )]. *)
Definition join_lane (j threadIdx : N) (shared : list V) : list V :=
  if threadIdx <? j then
    match shared !! N.to_nat threadIdx, shared !! N.to_nat (threadIdx + j) with
    | Some update, Some input =>
        <[N.to_nat threadIdx := functor_join update input]> shared
    | _, _ => shared
    end
  else shared.

(** *** Warps and barriers

    The lanes of a block run in warps of [warpSize] lanes.  The lanes
    of a warp take every step together; the warps of a block run each
    in its own time and wait for each other at [__syncthreads()] only.
    A step is what a warp does between two places where another warp
    can see its slots change: [init] and the work loop count as one
    step here (a lane of another warp finds the slot as it was at the
    launch or as the work loop leaves it), and so does a round of the
    tree reduction. *)

(** What the lanes of a warp do together between two barriers: [init]
    and the work loop (or the copy loop of the second kernel), which
    leave in the slot of every lane its value of [values], or one round
    of the tree reduction. *)
Inductive warp_step :=
  | write_step (values : list V)
  | join_step (j : N).

Definition run_lane (step : warp_step) (threadIdx : N) (shared : list V)
    : list V :=
  match step with
  | write_step values =>
      match values !! N.to_nat threadIdx with
      | Some value => <[N.to_nat threadIdx := value]> shared
      | None => shared
      end
  | join_step j => join_lane j threadIdx shared
  end.

(** The lanes of warp [w]: [threadIdx.x / warpSize = w]. *)
Definition warp_lanes (warpSize blockDim : N) (w : nat) : list N :=
  filter (λ threadIdx, threadIdx / warpSize = N.of_nat w) (lanes blockDim).

Definition warp_count (warpSize blockDim : N) : nat :=
  S (N.to_nat (blockDim / warpSize)).

(** The lanes of a warp run a step in lockstep. *)
Definition run_warp (warpSize blockDim : N) (step : warp_step) (w : nat)
    (shared : list V) : list V :=
  fold_left (λ s threadIdx, run_lane step threadIdx s)
            (warp_lanes warpSize blockDim w) shared.

(** Between two barriers the warps of a block run the steps [phase],
    each warp in its own time.  [schedule] names the warp that takes its
    next step, again and again; [pcs] counts the steps every warp has
    taken. *)
Fixpoint run_schedule (warpSize blockDim : N) (phase : list warp_step)
    (schedule : list nat) (pcs : list nat) (shared : list V)
    : list nat * list V :=
  match schedule with
  | [] => (pcs, shared)
  | w :: schedule' =>
      match pcs !! w with
      | Some pc =>
          match phase !! pc with
          | Some step =>
              run_schedule warpSize blockDim phase schedule'
                (<[w := S pc]> pcs) (run_warp warpSize blockDim step w shared)
          | None => run_schedule warpSize blockDim phase schedule' pcs shared
          end
      | None => run_schedule warpSize blockDim phase schedule' pcs shared
      end
  end.

(** At the barrier that ends the phase every warp has taken all its
    steps: what the schedule left over is run warp after warp. *)
Definition finish_warp (warpSize blockDim : N) (phase : list warp_step)
    (w pc : nat) (shared : list V) : list V :=
  fold_left (λ s step, run_warp warpSize blockDim step w s) (drop pc phase) shared.

Fixpoint finish_phase (warpSize blockDim : N) (phase : list warp_step)
    (w : nat) (pcs : list nat) (shared : list V) : list V :=
  match pcs with
  | [] => shared
  | pc :: pcs' =>
      finish_phase warpSize blockDim phase (S w) pcs'
        (finish_warp warpSize blockDim phase w pc shared)
  end.

Definition run_phase (warpSize blockDim : N) (phase : list warp_step)
    (schedule : list nat) (shared : list V) : list V :=
  let '(pcs, shared') :=
    run_schedule warpSize blockDim phase schedule
      (replicate (warp_count warpSize blockDim) 0%nat) shared in
  finish_phase warpSize blockDim phase 0 pcs shared'.

(** The values of [j] in the rounds of
    [for ( unsigned int j = blockDim.x ; j ; ) { j >>= 1 ; ... }]. *)
Fixpoint round_counters (j : positive) : list N :=
  match j with
  | xH => [0]
  | xO j' | xI j' => Npos j' :: round_counters j'
  end.

Definition rounds (blockDim : N) : list N :=
  match blockDim with
  | N0 => []
  | Npos j => round_counters j
  end.

(** [#ifndef __DEVICE_EMULATION__
       if ( warpSize < j ) { __syncthreads(); }
     #else
       __syncthreads();
     #endif] *)
Definition barrier_before (device_emulation : bool) (warpSize j : N) : bool :=
  device_emulation || (warpSize <? j).

(** The rounds, cut into phases at the barriers; [current] is what the
    warps have done since the last barrier. *)
Fixpoint phases (device_emulation : bool) (warpSize : N)
    (current : list warp_step) (counters : list N) : list (list warp_step) :=
  match counters with
  | [] => [current]
  | j :: counters' =>
      if barrier_before device_emulation warpSize j
      then current :: phases device_emulation warpSize [join_step j] counters'
      else phases device_emulation warpSize (current ++ [join_step j]) counters'
  end.

Fixpoint run_phases (warpSize blockDim : N) (ps : list (list warp_step))
    (schedule : list (list nat)) (shared : list V) : list V :=
  match ps with
  | [] => shared
  | phase :: ps' =>
      run_phases warpSize blockDim ps' (tail schedule)
        (run_phase warpSize blockDim phase (default [] (head schedule)) shared)
  end.

(** [reduce_shared_on_cuda< ReduceOperators >()] in a block whose warps
    have taken the steps [entry] since the last barrier. *)
Definition reduce_shared_on_cuda (device_emulation : bool) (warpSize : N)
    (entry : list warp_step) (schedule : list (list nat)) (blockDim : N)
    (shared : list V) : list V :=
  run_phases warpSize blockDim
    (phases device_emulation warpSize entry (rounds blockDim))
    schedule shared.

(** *** The rounds in step

    The reduction when no lane is ahead of another: every lane of the
    block ends a round before any lane begins the next.  This is what
    [reduce_shared_on_cuda] is compared with. *)

(** One round: every lane of the block runs [join_lane] at the same [j]. *)
Definition join_round (blockDim j : N) (shared : list V) : list V :=
  fold_left (λ s threadIdx, join_lane j threadIdx s) (lanes blockDim) shared.

(** The rounds by recursion on the binary digits of [j]: a round halves
    [j], and the loop stops after the round that brings it to zero. *)
Fixpoint reduce_rounds (blockDim : N) (j : positive) (shared : list V) : list V :=
  match j with
  | xH => join_round blockDim 0 shared
  | xO j' | xI j' =>
      reduce_rounds blockDim j' (join_round blockDim (Npos j') shared)
  end.

Definition reduce_in_step (blockDim : N) (shared : list V) : list V :=
  match blockDim with
  | N0 => shared
  | Npos j => reduce_rounds blockDim j shared
  end.

(** What [init] and the work loop of every lane of block [blockIdx] of
    [run_reduce_functor_on_cuda] leave in the lane's own slot.  These are
    the values the warps write in their first step ([write_step]); when
    a warp takes that step is for the schedule to say, see
    [block_memory]. *)
Definition block_accumulate (fuel : nat)
    (work_count blockDim gridDim blockIdx : N) : option (list V) :=
  mapM (lane_accumulate fuel work_count blockDim gridDim blockIdx)
       (lanes blockDim).

End Kernel.

(** ** The device *)

Definition pointer := N.

(** The two kernels of this file. *)
Inductive kernel := reduce_functor_kernel | reduce_operator_kernel.

(** What the source leaves to the compiler and to the hardware:
    whether [__DEVICE_EMULATION__] is defined, the built-in [warpSize],
    the order in which the warps of block [blockIdx] of a kernel take
    their steps between one barrier and the next (a schedule for every
    phase, see [run_schedule]), what the slots of shared memory hold
    when a block begins, what the slots of an allocation hold before
    they are written, and what the slots of a block hold in the end when
    its warps read slots that other warps are still copying word by word
    (see [block_memory]). *)
Record Hardware (V : Type) := {
  device_emulation : bool;
  warpSize : N;
  warp_schedule : kernel → N → list (list nat);
  shared_at_launch : N → V;
  fresh_memory : N → V;
  torn_memory : N → list V → N → V;
}.
Arguments device_emulation {V}.
Arguments warpSize {V}.
Arguments warp_schedule {V}.
Arguments shared_at_launch {V}.
Arguments fresh_memory {V}.
Arguments torn_memory {V}.

(** The shared memory of block [blockIdx] of [blockDim] lanes of a kernel
    when its lanes have left [reduce_shared_on_cuda], [values] being
    what the block writes to its slots before its lanes enter it.

    In [run_reduce_functor_on_cuda] a lane writes its own slot, in
    [init] and in the work loop.  In [run_reduce_operator_on_cuda] lane
    [t] copies the words [t], [t + blockDim.x], ... of the whole array,
    which are words of the slots of other lanes.  With a barrier before
    the first round, or with all lanes in one warp, every word is copied
    when the first round begins, and the block goes on like the other
    kernel's.  Otherwise a round can read a slot of which only some
    words are copied; slots are not split into words here, and what the
    block holds in the end is then left to the hardware. *)
Definition block_memory {V} `{F : ReduceFunctor V} (hw : Hardware V)
    (k : kernel) (blockDim blockIdx : N) (values : list V) : list V :=
  let shared :=
    reduce_shared_on_cuda (device_emulation hw) (warpSize hw)
      [write_step values] (warp_schedule hw k blockIdx) blockDim
      (shared_at_launch hw <$> lanes blockDim) in
  match k with
  | reduce_functor_kernel => shared
  | reduce_operator_kernel =>
      if device_emulation hw || (blockDim <=? warpSize hw) then shared
      else torn_memory hw blockIdx values <$> lanes blockDim
  end.

(** Modelled from the spec: [CudaDevice] is not part of this file.  The
    capability queries [reduction_thread_max( reduce_size )] and
    [block_count_max()] are fields; global memory maps the pointer of
    every live allocation to its byte size and its slots, a slot being
    [None] until it is written; [free_memory] is what [allocate_memory]
    can still hand out. *)
Record CudaDevice (V : Type) := {
  reduction_thread_max : N → N;
  block_count_max : N;
  free_memory : N;
  global_memory : gmap N (N * list (option V));
  hardware : Hardware V;
}.
Arguments reduction_thread_max {V}.
Arguments block_count_max {V}.
Arguments free_memory {V}.
Arguments global_memory {V}.
Arguments hardware {V}.

(** What a reduction does that can be seen from outside. *)
Inductive event (V : Type) :=
  | allocate_event (size count : N) (ptr : pointer)
  | launch_functor_event (gridDim blockDim shmem work_count : N)
      (block_value : option pointer)
  | launch_operator_event (gridDim blockDim shmem : N) (block_result : pointer)
  | store_event (ptr : pointer) (blockIdx : N) (value : V)
  | serial_finalize_event (gridDim blockIdx threadIdx : N) (value : V)
  | deallocate_event (ptr : pointer).
Arguments allocate_event {V}.
Arguments launch_functor_event {V}.
Arguments launch_operator_event {V}.
Arguments store_event {V}.
Arguments serial_finalize_event {V}.
Arguments deallocate_event {V}.

(** Host and device state: the device, the events so far, and the state
    the user's finalize functor acts on. *)
Record state (V U : Type) := {
  device : CudaDevice V;
  trace : list (event V);
  user : U;
}.
Arguments device {V U}.
Arguments trace {V U}.
Arguments user {V U}.

Inductive error := allocation_failure | invalid_access.

(** A computation on the state [S] ends with a result, throws, or is still
    running when the fuel is gone. *)
Inductive outcome (S A : Type) :=
  | Done (a : A) (s : S)
  | Raised (e : error) (s : S)
  | OutOfFuel.
Arguments Done {S A}.
Arguments Raised {S A}.
Arguments OutOfFuel {S A}.

Definition exec (S A : Type) := S → outcome S A.

Global Instance exec_ret {S} : MRet (exec S) := λ A a s, Done a s.

Global Instance exec_bind {S} : MBind (exec S) := λ A B k m s,
  match m s with
  | Done a s' => k a s'
  | Raised e s' => Raised e s'
  | OutOfFuel => OutOfFuel
  end.

Definition exec_lift {S A} (o : option A) : exec S A :=
  λ s, match o with Some a => Done a s | None => OutOfFuel end.

Fixpoint for_each {S A} (body : A → exec S ()) (l : list A) : exec S () :=
  match l with
  | [] => mret ()
  | a :: l' => body a ;; for_each body l'
  end.

(** ** Finalize functors, kernels and the driver *)

Section Driver.
Context {V U : Type} `{F : ReduceFunctor V}.

Definition record (e : event V) (s : state V U) : state V U :=
  {| device := device s; trace := trace s ++ [e]; user := user s |}.

Definition set_global_memory (m : gmap N (N * list (option V))) (free : N)
    (s : state V U) : state V U :=
  {| device := {| reduction_thread_max := reduction_thread_max (device s);
                  block_count_max := block_count_max (device s);
                  free_memory := free;
                  global_memory := m;
                  hardware := hardware (device s) |};
     trace := trace s; user := user s |}.

(** The two types the kernels are instantiated with as [FinalizeType]:
    the wrapper of the application's serial functor, and the functor
    that stores the block's value at [block_value + blockIdx.x]. *)
Inductive FinalizeType :=
  | CudaParallelReduceFinalizeFunctor (serial_finalize : V → U → U)
  | CudaParallelReduceFinalizeBlock (block_value : pointer).

(** [CudaParallelReduceFinalizeFunctor::operator()] in one lane:
    [if ( 1 == gridDim.x && 0 == threadIdx.x )
       serial_finalize( shared_local->value )]
    with [shared_local] the slot of lane [threadIdx.x]. *)
Definition serial_finalize_call (serial_finalize : V → U → U)
    (gridDim blockIdx threadIdx : N) (shared : list V) : exec (state V U) () :=
  if (1 =? gridDim) && (0 =? threadIdx) then
    match shared !! N.to_nat threadIdx with
    | Some value => λ s,
        Done () {| device := device s;
                   trace := trace s ++
                     [serial_finalize_event gridDim blockIdx threadIdx value];
                   user := serial_finalize value (user s) |}
    | None => λ s, Raised invalid_access s
    end
  else mret ().

(** [CudaParallelReduceFinalizeBlock::operator()]: the lanes of the block
    copy the words of slot 0 to [block_value[blockIdx.x]], lane [t]
    taking the words [t], [t + blockDim.x], ...  Slots are not split
    into words here: the copy is the write of the whole slot, placed in
    lane 0, which copies the first word. *)
Definition store_block_call (block_value : pointer)
    (blockIdx threadIdx : N) (shared : list V) : exec (state V U) () :=
  if threadIdx =? 0 then λ s,
    match shared !! 0%nat, global_memory (device s) !! block_value with
    | Some value, Some (bytes, slots) =>
        if blockIdx <? N.of_nat (length slots) then
          Done () (record (store_event block_value blockIdx value)
            (set_global_memory
               (<[block_value := (bytes, <[N.to_nat blockIdx := Some value]> slots)]>
                  (global_memory (device s)))
               (free_memory (device s)) s))
        else Raised invalid_access s
    | _, _ => Raised invalid_access s
    end
  else mret ().

(** [finalize()] in lane [threadIdx] of block [blockIdx]. *)
Definition finalize_call (finalize : FinalizeType)
    (gridDim blockIdx threadIdx : N) (shared : list V) : exec (state V U) () :=
  match finalize with
  | CudaParallelReduceFinalizeFunctor serial_finalize =>
      serial_finalize_call serial_finalize gridDim blockIdx threadIdx shared
  | CudaParallelReduceFinalizeBlock block_value =>
      store_block_call block_value blockIdx threadIdx shared
  end.

(** Both kernels, for one block, from the write of the lanes' [values]
    to their slots on:
    [reduce_shared_on_cuda< FunctorType >(); finalize();]
    The finalize functors read slot 0, which lane 0 alone writes, and
    read it from lanes of the warp of lane 0 or behind a barrier of
    their own. *)
Definition reduce_and_finalize (k : kernel) (finalize : FinalizeType)
    (gridDim blockDim blockIdx : N) (values : list V) : exec (state V U) () :=
  λ s,
    let shared :=
      block_memory (hardware (device s)) k blockDim blockIdx values in
    for_each (λ threadIdx, finalize_call finalize gridDim blockIdx threadIdx shared)
             (lanes blockDim) s.

(** [run_reduce_functor_on_cuda<<< gridDim , blockDim >>>
      ( work_count , functor , finalize )]; the blocks are run one after
    the other, in the order of their index.  Within a block no barrier
    separates the work loops from the first rounds of
    [reduce_shared_on_cuda] unless that function has one: the warps
    write the values of their lanes as the first step of the phase that
    the rounds go on with. *)
Definition run_reduce_functor_on_cuda (fuel : nat) (work_count : N)
    (finalize : FinalizeType) (gridDim blockDim : N) : exec (state V U) () :=
  for_each (λ blockIdx,
      values ← exec_lift (block_accumulate fuel work_count blockDim gridDim blockIdx);
      reduce_and_finalize reduce_functor_kernel finalize gridDim blockDim
        blockIdx values)
    (lanes gridDim).

(** The copy loop of [run_reduce_operator_on_cuda]: the words of the
    first [blockDim.x] slots of [block_result] go to shared memory.  At
    the granularity of slots this reads the slots [0 .. blockDim.x - 1]:
    a slot that was never written holds what the allocation held, a
    slot outside the allocation is an invalid access. *)
Definition load_block_result (block_result : pointer) (blockDim : N)
    : exec (state V U) (list V) := λ s,
  match global_memory (device s) !! block_result with
  | Some (_, slots) =>
      match mapM (λ i, default (fresh_memory (hardware (device s)) i)
                         <$> slots !! N.to_nat i) (lanes blockDim) with
      | Some values => Done values s
      | None => Raised invalid_access s
      end
  | None => Raised invalid_access s
  end.

(** [run_reduce_operator_on_cuda<<< gridDim , blockDim >>>
      ( block_result , finalize )] *)
Definition run_reduce_operator_on_cuda (block_result : pointer)
    (finalize : FinalizeType) (gridDim blockDim : N) : exec (state V U) () :=
  for_each (λ blockIdx,
      values ← load_block_result block_result blockDim;
      reduce_and_finalize reduce_operator_kernel finalize gridDim blockDim
        blockIdx values)
    (lanes gridDim).

(** Modelled from the spec: [CudaDevice::allocate_memory( size , count ,
    label )], the scratch allocator [allocate(byteSize, count) -> pointer].
    It hands out [count] unwritten slots at a pointer that is not in
    use, and throws when [size * count] bytes are not available. *)
Definition allocate_memory (size count : N) : exec (state V U) pointer := λ s,
  let dev := device s in
  if size * count <=? free_memory dev then
    let ptr := fresh (dom (global_memory dev)) in
    Done ptr (record (allocate_event size count ptr)
      (set_global_memory
         (<[ptr := (size * count, replicate (N.to_nat count) None)]>
            (global_memory dev))
         (free_memory dev - size * count) s))
  else Raised allocation_failure s.

(** Modelled from the spec: [CudaDevice::deallocate_memory( ptr )]. *)
Definition deallocate_memory (ptr : pointer) : exec (state V U) () := λ s,
  let dev := device s in
  match global_memory dev !! ptr with
  | Some (bytes, _) =>
      Done () (record (deallocate_event ptr)
        (set_global_memory (delete ptr (global_memory dev))
           (free_memory dev + bytes) s))
  | None => Raised invalid_access s
  end.

(** [while ( work_count <= ( thread_count >> 1 ) ) { thread_count >>= 1 ; }] *)
Fixpoint shrink_thread_count (fuel : nat) (work_count thread_count : N)
    : option N :=
  match fuel with
  | O => None
  | S fuel' =>
      if work_count <=? N.shiftr thread_count 1
      then shrink_thread_count fuel' work_count (N.shiftr thread_count 1)
      else Some thread_count
  end.

(** [while ( work_count <= max_thread_count * ( block_count >> 1 ) )
      { block_count >>= 1 ; }] *)
Fixpoint shrink_block_count (fuel : nat)
    (work_count max_thread_count block_count : N) : option N :=
  match fuel with
  | O => None
  | S fuel' =>
      if work_count <=? size_t (max_thread_count * (N.shiftr block_count 1))
      then shrink_block_count fuel' work_count max_thread_count (N.shiftr block_count 1)
      else Some block_count
  end.

(** A kernel launch [<<< grid , block , shmem >>>]: the dimensions are
    converted to [unsigned int]. *)
Definition launch_functor (fuel : nat) (grid block shmem work_count : N)
    (finalize : FinalizeType) : exec (state V U) () :=
  let gridDim := unsigned_int grid in
  let blockDim := unsigned_int block in
  let block_value :=
    match finalize with
    | CudaParallelReduceFinalizeFunctor _ => None
    | CudaParallelReduceFinalizeBlock ptr => Some ptr
    end in
  (λ s, Done () (record
     (launch_functor_event gridDim blockDim shmem work_count block_value) s));;
  run_reduce_functor_on_cuda fuel work_count finalize gridDim blockDim.

Definition launch_operator (grid block shmem : N) (block_result : pointer)
    (finalize : FinalizeType) : exec (state V U) () :=
  let gridDim := unsigned_int grid in
  let blockDim := unsigned_int block in
  (λ s, Done () (record
     (launch_operator_event gridDim blockDim shmem block_result) s));;
  run_reduce_operator_on_cuda block_result finalize gridDim blockDim.

(** [cuda_parallel_reduce( work_count , functor , finalize )] *)
Definition cuda_parallel_reduce (fuel : nat) (work_count : N)
    (finalize : V → U → U) : exec (state V U) () := λ s,
  let serial_finalize := CudaParallelReduceFinalizeFunctor finalize in
  let max_thread_count := reduction_thread_max (device s) reduce_size in
  if work_count <? max_thread_count then
    (thread_count ← exec_lift
       (shrink_thread_count fuel work_count max_thread_count);
     launch_functor fuel 1 thread_count (size_t (reduce_size * thread_count))
       work_count serial_finalize) s
  else
    let block_count := block_count_max (device s) in
    let block_count :=
      if max_thread_count <? block_count then max_thread_count else block_count in
    (block_count ← exec_lift
       (shrink_block_count fuel work_count max_thread_count block_count);
     block_value ← allocate_memory reduce_size block_count;
     launch_functor fuel block_count max_thread_count
       (size_t (reduce_size * max_thread_count)) work_count
       (CudaParallelReduceFinalizeBlock block_value);;
     launch_operator 1 block_count (size_t (reduce_size * block_count))
       block_value serial_finalize;;
     deallocate_memory block_value) s.

(** [ParallelReduce< FunctorType , FinalizeType , CudaDevice >::run] *)
Definition ParallelReduce_run (fuel : nat) (work_count : N)
    (finalize : V → U → U) : exec (state V U) () :=
  cuda_parallel_reduce fuel work_count finalize.

End Driver.

Section ReturnValue.
Context {V : Type} `{F : ReduceFunctor V}.

(** Modelled from the spec: [ValueView< value_type , CudaDevice >],
    [create_value] and [deep_copy] are not part of this file.  The view
    is a one-value result holder on the device, holding when created
    what its memory held; used as the finalize functor it stores the
    value it is called with, and [deep_copy] copies the holder back. *)
Definition ValueView := V.

Definition create_value (hw : Hardware V) : ValueView := fresh_memory hw 0.

Definition ValueView_call (value : V) (view : ValueView) : ValueView :=
  value.

Definition deep_copy : exec (state V ValueView) V := λ s, Done (user s) s.

(** [ParallelReduce< FunctorType , void , CudaDevice >::run], running on
    the given device after the given events. *)
Definition ParallelReduce_run_value (fuel : nat) (work_count : N)
    : exec (state V ValueView) V :=
  (λ s, Done () {| device := device s; trace := trace s;
                   user := create_value (hardware (device s)) |});;
  cuda_parallel_reduce fuel work_count ValueView_call;;
  deep_copy.

End ReturnValue.

(** The values the serial finalize functor was called with, in order. *)
Definition finalize_arguments {V} (t : list (event V)) : list V :=
  omap (λ e, match e with
             | serial_finalize_event _ _ _ value => Some value
             | _ => None
             end) t.

(** ** Specification-side definitions *)

(** [n] indices from [start] in steps of [stride]. *)
Definition stride_indices (n : nat) (start stride : N) : list N :=
  (λ k, start + N.of_nat k * stride) <$> seq 0 n.

(** How many of the indices [start], [start + stride], ... lie below
    [work_count]. *)
Definition lane_iterations (work_count stride start : N) : nat :=
  if start <? work_count
  then N.to_nat ((work_count - start + stride - 1) / stride)
  else 0%nat.

(** The work items of the lane with global index [start] in a launch of
    [stride] lanes. *)
Definition lane_items (work_count stride start : N) : list N :=
  stride_indices (lane_iterations work_count stride start) start stride.

(** The work items of block [blockIdx], lane after lane, and of the first
    [n] blocks, block after block. *)
Definition block_items (work_count blockDim gridDim blockIdx : N) : list N :=
  lanes blockDim ≫= λ threadIdx,
    lane_items work_count (blockDim * gridDim) (threadIdx + blockDim * blockIdx).

Definition grid_items (work_count blockDim gridDim : N) : list N :=
  lanes gridDim ≫= block_items work_count blockDim gridDim.

(** The powers of two, as the loop counter of the tree reduction sees them. *)
Fixpoint pow2_pos (k : nat) : positive :=
  match k with
  | O => xH
  | S k' => xO (pow2_pos k')
  end.

Definition power_of_two (n : N) : Prop := ∃ k : N, n = 2 ^ k.

(** "Halved while [continue] holds": [halved_while continue c c'] when
    halving [c] as long as [continue] holds of it stops at [c']. *)
Inductive halved_while (continue : N → bool) : N → N → Prop :=
  | halved_stop c : continue c = false → halved_while continue c c
  | halved_step c c' :
      continue c = true → halved_while continue (c / 2) c' →
      halved_while continue c c'.

(** The two loop conditions of the launch planner. *)
Definition keep_halving_lanes (work_count laneCount : N) : bool :=
  work_count <=? laneCount / 2.

Definition keep_halving_clusters (work_count maxLanes clusterCount : N) : bool :=
  work_count <=? maxLanes * (clusterCount / 2).

(** The launch the planner chooses on a device with the limits
    [maxLanes] and [maxClusters]: [planned ... gridDim blockDim] when the
    work kernel is launched on [gridDim] blocks of [blockDim] lanes. *)
Inductive planned (work_count maxLanes maxClusters : N) : N → N → Prop :=
  | planned_single_block thread_count :
      work_count < maxLanes →
      halved_while (keep_halving_lanes work_count) maxLanes thread_count →
      planned work_count maxLanes maxClusters 1 thread_count
  | planned_two_phase block_count :
      maxLanes ≤ work_count →
      halved_while (keep_halving_clusters work_count maxLanes)
        (N.min maxClusters maxLanes) block_count →
      planned work_count maxLanes maxClusters block_count maxLanes.

Section Specification.
Context {V : Type} `{F : ReduceFunctor V}.

(** The value a lane ends with after calling the functor on [l], in order. *)
Definition accumulate (l : list N) (value : V) : V :=
  fold_left (λ v iwork, functor_call iwork v) l value.

(** The join of a non-empty list of values, left to right. *)
Definition join_all (l : list V) : option V :=
  match l with
  | [] => None
  | value :: rest => Some (fold_left functor_join rest value)
  end.

(** What one round of the tree reduction leaves in slot [i]. *)
Definition round_result (bound j : N) (shared : list V) (i : nat) : option V :=
  if decide (N.of_nat i < j ∧ N.of_nat i < bound) then
    match shared !! i, shared !! (i + N.to_nat j)%nat with
    | Some update, Some input => Some (functor_join update input)
    | _, _ => shared !! i
    end
  else shared !! i.

(** The contribution of one work item, and the serial reduction of a
    list of work items: the join of their contributions, from the
    identity. *)
Definition contribution (iwork : N) : V := functor_call iwork functor_init.

Definition join_list (l : list V) : V := foldr functor_join functor_init l.

Definition serial_reduce (items : list N) : V :=
  join_list (contribution <$> items).

(** The slots of block [blockIdx] after the work loops of all its
    lanes, and what the tree reduction in step then leaves in slot 0. *)
Definition block_values (work_count blockDim gridDim blockIdx : N) : list V :=
  (λ threadIdx,
     accumulate
       (lane_items work_count (blockDim * gridDim) (threadIdx + blockDim * blockIdx))
       functor_init) <$> lanes blockDim.

Definition slot_0 (blockDim : N) (shared : list V) : V :=
  default functor_init (reduce_in_step blockDim shared !! 0%nat).

Definition block_partial (work_count blockDim gridDim blockIdx : N) : V :=
  slot_0 blockDim (block_values work_count blockDim gridDim blockIdx).

(** The partial values of the blocks [0 .. n-1] of a launch. *)
Definition block_partials (work_count blockDim gridDim n : N) : list V :=
  block_partial work_count blockDim gridDim <$> lanes n.

(** The same on the hardware [hw]: what [reduce_shared_on_cuda] leaves
    in slot 0 of block [blockIdx] of a kernel ... *)
Definition reduced_value (hw : Hardware V) (k : kernel)
    (blockDim blockIdx : N) (values : list V) : V :=
  default functor_init (block_memory hw k blockDim blockIdx values !! 0%nat).

(** ... in the blocks of the work kernel ... *)
Definition device_partial (hw : Hardware V)
    (work_count blockDim gridDim blockIdx : N) : V :=
  reduced_value hw reduce_functor_kernel blockDim blockIdx
    (block_values work_count blockDim gridDim blockIdx).

Definition device_partials (hw : Hardware V)
    (work_count blockDim gridDim n : N) : list V :=
  device_partial hw work_count blockDim gridDim <$> lanes n.

(** ... and in the one block of the second kernel of a two-phase
    reduction. *)
Definition two_phase_result (hw : Hardware V)
    (work_count blockDim gridDim : N) : V :=
  reduced_value hw reduce_operator_kernel gridDim 0
    (device_partials hw work_count blockDim gridDim gridDim).

(** No lane reads a slot of another warp that is written since the last
    barrier: every round has its barrier, or the [n] lanes concerned
    are lanes of one warp. *)
Definition synchronised (device_emulation : bool) (warpSize n : N) : Prop :=
  device_emulation = true ∨ n ≤ warpSize.

(** What a step of lane [i] leaves in slot [i]. *)
Definition lane_result (step : warp_step) (shared : list V) (i : nat)
    : option V :=
  match step with
  | write_step values =>
      match values !! i with
      | Some value => (λ _, value) <$> shared !! i
      | None => shared !! i
      end
  | join_step j =>
      if decide (N.of_nat i < j) then
        match shared !! i, shared !! (i + N.to_nat j)%nat with
        | Some update, Some input => Some (functor_join update input)
        | _, _ => shared !! i
        end
      else shared !! i
  end.

(** A step in all lanes of the block, one lane after the other. *)
Definition run_lanes (step : warp_step) (l : list N) (shared : list V) : list V :=
  fold_left (λ s threadIdx, run_lane step threadIdx s) l shared.

(** Warp [w] has taken a step of the phase. *)
Definition is_done (pcs : list nat) (w : nat) : bool :=
  match pcs !! w with
  | Some (S _) => true
  | _ => false
  end.

(** The stores of the values [values] to the slots [0, 1, ...] at [ptr]. *)
Definition store_events (ptr : pointer) (values : list V) : list (event V) :=
  imap (λ b value, store_event ptr (N.of_nat b) value) values.

(** What a single-block reduction adds to the trace ... *)
Definition single_block_trace (hw : Hardware V) (thread_count work_count : N)
    : list (event V) :=
  [launch_functor_event 1 thread_count (size_t (reduce_size * thread_count))
     work_count None;
   serial_finalize_event 1 0 0 (device_partial hw work_count thread_count 1 0)].

(** ... and what a two-phase reduction adds. *)
Definition two_phase_trace (hw : Hardware V) (ptr : pointer)
    (block_count max_thread_count work_count : N) : list (event V) :=
  [allocate_event reduce_size block_count ptr;
   launch_functor_event block_count max_thread_count
     (size_t (reduce_size * max_thread_count)) work_count (Some ptr)] ++
  store_events ptr
    (device_partials hw work_count max_thread_count block_count block_count) ++
  [launch_operator_event 1 block_count (size_t (reduce_size * block_count)) ptr;
   serial_finalize_event 1 0 0
     (two_phase_result hw work_count max_thread_count block_count);
   deallocate_event ptr].

(** The laws a reduction relies on: [join] is associative and
    commutative ... *)
Class JoinLaws : Prop := {
  join_assoc a b c :
    functor_join a (functor_join b c) = functor_join (functor_join a b) c;
  join_comm a b : functor_join a b = functor_join b a;
}.

(** ... [init] yields its identity, and calling the functor joins the
    contribution of the work item into the value. *)
Class ReductionLaws : Prop := {
  reduction_join_laws :: JoinLaws;
  join_init_l value : functor_join functor_init value = value;
  call_join iwork value :
    functor_call iwork value = functor_join value (contribution iwork);
}.

End Specification.

Section SpecificationStates.
Context {V U : Type} `{F : ReduceFunctor V}.
Implicit Types s : state V U.

(** The state when the first blocks of the first phase have stored the
    values [values]. *)
Definition stored_state s (ptr : pointer) (bytes count : N) (values : list V)
    : state V U :=
  {| device :=
       {| reduction_thread_max := reduction_thread_max (device s);
          block_count_max := block_count_max (device s);
          free_memory := free_memory (device s);
          global_memory :=
            <[ptr := (bytes, (Some <$> values) ++
                             replicate (N.to_nat count - length values) None)]>
              (global_memory (device s));
          hardware := hardware (device s) |};
     trace := trace s ++ store_events ptr values;
     user := user s |}.

End SpecificationStates.

Arguments JoinLaws {V} F.
Arguments ReductionLaws {V} F.

(** The events of a trace that are calls of the serial finalize functor. *)
Definition is_serial_finalize {V} (e : event V) : bool :=
  match e with
  | serial_finalize_event _ _ _ _ => true
  | _ => false
  end.

Definition serial_finalize_events {V} (t : list (event V)) : list (event V) :=
  filter (λ e, is_serial_finalize e = true) t.

(** The launch of a kernel with a single block. *)
Definition is_single_block_launch {V} (e : event V) : Prop :=
  match e with
  | launch_functor_event gridDim _ _ _ _ => gridDim = 1
  | launch_operator_event gridDim _ _ _ => gridDim = 1
  | _ => False
  end.

(** Forgetting the state of the user's finalize functor. *)
Definition erase {V U} (s : state V U) : state V () :=
  {| device := device s; trace := trace s; user := () |}.

Definition erase_outcome {V U A} (o : outcome (state V U) A)
    : outcome (state V ()) A :=
  match o with
  | Done a s => Done a (erase s)
  | Raised e s => Raised e (erase s)
  | OutOfFuel => OutOfFuel
  end.

Definition erase_finalize {V U} (finalize : @FinalizeType V U)
    : @FinalizeType V () :=
  match finalize with
  | CudaParallelReduceFinalizeFunctor _ =>
      CudaParallelReduceFinalizeFunctor (λ _ _, ())
  | CudaParallelReduceFinalizeBlock block_value =>
      CudaParallelReduceFinalizeBlock block_value
  end.

(** [m'] does to the erased state what [m] does to the state. *)
Definition simulates {V U A} (m : exec (state V U) A) (m' : exec (state V ()) A)
    : Prop :=
  ∀ s, erase_outcome (m s) = m' (erase s).

(** Between two states, the serial finalize functor was not called ... *)
Definition no_call {V U} (s s' : state V U) : Prop :=
  finalize_arguments (trace s') = finalize_arguments (trace s) ∧
  user s' = user s.

(** ... or it was called at most once. *)
Definition at_most_one_call {V U} (sink : V → U → U) (s s' : state V U) : Prop :=
  no_call s s' ∨
  ∃ value,
    finalize_arguments (trace s') = finalize_arguments (trace s) ++ [value] ∧
    user s' = sink value (user s).

(** Every completed run of [m] is related by [R]. *)
Definition ensures {S A} (R : S → S → Prop) (m : exec S A) : Prop :=
  ∀ s a s', m s = Done a s' → R s s'.

(** ** Examples *)

(** Counting the work items: every item contributes 1. *)
Definition count_items : ReduceFunctor N := sum_of (λ _, 1).

(** A device with the given limits and free memory, nothing allocated, and
    a state on it in which nothing has happened yet. *)
Definition example_hardware : Hardware N :=
  {| device_emulation := false;
     warpSize := 32;
     warp_schedule := λ _ _, [];
     shared_at_launch := λ _, 0;
     fresh_memory := λ _, 0;
     torn_memory := λ _ _ _, 0 |}.

Definition example_device (max_threads max_blocks free : N) : CudaDevice N :=
  {| reduction_thread_max := λ _, max_threads;
     block_count_max := max_blocks;
     free_memory := free;
     global_memory := ∅;
     hardware := example_hardware |}.

Definition example_state (max_threads max_blocks free : N) : state N () :=
  {| device := example_device max_threads max_blocks free;
     trace := [];
     user := () |}.

(** ** The copy loops, word by word

    The kernels above copy whole slots.  The two loops that make these
    copies are modelled here as the source has them, on arrays of words
    ([CudaWordType], [unsigned int]); the lanes of the block run one after
    the other, each writing words of its own. *)

(** [int] of the value [x]: the 32-bit two's complement wrap-around. *)
Definition int (x : Z) : Z := ((x + 2 ^ 31) mod 2 ^ 32 - 2 ^ 31)%Z.

(** The copy loop of [run_reduce_operator_on_cuda] in one lane, on the
    words of shared memory:
    [for ( unsigned int i = threadIdx.x ; i < n ; i += blockDim.x )
       shared_memory[i] = block_result[i] ;]
    A word outside [block_result] or outside shared memory is an invalid
    access. *)
Fixpoint copy_words_loop (fuel : nat) (n blockDim i : N)
    (block_result : list N) : exec (list N) () :=
  match fuel with
  | O => λ _, OutOfFuel
  | S fuel' =>
      if i <? n then λ shared_memory,
        match block_result !! N.to_nat i with
        | Some w =>
            if i <? N.of_nat (length shared_memory) then
              copy_words_loop fuel' n blockDim (unsigned_int (i + blockDim))
                block_result (<[N.to_nat i := w]> shared_memory)
            else Raised invalid_access shared_memory
        | None => Raised invalid_access shared_memory
        end
      else mret ()
  end.

(** [const unsigned int n = CudaWordCount< reduce_type >::value * blockDim.x]
    and the loop, in every lane of the block. *)
Definition copy_block_result (fuel : nat) (reduce_words blockDim : N)
    (block_result : list N) : exec (list N) () :=
  let n := unsigned_int (reduce_words * blockDim) in
  for_each (λ threadIdx, copy_words_loop fuel n blockDim threadIdx block_result)
           (lanes blockDim).

(** The copy loop of [CudaParallelReduceFinalizeBlock::operator()] in one
    lane, from the storage of slot 0 to the storage of the output slot:
    [for ( int i = threadIdx.x ; i < reduce_type::WordCount ; i += blockDim.x )
       output->storage[i] = shared_local->storage[i];]
    Here [i] is an [int]: the test is a signed comparison, and
    [i += blockDim.x] wraps around to a negative index.  The loop runs
    after the barrier that ends the tree reduction. *)
Fixpoint store_words_loop (fuel : nat) (WordCount : Z) (blockDim : N) (i : Z)
    (storage : list N) : exec (list N) () :=
  match fuel with
  | O => λ _, OutOfFuel
  | S fuel' =>
      if (i <? WordCount)%Z then λ output,
        if (0 <=? i)%Z then
          match storage !! Z.to_nat i with
          | Some w =>
              if (i <? Z.of_nat (length output))%Z then
                store_words_loop fuel' WordCount blockDim
                  (int (i + Z.of_N blockDim)) storage (<[Z.to_nat i := w]> output)
              else Raised invalid_access output
          | None => Raised invalid_access output
          end
        else Raised invalid_access output
      else mret ()
  end.

Definition store_block_words (fuel : nat) (WordCount blockDim : N)
    (storage : list N) : exec (list N) () :=
  for_each (λ threadIdx,
      store_words_loop fuel (Z.of_N WordCount) blockDim (int (Z.of_N threadIdx))
        storage)
    (lanes blockDim).

(** ** Specification-side definitions for the lanes the tree reaches *)

(** The slots whose values the tree reduction joins into slot 0 on [j]
    lanes: with every slot that is reached on [j / 2] lanes, the slot
    [j / 2] further up ... *)
Fixpoint reached_slots (j : positive) : list N :=
  match j with
  | xH => [0]
  | xO j' | xI j' =>
      reached_slots j' ++ ((λ i, i + Npos j') <$> reached_slots j')
  end.

(** ... and for a block of [blockDim] lanes. *)
Definition reached_lanes (blockDim : N) : list N :=
  match blockDim with
  | N0 => []
  | Npos j => reached_slots j
  end.

(** The slots of [shared] at the given indices. *)
Definition select {V} (indices : list N) (shared : list V) : list V :=
  omap (λ i, shared !! N.to_nat i) indices.

(** [P] of the device before gives [P] of the device after. *)
Definition device_keeps {V U} (P : CudaDevice V → Prop) (s s' : state V U)
    : Prop :=
  P (device s) → P (device s').

(** The device [dev] is the device [dev0] with one more allocation:
    [bytes] bytes at [ptr], whatever its slots hold. *)
Definition holds_scratch {V} (dev0 : CudaDevice V) (ptr : pointer) (bytes : N)
    (dev : CudaDevice V) : Prop :=
  reduction_thread_max dev = reduction_thread_max dev0 ∧
  block_count_max dev = block_count_max dev0 ∧
  hardware dev = hardware dev0 ∧
  free_memory dev + bytes = free_memory dev0 ∧
  ∃ slots, global_memory dev = <[ptr := (bytes, slots)]> (global_memory dev0).

(** Two shared memories that agree on the reached lanes. *)
Definition agree_on_reached {V} (blockDim : N) (s1 s2 : list V) : Prop :=
  length s1 = length s2 ∧
  ∀ k, k ∈ reached_lanes blockDim → s1 !! N.to_nat k = s2 !! N.to_nat k.

(** The work items of the reached lanes of the reached blocks of a launch
    of [gridDim] blocks of [blockDim] lanes. *)
Definition reached_items (work_count blockDim gridDim : N) : list N :=
  reached_lanes gridDim ≫= λ blockIdx,
    reached_lanes blockDim ≫= λ threadIdx,
      lane_items work_count (blockDim * gridDim)
        (threadIdx + blockDim * blockIdx).

(** * Proofs *)

(** ** Machine integers *)

Lemma pow_2_32 : 2 ^ 32 = 4294967296.
Proof. reflexivity. Qed.

Lemma pow_2_64 : 2 ^ 64 = 18446744073709551616.
Proof. reflexivity. Qed.

(** Linear arithmetic in the presence of the two word bounds. *)
Ltac word_lia := rewrite ?pow_2_32, ?pow_2_64 in *; lia.

Lemma unsigned_int_small x : x < 2 ^ 32 → unsigned_int x = x.
Proof. intros. unfold unsigned_int. by apply N.mod_small. Qed.

Lemma size_t_small x : x < 2 ^ 64 → size_t x = x.
Proof. intros. unfold size_t. by apply N.mod_small. Qed.

Lemma shiftr_1_div2 n : N.shiftr n 1 = n / 2.
Proof. by rewrite N.shiftr_div_pow2. Qed.

(** ** The lanes of a block *)

Lemma elem_of_lanes n i : i ∈ lanes n ↔ i < n.
Proof.
  unfold lanes. rewrite list_elem_of_fmap. split.
  - intros (k & -> & Hk). apply elem_of_seq in Hk. lia.
  - intros Hi. exists (N.to_nat i). split; [lia|]. apply elem_of_seq. lia.
Qed.

Lemma NoDup_lanes n : NoDup (lanes n).
Proof.
  unfold lanes. apply NoDup_fmap_2; [|apply NoDup_seq].
  intros a b Hab. lia.
Qed.

Lemma length_lanes n : length (lanes n) = N.to_nat n.
Proof. unfold lanes. by rewrite length_fmap, length_seq. Qed.

Lemma lookup_lanes n (k : nat) : (k < N.to_nat n)%nat → lanes n !! k = Some (N.of_nat k).
Proof.
  intros Hk. unfold lanes. rewrite list_lookup_fmap, lookup_seq_lt by done. done.
Qed.

Lemma lanes_succ n : lanes (N.succ n) = lanes n ++ [n].
Proof.
  unfold lanes. rewrite N2Nat.inj_succ, seq_S, fmap_app. simpl.
  by rewrite N2Nat.id.
Qed.

(** ** The padded slot *)

Lemma CudaWordCount_exact sizeof_value :
  sizeof_value + 3 < 2 ^ 64 → CudaWordCount sizeof_value = (sizeof_value + 3) / 4.
Proof.
  intros Hs. unfold CudaWordCount, size_t_sub, sizeof_CudaWordType.
  rewrite (size_t_small 1) by done.
  unfold size_t.
  replace ((sizeof_value + 4) mod 2 ^ 64 + 2 ^ 64 - 1)
    with ((sizeof_value + 4) mod 2 ^ 64 + (2 ^ 64 - 1))
    by (generalize ((sizeof_value + 4) mod 2 ^ 64); intros; word_lia).
  rewrite N.Div0.add_mod_idemp_l.
  replace (sizeof_value + 4 + (2 ^ 64 - 1)) with (sizeof_value + 3 + 1 * 2 ^ 64)
    by word_lia.
  rewrite N.Div0.mod_add. rewrite N.mod_small by done. done.
Qed.

(** C8: the storage array of the slot has one word more than the natural
    word count [W = ceil(sizeof(ValueType) / sizeof(word))] exactly when
    [W] is a multiple of the 32 banks, and [W] words otherwise; its length
    is never a multiple of the bank count. *)
Theorem storage_length_padding (sizeof_value : N) :
  sizeof_value + 3 < 2 ^ 64 →
  let W := CudaWordCount sizeof_value in
  (sizeof_value ≤ sizeof_CudaWordType * W ∧
   sizeof_CudaWordType * W < sizeof_value + sizeof_CudaWordType) ∧
  (W mod SharedMemoryBanks = 0 → storage_length sizeof_value = W + 1) ∧
  (W mod SharedMemoryBanks ≠ 0 → storage_length sizeof_value = W) ∧
  storage_length sizeof_value mod SharedMemoryBanks ≠ 0.
Proof.
  intros Hs W. subst W. unfold storage_length.
  rewrite CudaWordCount_exact by done.
  unfold sizeof_CudaWordType, SharedMemoryBanks.
  set (W := (sizeof_value + 3) / 4) in *.
  assert (HW : sizeof_value + 3 = 4 * W + (sizeof_value + 3) mod 4)
    by (by apply N.div_mod).
  assert (Hr : (sizeof_value + 3) mod 4 < 4) by (by apply N.mod_lt).
  revert HW Hr. generalize ((sizeof_value + 3) mod 4). clearbody W. clear Hs.
  intros r HW Hr.
  split; [lia|].
  destruct (N.eqb_spec (W mod 32) 0) as [Hz|Hnz]; simpl.
  - split; [done|]. split; [intros Hne; by destruct Hne|].
    rewrite <- N.Div0.add_mod_idemp_l, Hz. done.
  - rewrite N.add_0_r. split; [intros Hz; by destruct Hnz|]. by split.
Qed.

Lemma storage_length_padding_witness :
  storage_length 128 = 33 ∧ storage_length 8 = 2.
Proof.
  destruct (storage_length_padding 128) as (_ & H1 & _ & _); [done|].
  destruct (storage_length_padding 8) as (_ & _ & H2 & _); [done|].
  split; [apply H1; reflexivity | apply H2; done].
Defined.

(** ** The work loop *)

Lemma stride_indices_cons n start stride :
  stride_indices (S n) start stride =
  start :: stride_indices n (start + stride) stride.
Proof.
  unfold stride_indices. simpl. f_equal; [lia|].
  rewrite <- fmap_S_seq, <- list_fmap_compose. apply list_fmap_ext.
  intros _ k _. simpl. lia.
Qed.

Lemma elem_of_stride_indices n start stride i :
  i ∈ stride_indices n start stride ↔
  ∃ k, k < N.of_nat n ∧ i = start + k * stride.
Proof.
  unfold stride_indices. rewrite list_elem_of_fmap. split.
  - intros (k & -> & Hk). apply elem_of_seq in Hk. exists (N.of_nat k). lia.
  - intros (k & Hk & ->). exists (N.to_nat k). split; [lia|].
    apply elem_of_seq. lia.
Qed.

Lemma NoDup_stride_indices n start stride :
  1 ≤ stride → NoDup (stride_indices n start stride).
Proof.
  intros Hs. unfold stride_indices. apply NoDup_fmap_2; [|apply NoDup_seq].
  intros a b Hab. nia.
Qed.

Section WorkLoop.
Context {V : Type} `{F : ReduceFunctor V}.

(** When neither the stride nor the running index can wrap, the loop
    ends, having called the functor on a run of [n] indices that stops
    at the first one past [work_count]. *)
Lemma work_loop_run fuel work_count work_stride iwork value :
  1 ≤ work_stride →
  work_count + work_stride ≤ 2 ^ 64 →
  (N.to_nat (work_count - iwork) < fuel)%nat →
  ∃ n : nat,
    work_loop fuel work_count work_stride iwork value =
      Some (accumulate (stride_indices n iwork work_stride) value) ∧
    (∀ k, k < N.of_nat n → iwork + k * work_stride < work_count) ∧
    work_count ≤ iwork + N.of_nat n * work_stride.
Proof.
  intros Hs Hb. revert iwork value.
  induction fuel as [|fuel IH]; intros iwork value Hf; [lia|].
  simpl. destruct (N.ltb_spec iwork work_count) as [Hlt|Hge].
  - rewrite size_t_small by word_lia.
    destruct (IH (iwork + work_stride) (functor_call iwork value))
      as (n & Hrun & Hin & Hout); [lia|].
    exists (S n). rewrite stride_indices_cons. split; [done|]. split.
    + intros k Hk. destruct (N.eq_dec k 0) as [->|Hk0]; [lia|].
      specialize (Hin (k - 1)). nia.
    + nia.
  - exists 0%nat. split; [done|]. split; [lia|lia].
Qed.

End WorkLoop.

Lemma accumulate_visit_log l value :
  accumulate (F:=visit_log) l value = value ++ l.
Proof.
  revert value. induction l as [|i l IH]; intros value.
  - by rewrite app_nil_r.
  - change (accumulate (F:=visit_log) (i :: l) value)
      with (accumulate (F:=visit_log) l (value ++ [i])).
    rewrite IH. by rewrite <- app_assoc.
Qed.

(** The global index of a lane and the stride, when the launch has fewer
    than [2^32] lanes in all. *)
Lemma lane_index_exact blockDim gridDim blockIdx threadIdx :
  blockDim * gridDim < 2 ^ 32 → blockIdx < gridDim → threadIdx < blockDim →
  unsigned_int (threadIdx + unsigned_int (blockDim * blockIdx)) =
    threadIdx + blockDim * blockIdx ∧
  threadIdx + blockDim * blockIdx < blockDim * gridDim.
Proof.
  intros Hp Hb Ht.
  assert (threadIdx + blockDim * blockIdx < blockDim * gridDim) by nia.
  rewrite (unsigned_int_small (blockDim * blockIdx)) by nia.
  rewrite unsigned_int_small by lia. done.
Qed.

Lemma elem_of_stride_run n start stride bound i :
  1 ≤ stride →
  (∀ k, k < N.of_nat n → start + k * stride < bound) →
  bound ≤ start + N.of_nat n * stride →
  i ∈ stride_indices n start stride ↔ i < bound ∧ ∃ k, i = start + k * stride.
Proof.
  intros Hs Hin Hout. rewrite elem_of_stride_indices. split.
  - intros (k & Hk & ->). split; [by apply Hin|by exists k].
  - intros (Hi & k & ->). exists k. split; [|done].
    destruct (N.lt_ge_cases k (N.of_nat n)) as [|Hge]; [done|]. nia.
Qed.

Section LaneAccumulate.
Context {V : Type} `{F : ReduceFunctor V}.

(** With fewer than [2^32] lanes in all and [work_count] far enough from
    the end of [size_t], every lane ends its work loop, having called
    the functor on the indices below [work_count] that it reaches from
    its global index in steps of the number of lanes. *)
Lemma lane_accumulate_run fuel work_count blockDim gridDim blockIdx threadIdx :
  blockDim * gridDim < 2 ^ 32 →
  work_count + blockDim * gridDim ≤ 2 ^ 64 →
  blockIdx < gridDim → threadIdx < blockDim →
  (N.to_nat work_count < fuel)%nat →
  ∃ n : nat,
    lane_accumulate fuel work_count blockDim gridDim blockIdx threadIdx =
      Some (accumulate
              (stride_indices n (threadIdx + blockDim * blockIdx) (blockDim * gridDim))
              functor_init) ∧
    (∀ k, k < N.of_nat n →
       threadIdx + blockDim * blockIdx + k * (blockDim * gridDim) < work_count) ∧
    work_count ≤ threadIdx + blockDim * blockIdx + N.of_nat n * (blockDim * gridDim).
Proof.
  intros Hp Hw Hb Ht Hf. unfold lane_accumulate.
  destruct (lane_index_exact blockDim gridDim blockIdx threadIdx) as [-> Hg];
    [done..|].
  rewrite (unsigned_int_small (blockDim * gridDim)) by done.
  apply work_loop_run; [lia|done|lia].
Qed.

End LaneAccumulate.

(** ** The tree reduction in shared memory *)

Lemma pow2_pos_spec k : Npos (pow2_pos k) = 2 ^ N.of_nat k.
Proof.
  induction k as [|k IH]; [done|].
  rewrite Nat2N.inj_succ, N.pow_succ_r', <- IH. done.
Qed.

Section TreeReduction.
Context {V : Type} `{F : ReduceFunctor V}.

Lemma join_lane_length j t shared : length (join_lane j t shared) = length shared.
Proof.
  unfold join_lane. repeat case_match; try done. by rewrite length_insert.
Qed.

(** The lanes of a round do not disturb each other: lane [t] writes slot
    [t] and reads slot [t + j], which no lane of the round writes. *)
Lemma join_lanes_lookup n j shared i :
  fold_left (λ s t, join_lane j t s) (lanes n) shared !! i =
  round_result n j shared i.
Proof.
  induction n as [|n IH] using N.peano_ind in i |- *.
  - unfold round_result. simpl. case_decide; [lia|done].
  - rewrite lanes_succ, fold_left_app. simpl.
    set (s := fold_left _ (lanes n) shared) in *.
    assert (Hn : s !! N.to_nat n = shared !! N.to_nat n).
    { rewrite IH. unfold round_result. case_decide; [lia|done]. }
    assert (Hnj : s !! N.to_nat (n + j) = shared !! N.to_nat (n + j)).
    { rewrite IH. unfold round_result. case_decide; [lia|done]. }
    unfold join_lane. rewrite Hn, Hnj.
    destruct (N.ltb_spec n j) as [Hlt|Hge].
    + destruct (shared !! N.to_nat n) as [a|] eqn:Ha;
        [destruct (shared !! N.to_nat (n + j)) as [b|] eqn:Hb|].
      * destruct (decide (i = N.to_nat n)) as [->|Hne].
        -- rewrite list_lookup_insert_eq
             by (by apply lookup_lt_Some in Hn).
           unfold round_result. rewrite decide_True by lia.
           rewrite Ha. rewrite <- N2Nat.inj_add, Hb. done.
        -- rewrite list_lookup_insert_ne by done. rewrite IH.
           unfold round_result. repeat case_decide; try done; lia.
      * rewrite IH. unfold round_result.
        destruct (decide (i = N.to_nat n)) as [->|Hne].
        -- rewrite decide_False by lia. rewrite decide_True by lia.
           rewrite Ha. rewrite <- N2Nat.inj_add, Hb. done.
        -- repeat case_decide; try done; lia.
      * rewrite IH. unfold round_result.
        destruct (decide (i = N.to_nat n)) as [->|Hne].
        -- rewrite decide_False by lia. rewrite decide_True by lia.
           by rewrite Ha.
        -- repeat case_decide; try done; lia.
    + rewrite IH. unfold round_result. repeat case_decide; try done; lia.
Qed.

Lemma join_round_lookup blockDim j shared i :
  join_round blockDim j shared !! i = round_result blockDim j shared i.
Proof. apply join_lanes_lookup. Qed.

Lemma join_round_length blockDim j shared :
  length (join_round blockDim j shared) = length shared.
Proof.
  unfold join_round. generalize (lanes blockDim). intros l. revert shared.
  induction l as [|t l IH]; intros shared; [done|].
  simpl. by rewrite IH, join_lane_length.
Qed.

Lemma join_round_0 blockDim shared : join_round blockDim 0 shared = shared.
Proof.
  apply list_eq. intros i. rewrite join_round_lookup. unfold round_result.
  case_decide; [lia|done].
Qed.

Section Laws.
Context `{!JoinLaws F}.

Lemma fold_join_l l a b :
  fold_left functor_join l (functor_join a b) =
  functor_join a (fold_left functor_join l b).
Proof.
  revert b. induction l as [|x l IH]; intros b; [done|].
  simpl. by rewrite <- join_assoc, IH.
Qed.

Lemma fold_join_zip l1 l2 a b :
  length l1 = length l2 →
  fold_left functor_join (zip_with functor_join l1 l2) (functor_join a b) =
  functor_join (fold_left functor_join l1 a) (fold_left functor_join l2 b).
Proof.
  revert l2 a b. induction l1 as [|x l1 IH]; intros [|y l2] a b Hlen;
    try done.
  simpl. rewrite <- IH by (simpl in Hlen; lia). f_equal.
  rewrite <- !join_assoc. f_equal.
  rewrite !join_assoc. f_equal. apply join_comm.
Qed.

Lemma join_all_zip l1 l2 :
  length l1 = length l2 →
  join_all (zip_with functor_join l1 l2) = join_all (l1 ++ l2).
Proof.
  destruct l1 as [|a l1], l2 as [|b l2]; try done. intros Hlen.
  simpl. f_equal. rewrite fold_join_zip by (simpl in Hlen; lia).
  rewrite fold_left_app. simpl. by rewrite fold_join_l.
Qed.

(** From [j = 2^k] on, with at least [2^k] lanes and slots, the
    remaining rounds leave the join of the first [2^k] slots in slot 0. *)
Lemma reduce_rounds_pow2 k blockDim shared :
  2 ^ N.of_nat k ≤ blockDim →
  (2 ^ k ≤ length shared)%nat →
  reduce_rounds blockDim (pow2_pos k) shared !! 0%nat =
  join_all (take (2 ^ k) shared).
Proof.
  revert shared. induction k as [|k IH]; intros shared Hdim Hlen.
  - simpl. rewrite join_round_0.
    destruct shared as [|v rest]; [simpl in Hlen; lia|done].
  - cbn [pow2_pos reduce_rounds].
    assert (Hh : 2 ^ N.of_nat (S k) = 2 * 2 ^ N.of_nat k)
      by (by rewrite Nat2N.inj_succ, N.pow_succ_r').
    assert (Hh' : (2 ^ S k = 2 ^ k + 2 ^ k)%nat) by (simpl; lia).
    set (h := (2 ^ k)%nat) in *.
    assert (Hhn : N.of_nat h = 2 ^ N.of_nat k).
    { subst h. clear. induction k as [|k IH]; [done|].
      rewrite Nat2N.inj_succ, N.pow_succ_r', <- IH. simpl. lia. }
    rewrite IH; [|lia|rewrite join_round_length; lia].
    rewrite Hh'.
    replace (take (h + h) shared)
      with (take h shared ++ take h (drop h shared)).
    2: { apply take_take_drop. }
    rewrite <- join_all_zip by (rewrite !length_take, length_drop; lia).
    f_equal. apply list_eq. intros i.
    destruct (decide (i < h)%nat) as [Hi|Hi].
    + rewrite lookup_take_lt by done. rewrite join_round_lookup.
      unfold round_result. rewrite pow2_pos_spec, decide_True by lia.
      rewrite lookup_zip_with, lookup_take_lt by done.
      rewrite lookup_take_lt, lookup_drop by done.
      replace (N.to_nat (2 ^ N.of_nat k)) with h by lia.
      replace (h + i)%nat with (i + h)%nat by lia.
      destruct (lookup_lt_is_Some_2 shared i) as [a ->]; [lia|].
      destruct (lookup_lt_is_Some_2 shared (i + h)) as [b ->]; [lia|].
      done.
    + rewrite lookup_take_ge by lia. symmetry.
      apply lookup_ge_None. rewrite length_zip_with, !length_take, length_drop.
      lia.
Qed.

End Laws.
End TreeReduction.

(** ** Warps, barriers and schedules *)

Section WarpProofs.
Context {V : Type} `{F : ReduceFunctor V}.
Implicit Types shared s : list V.
Implicit Types step : @warp_step V.

Lemma run_lane_length step t s : length (run_lane step t s) = length s.
Proof.
  destruct step as [values|j]; simpl; [|apply join_lane_length].
  destruct (values !! N.to_nat t); [apply length_insert|done].
Qed.

Lemma run_lane_lookup step t s k :
  run_lane step t s !! k =
    if decide (k = N.to_nat t) then lane_result step s k else s !! k.
Proof.
  destruct step as [values|j]; simpl.
  - destruct (decide (k = N.to_nat t)) as [->|Hne].
    + destruct (values !! N.to_nat t) as [v|]; [|done].
      destruct (s !! N.to_nat t) as [a|] eqn:Ha; simpl.
      * apply list_lookup_insert_eq. by apply lookup_lt_Some in Ha.
      * apply lookup_ge_None. rewrite length_insert.
        by apply lookup_ge_None in Ha.
    + destruct (values !! N.to_nat t); [|done].
      by apply list_lookup_insert_ne.
  - unfold join_lane.
    destruct (N.ltb_spec t j) as [Hlt|Hge].
    + destruct (decide (k = N.to_nat t)) as [->|Hne].
      * rewrite decide_True by lia. rewrite <- N2Nat.inj_add.
        destruct (s !! N.to_nat t) as [a|] eqn:Ha; [|by rewrite Ha].
        destruct (s !! N.to_nat (t + j)) as [b|]; [|by rewrite Ha].
        apply list_lookup_insert_eq. by apply lookup_lt_Some in Ha.
      * destruct (s !! N.to_nat t) as [a|]; [|done].
        destruct (s !! N.to_nat (t + j)) as [b|]; [|done].
        by apply list_lookup_insert_ne.
    + destruct (decide (k = N.to_nat t)) as [->|Hne]; [|done].
      by rewrite decide_False by lia.
Qed.

(** A lane's step changes no slot that the step of another lane depends
    on. *)
Lemma lane_result_run_lane step t s i :
  i ≠ N.to_nat t →
  lane_result step (run_lane step t s) i = lane_result step s i.
Proof.
  intros Hne. destruct step as [values|j]; unfold lane_result.
  - rewrite !(run_lane_lookup (write_step values)). rewrite !decide_False by done. reflexivity.
  - rewrite !(run_lane_lookup (join_step j)).
    rewrite (decide_False (P:=i = N.to_nat t)) by done.
    destruct (decide (N.of_nat i < j)) as [Hi|]; [|done].
    destruct (decide ((i + N.to_nat j)%nat = N.to_nat t)) as [Heq|]; [|done].
    simpl. by rewrite decide_False by lia.
Qed.

Lemma run_lanes_length step l s : length (run_lanes step l s) = length s.
Proof.
  revert s. induction l as [|t l IH]; intros s; [done|].
  unfold run_lanes in *. simpl. by rewrite IH, run_lane_length.
Qed.

Lemma run_lanes_lookup step l s (i : nat) :
  NoDup l →
  run_lanes step l s !! i =
    if decide (N.of_nat i ∈ l) then lane_result step s i else s !! i.
Proof.
  intros Hnd. revert s. induction Hnd as [|t l Ht _ IH]; intros s.
  - by rewrite decide_False by apply not_elem_of_nil.
  - change (run_lanes step (t :: l) s) with (run_lanes step l (run_lane step t s)).
    rewrite IH. destruct (decide (N.of_nat i = t)) as [Heq|Hne].
    + subst t. rewrite decide_False by done.
      rewrite decide_True by left.
      by rewrite run_lane_lookup, decide_True by lia.
    + destruct (decide (N.of_nat i ∈ l)) as [Hin|Hnin].
      * rewrite decide_True by (by right).
        apply lane_result_run_lane. lia.
      * rewrite decide_False by (by intros [?|?]%elem_of_cons).
        rewrite run_lane_lookup, decide_False by lia. done.
Qed.

Lemma elem_of_warp_lanes warpSize blockDim w t :
  t ∈ warp_lanes warpSize blockDim w ↔
  t < blockDim ∧ t / warpSize = N.of_nat w.
Proof.
  unfold warp_lanes. rewrite list_elem_of_filter, elem_of_lanes. tauto.
Qed.

Lemma NoDup_warp_lanes warpSize blockDim w :
  NoDup (warp_lanes warpSize blockDim w).
Proof. apply NoDup_filter, NoDup_lanes. Qed.

Lemma run_warp_length warpSize blockDim step w s :
  length (run_warp warpSize blockDim step w s) = length s.
Proof. apply run_lanes_length. Qed.

Lemma run_warp_lookup warpSize blockDim step w s (i : nat) :
  run_warp warpSize blockDim step w s !! i =
    if decide (N.of_nat i < blockDim ∧ N.of_nat i / warpSize = N.of_nat w)
    then lane_result step s i else s !! i.
Proof.
  unfold run_warp. fold (run_lanes step (warp_lanes warpSize blockDim w) s).
  rewrite run_lanes_lookup by apply NoDup_warp_lanes.
  destruct (decide (N.of_nat i ∈ _)) as [Hin|Hnin].
  - by rewrite decide_True by (by apply elem_of_warp_lanes).
  - by rewrite decide_False by (by rewrite <- elem_of_warp_lanes).
Qed.

End WarpProofs.

Section PhaseProofs.
Context {V : Type} `{F : ReduceFunctor V}.
Implicit Types shared s : list V.
Implicit Types step : @warp_step V.

(** *** A phase in which one warp only has something to do *)

Lemma finish_warp_idle warpSize blockDim phase w pc s :
  (∀ step s', step ∈ phase → run_warp warpSize blockDim step w s' = s') →
  finish_warp warpSize blockDim phase w pc s = s.
Proof.
  intros Hidle. unfold finish_warp.
  assert (Hsub : ∀ step, step ∈ drop pc phase → step ∈ phase).
  { intros step (i & Hi)%list_elem_of_lookup_1. rewrite lookup_drop in Hi.
    by eapply list_elem_of_lookup_2. }
  revert s Hsub. generalize (drop pc phase). intros l.
  induction l as [|step l IH]; intros s Hsub; [done|].
  simpl. rewrite Hidle by (apply Hsub; left).
  apply IH. intros step' Hin. apply Hsub. by right.
Qed.

Lemma finish_phase_idle warpSize blockDim phase w pcs s :
  (∀ step w' s', step ∈ phase → (1 ≤ w')%nat →
     run_warp warpSize blockDim step w' s' = s') →
  (1 ≤ w)%nat →
  finish_phase warpSize blockDim phase w pcs s = s.
Proof.
  intros Hidle. revert w s. induction pcs as [|pc pcs IH]; intros w s Hw; [done|].
  simpl. rewrite finish_warp_idle by (intros; by apply Hidle).
  apply IH. lia.
Qed.

Lemma run_schedule_one_warp warpSize blockDim phase schedule pc rest s :
  (∀ step w' s', step ∈ phase → (1 ≤ w')%nat →
     run_warp warpSize blockDim step w' s' = s') →
  ∃ pc' rest' s',
    run_schedule warpSize blockDim phase schedule (pc :: rest) s =
      (pc' :: rest', s') ∧
    finish_warp warpSize blockDim phase 0 pc' s' =
      finish_warp warpSize blockDim phase 0 pc s.
Proof.
  intros Hidle. revert pc rest s.
  induction schedule as [|w schedule IH]; intros pc rest s.
  { by exists pc, rest, s. }
  destruct w as [|w]; simpl.
  - destruct (phase !! pc) as [step|] eqn:Hstep; [|apply IH].
    destruct (IH (S pc) rest (run_warp warpSize blockDim step 0 s))
      as (pc' & rest' & s' & -> & Hfinish).
    exists pc', rest', s'. split; [done|]. rewrite Hfinish.
    unfold finish_warp. by rewrite (drop_S _ _ _ Hstep).
  - destruct (rest !! w) as [pcw|]; [|apply IH].
    destruct (phase !! pcw) as [step|] eqn:Hstep; [|apply IH].
    rewrite Hidle by (by eapply list_elem_of_lookup_2 || lia). apply IH.
Qed.

Lemma run_phase_one_warp warpSize blockDim phase schedule shared :
  (∀ step w s, step ∈ phase → (1 ≤ w)%nat →
     run_warp warpSize blockDim step w s = s) →
  run_phase warpSize blockDim phase schedule shared =
    fold_left (λ s step, run_warp warpSize blockDim step 0 s) phase shared.
Proof.
  intros Hidle. unfold run_phase, warp_count. rewrite replicate_S.
  destruct (run_schedule_one_warp warpSize blockDim phase schedule 0
              (replicate (N.to_nat (blockDim / warpSize)) 0%nat) shared Hidle)
    as (pc' & rest' & s' & -> & Hfinish).
  simpl. by rewrite finish_phase_idle, Hfinish by (done || lia).
Qed.

(** *** A phase of one step *)

(** The state of a phase of the one step [step] that began with
    [shared]: the slots of the lanes of the warps that have taken the
    step hold its result, the other slots what they held. *)
Lemma lane_result_agree step s shared (i : nat) :
  s !! i = shared !! i →
  (∀ j, step = join_step j → N.of_nat i < j →
        s !! (i + N.to_nat j)%nat = shared !! (i + N.to_nat j)%nat) →
  lane_result step s i = lane_result step shared i.
Proof.
  intros Hi Hj. destruct step as [values|j]; simpl.
  - by rewrite Hi.
  - destruct (decide (N.of_nat i < j)) as [Hlt|]; [|done].
    by rewrite Hi, (Hj j).
Qed.

Lemma lane_result_input step shared (i : nat) j :
  step = join_step j →
  lane_result step shared (i + N.to_nat j)%nat = shared !! (i + N.to_nat j)%nat.
Proof. intros ->. simpl. by rewrite decide_False by lia. Qed.

Lemma is_done_insert pcs w pc w' :
  is_done (<[w := S pc]> pcs) w' =
    if decide (w' = w ∧ (w < length pcs)%nat) then true else is_done pcs w'.
Proof.
  unfold is_done. rewrite list_lookup_insert.
  destruct (decide (w = w' ∧ (w < length pcs)%nat)) as [[-> ?]|Hne].
  - by rewrite decide_True.
  - rewrite decide_False; [done|]. intros [-> ?]. by apply Hne.
Qed.

Lemma one_step_run warpSize blockDim step shared pcs s w :
  (∀ i : nat, s !! i =
     if bool_decide (N.of_nat i < blockDim) &&
        is_done pcs (N.to_nat (N.of_nat i / warpSize))
     then lane_result step shared i else shared !! i) →
  pcs !! w = Some 0%nat →
  ∀ i : nat, run_warp warpSize blockDim step w s !! i =
     if bool_decide (N.of_nat i < blockDim) &&
        is_done (<[w := 1%nat]> pcs) (N.to_nat (N.of_nat i / warpSize))
     then lane_result step shared i else shared !! i.
Proof.
  intros Hinv Hw i. rewrite run_warp_lookup, is_done_insert.
  assert (Hlen : (w < length pcs)%nat) by (by eapply lookup_lt_Some).
  assert (Hnot : is_done pcs w = false) by (unfold is_done; by rewrite Hw).
  destruct (decide (N.of_nat i < blockDim ∧ N.of_nat i / warpSize = N.of_nat w))
    as [[Hi Hwarp]|Hother].
  - rewrite bool_decide_true by done. rewrite decide_True by (split; lia).
    simpl. apply lane_result_agree.
    + rewrite Hinv. replace (N.to_nat (N.of_nat i / warpSize)) with w by lia.
      by rewrite Hnot, andb_false_r.
    + intros j Hstep Hj. rewrite Hinv.
      destruct (_ && _); [by apply lane_result_input|done].
  - rewrite Hinv. destruct (decide (N.of_nat i < blockDim)) as [Hi|Hi].
    + rewrite !bool_decide_true by done.
      rewrite decide_False; [done|]. intros [Heq _]. apply Hother.
      split; [done|lia].
    + by rewrite !bool_decide_false by done.
Qed.

End PhaseProofs.

Section OneStep.
Context {V : Type} `{F : ReduceFunctor V}.
Implicit Types shared s : list V.
Implicit Types step : @warp_step V.

Lemma run_schedule_one_step warpSize blockDim step shared schedule pcs s :
  (∀ i : nat, s !! i =
     if bool_decide (N.of_nat i < blockDim) &&
        is_done pcs (N.to_nat (N.of_nat i / warpSize))
     then lane_result step shared i else shared !! i) →
  ∃ pcs' s',
    run_schedule warpSize blockDim [step] schedule pcs s = (pcs', s') ∧
    length pcs' = length pcs ∧
    ∀ i : nat, s' !! i =
      if bool_decide (N.of_nat i < blockDim) &&
         is_done pcs' (N.to_nat (N.of_nat i / warpSize))
      then lane_result step shared i else shared !! i.
Proof.
  revert pcs s. induction schedule as [|w schedule IH]; intros pcs s Hinv.
  { by exists pcs, s. }
  simpl. destruct (pcs !! w) as [pc|] eqn:Hw; [|by apply IH].
  destruct pc as [|pc]; simpl; [|by apply IH].
  destruct (IH (<[w := 1%nat]> pcs) (run_warp warpSize blockDim step w s))
    as (pcs' & s' & -> & Hlen & Hinv'); [by apply one_step_run|].
  exists pcs', s'. split; [done|]. split; [|done].
  by rewrite Hlen, length_insert.
Qed.

Lemma finish_phase_one_step warpSize blockDim step shared rest done s :
  (∀ i : nat, s !! i =
     if bool_decide (N.of_nat i < blockDim) &&
        is_done (done ++ rest) (N.to_nat (N.of_nat i / warpSize))
     then lane_result step shared i else shared !! i) →
  Forall (λ pc, 1 ≤ pc)%nat done →
  ∃ pcs',
    length pcs' = length (done ++ rest) ∧
    Forall (λ pc, 1 ≤ pc)%nat pcs' ∧
    ∀ i : nat,
      finish_phase warpSize blockDim [step] (length done) rest s !! i =
        if bool_decide (N.of_nat i < blockDim) &&
           is_done pcs' (N.to_nat (N.of_nat i / warpSize))
        then lane_result step shared i else shared !! i.
Proof.
  revert done s. induction rest as [|pc rest IH]; intros done s Hinv Hdone.
  { exists done. rewrite app_nil_r in *. done. }
  simpl. destruct pc as [|pc].
  - change (finish_warp warpSize blockDim [step] (length done) 0 s)
      with (run_warp warpSize blockDim step (length done) s).
    destruct (IH (done ++ [1%nat])
                (run_warp warpSize blockDim step (length done) s))
      as (pcs' & Hlen & Hall & Hinv').
    + rewrite <- app_assoc. simpl.
      replace (done ++ 1%nat :: rest)
        with (<[length done := 1%nat]> (done ++ 0%nat :: rest)).
      * apply one_step_run; [done|].
        by rewrite lookup_app_r, Nat.sub_diag by lia.
      * rewrite insert_app_r_alt, Nat.sub_diag by lia. done.
    + apply Forall_app. split; [done|]. by apply Forall_singleton.
    + exists pcs'. rewrite length_app, Nat.add_1_r in Hinv'.
      split; [|done]. rewrite Hlen, !length_app. simpl. lia.
  - replace (finish_warp warpSize blockDim [step] (length done) (S pc) s) with s
      by (unfold finish_warp; simpl; by rewrite drop_nil).
    destruct (IH (done ++ [S pc]) s) as (pcs' & Hlen & Hall & Hinv').
    + by rewrite <- app_assoc.
    + apply Forall_app. split; [done|]. apply Forall_singleton. lia.
    + exists pcs'. rewrite length_app, Nat.add_1_r in Hinv'.
      split; [|done]. rewrite Hlen, !length_app. simpl. lia.
Qed.

(** Whatever the schedule, a phase of one step leaves what the step
    leaves when the lanes take it one after the other. *)
Lemma run_phase_one_step warpSize blockDim step schedule shared :
  run_phase warpSize blockDim [step] schedule shared =
    run_lanes step (lanes blockDim) shared.
Proof.
  unfold run_phase.
  destruct (run_schedule_one_step warpSize blockDim step shared schedule
              (replicate (warp_count warpSize blockDim) 0%nat) shared)
    as (pcs & s & -> & Hlen & Hinv).
  { intros i. unfold is_done.
    destruct (replicate _ _ !! _) as [pc|] eqn:Hpc;
      [apply lookup_replicate in Hpc as [-> _]|]; by rewrite andb_false_r. }
  destruct (finish_phase_one_step warpSize blockDim step shared pcs [] s)
    as (pcs' & Hlen' & Hall & Hfinal); [done|done|].
  simpl in Hfinal, Hlen'. rewrite Hlen, length_replicate in Hlen'.
  apply list_eq. intros i. rewrite Hfinal.
  rewrite run_lanes_lookup by apply NoDup_lanes.
  destruct (decide (N.of_nat i < blockDim)) as [Hi|Hi].
  - rewrite bool_decide_true, decide_True by (done || by apply elem_of_lanes).
    unfold is_done.
    destruct (lookup_lt_is_Some_2 pcs' (N.to_nat (N.of_nat i / warpSize)))
      as [pc Hpc].
    { rewrite Hlen'. unfold warp_count.
      destruct (N.eq_dec warpSize 0) as [->|Hws].
      - rewrite !N.div_0_r. simpl. lia.
      - pose proof (N.Div0.div_le_mono (N.of_nat i) blockDim warpSize
                      ltac:(lia)) as Hdiv.
        revert Hdiv. generalize (N.of_nat i / warpSize), (blockDim / warpSize).
        intros a b Hab. lia. }
    rewrite Hpc. rewrite Forall_lookup in Hall. specialize (Hall _ _ Hpc).
    destruct pc; [lia|done].
  - rewrite bool_decide_false, decide_False by (done || by rewrite elem_of_lanes).
    done.
Qed.


End OneStep.

Section Refinement.
Context {V : Type} `{F : ReduceFunctor V}.
Implicit Types shared s : list V.
Implicit Types step : @warp_step V.

Lemma run_lanes_join blockDim j s :
  run_lanes (join_step j) (lanes blockDim) s = join_round blockDim j s.
Proof. done. Qed.

Lemma run_lanes_write blockDim values s :
  length values = N.to_nat blockDim → length s = N.to_nat blockDim →
  run_lanes (write_step values) (lanes blockDim) s = values.
Proof.
  intros Hvalues Hs. apply list_eq. intros i.
  rewrite run_lanes_lookup by apply NoDup_lanes.
  destruct (decide (N.of_nat i ∈ lanes blockDim)) as [Hi%elem_of_lanes|Hi].
  - simpl. destruct (lookup_lt_is_Some_2 values i) as [v Hv]; [lia|].
    destruct (lookup_lt_is_Some_2 s i) as [a Ha]; [lia|].
    by rewrite Hv, Ha.
  - rewrite elem_of_lanes in Hi.
    rewrite (lookup_ge_None_2 values), (lookup_ge_None_2 s) by lia. done.
Qed.

Lemma half_xO p : Npos p~0 / 2 = Npos p.
Proof. symmetry. apply (N.div_unique _ _ _ 0); lia. Qed.

Lemma half_xI p : Npos p~1 / 2 = Npos p.
Proof. symmetry. apply (N.div_unique _ _ _ 1); lia. Qed.

Lemma round_counters_le p j : j ∈ round_counters p → j ≤ Npos p / 2.
Proof.
  revert j. induction p as [p IH|p IH|]; intros j Hj; simpl in Hj.
  - rewrite half_xI. apply elem_of_cons in Hj as [->|Hj]; [lia|].
    apply IH in Hj. pose proof (N.Div0.div_le_upper_bound (Npos p) 2 (Npos p)).
    etransitivity; [exact Hj|]. apply N.Div0.div_le_upper_bound. lia.
  - rewrite half_xO. apply elem_of_cons in Hj as [->|Hj]; [lia|].
    apply IH in Hj.
    etransitivity; [exact Hj|]. apply N.Div0.div_le_upper_bound. lia.
  - apply list_elem_of_singleton in Hj as ->. done.
Qed.

(** *** A barrier before every round *)

Lemma run_phases_emulation warpSize blockDim p current schedule s :
  run_phases warpSize blockDim
    (phases true warpSize current (round_counters p)) schedule s =
  reduce_rounds blockDim p
    (run_phase warpSize blockDim current (default [] (head schedule)) s).
Proof.
  revert current schedule s.
  induction p as [p IH|p IH|]; intros current schedule s; simpl.
  - by rewrite IH, run_phase_one_step.
  - by rewrite IH, run_phase_one_step.
  - by rewrite run_phase_one_step.
Qed.

Lemma reduce_shared_on_cuda_emulation warpSize entry schedule blockDim s :
  reduce_shared_on_cuda true warpSize entry schedule blockDim s =
  reduce_in_step blockDim
    (run_phase warpSize blockDim entry (default [] (head schedule)) s).
Proof.
  destruct blockDim as [|p]; [done|]. apply run_phases_emulation.
Qed.

Lemma rounds_le blockDim j : j ∈ rounds blockDim → j ≤ blockDim / 2.
Proof.
  destruct blockDim as [|p]; [by intros ?%elem_of_nil|apply round_counters_le].
Qed.

(** *** No barrier, and the lanes of one warp *)

Lemma phases_no_barrier warpSize current counters :
  (∀ j, j ∈ counters → j ≤ warpSize) →
  phases false warpSize current counters =
    [current ++ (@join_step V <$> counters)].
Proof.
  revert current. induction counters as [|j counters IH]; intros current Hle.
  { by rewrite app_nil_r. }
  simpl. destruct (N.ltb_spec warpSize j) as [Hlt|_].
  { specialize (Hle j ltac:(left)). lia. }
  rewrite IH by (intros; apply Hle; by right). by rewrite <- app_assoc.
Qed.

Lemma warp_of_lane warpSize (i w : nat) :
  N.of_nat i / warpSize = N.of_nat w → (1 ≤ w)%nat → warpSize ≤ N.of_nat i.
Proof.
  intros Hdiv Hw. apply N.le_ngt. intros Hlt.
  rewrite N.div_small in Hdiv by done. lia.
Qed.

Lemma run_warp_join_idle warpSize blockDim j w s :
  j ≤ warpSize → (1 ≤ w)%nat →
  run_warp warpSize blockDim (join_step j) w s = s.
Proof.
  intros Hj Hw. apply list_eq. intros i. rewrite run_warp_lookup.
  destruct (decide _) as [[_ Hwarp]|]; [|done].
  apply warp_of_lane in Hwarp; [|done]. simpl. by rewrite decide_False by lia.
Qed.

Lemma run_warp_write_idle warpSize blockDim values w s :
  blockDim ≤ warpSize → (1 ≤ w)%nat →
  run_warp warpSize blockDim (write_step values) w s = s.
Proof.
  intros Hdim Hw. apply list_eq. intros i. rewrite run_warp_lookup.
  destruct (decide _) as [[Hi Hwarp]|]; [|done].
  apply warp_of_lane in Hwarp; [lia|done].
Qed.

Lemma run_warp_join_0 warpSize blockDim j s :
  j ≤ warpSize →
  run_warp warpSize blockDim (join_step j) 0 s = join_round blockDim j s.
Proof.
  intros Hj. apply list_eq. intros i.
  rewrite run_warp_lookup, join_round_lookup. unfold round_result. simpl.
  destruct (decide (N.of_nat i < j ∧ N.of_nat i < blockDim)) as [[Hij Hi]|Hno].
  - rewrite decide_True by (split; [done|apply N.div_small; lia]).
    by rewrite decide_True by done.
  - destruct (decide _) as [[Hi Hwarp]|]; [|done].
    rewrite decide_False; [done|]. intros Hij. by apply Hno.
Qed.

Lemma run_warp_write_0 warpSize blockDim values s :
  blockDim ≤ warpSize →
  run_warp warpSize blockDim (write_step values) 0 s =
    run_lanes (write_step values) (lanes blockDim) s.
Proof.
  intros Hdim. apply list_eq. intros i.
  rewrite run_warp_lookup, run_lanes_lookup by apply NoDup_lanes.
  destruct (decide (N.of_nat i ∈ lanes blockDim)) as [Hi%elem_of_lanes|Hi].
  - by rewrite decide_True by (split; [done|apply N.div_small; lia]).
  - rewrite decide_False; [done|]. intros [Hlt _]. by apply Hi, elem_of_lanes.
Qed.

Lemma run_joins_one_warp warpSize blockDim p s :
  Npos p / 2 ≤ warpSize →
  fold_left (λ s step, run_warp warpSize blockDim step 0 s)
    (@join_step V <$> round_counters p) s = reduce_rounds blockDim p s.
Proof.
  revert s. induction p as [p IH|p IH|]; intros s Hle; simpl.
  - rewrite half_xI in Hle. rewrite run_warp_join_0 by done. apply IH.
    etransitivity; [|exact Hle]. apply N.Div0.div_le_upper_bound. lia.
  - rewrite half_xO in Hle. rewrite run_warp_join_0 by done. apply IH.
    etransitivity; [|exact Hle]. apply N.Div0.div_le_upper_bound. lia.
  - apply run_warp_join_0. lia.
Qed.

Lemma reduce_shared_on_cuda_one_warp warpSize entry schedule blockDim s :
  blockDim / 2 ≤ warpSize →
  (∀ step w s', step ∈ entry → (1 ≤ w)%nat →
     run_warp warpSize blockDim step w s' = s') →
  reduce_shared_on_cuda false warpSize entry schedule blockDim s =
  reduce_in_step blockDim
    (fold_left (λ s step, run_warp warpSize blockDim step 0 s) entry s).
Proof.
  intros Hhalf Hidle. unfold reduce_shared_on_cuda.
  destruct blockDim as [|p]; simpl.
  - by rewrite run_phase_one_warp.
  - rewrite phases_no_barrier
      by (intros j Hj%round_counters_le; by etransitivity).
    simpl. rewrite run_phase_one_warp.
    + rewrite fold_left_app. by apply run_joins_one_warp.
    + intros step w s' [Hin|(j & -> & Hj)%list_elem_of_fmap]%elem_of_app Hw.
      * by apply Hidle.
      * apply run_warp_join_idle; [|done].
        apply round_counters_le in Hj. by etransitivity.
Qed.


(** A block of a kernel, from the write of the lanes' values on. *)
Lemma reduce_shared_on_cuda_written device_emulation warpSize schedule
    blockDim values s :
  synchronised device_emulation warpSize blockDim →
  length values = N.to_nat blockDim → length s = N.to_nat blockDim →
  reduce_shared_on_cuda device_emulation warpSize [write_step values]
      schedule blockDim s =
    reduce_in_step blockDim values.
Proof.
  intros Hsync Hvalues Hs. destruct device_emulation.
  - by rewrite reduce_shared_on_cuda_emulation, run_phase_one_step,
      run_lanes_write.
  - destruct Hsync as [|Hdim]; [done|].
    rewrite reduce_shared_on_cuda_one_warp.
    + simpl. by rewrite run_warp_write_0, run_lanes_write.
    + etransitivity; [|exact Hdim]. apply N.Div0.div_le_upper_bound. lia.
    + intros step w s' ->%list_elem_of_singleton Hw.
      by apply run_warp_write_idle.
Qed.

End Refinement.

Section AnySchedule.
Context {V : Type} `{F : ReduceFunctor V}.
Implicit Types shared s : list V.
Implicit Types step : @warp_step V.
Implicit Types R : list V → list V → Prop.

(** *** What holds under every schedule *)

(** A relation between two shared memories that every step of every
    warp keeps is kept by the reduction, whatever the schedule. *)
Lemma run_schedule_related R warpSize blockDim phase schedule pcs s1 s2 :
  (∀ step w s1 s2, step ∈ phase → R s1 s2 →
     R (run_warp warpSize blockDim step w s1)
       (run_warp warpSize blockDim step w s2)) →
  R s1 s2 →
  ∃ pcs' s1' s2',
    run_schedule warpSize blockDim phase schedule pcs s1 = (pcs', s1') ∧
    run_schedule warpSize blockDim phase schedule pcs s2 = (pcs', s2') ∧
    R s1' s2'.
Proof.
  intros Hstep. revert pcs s1 s2.
  induction schedule as [|w schedule IH]; intros pcs s1 s2 HR.
  { by exists pcs, s1, s2. }
  simpl. destruct (pcs !! w) as [pc|]; [|by apply IH].
  destruct (phase !! pc) as [step|] eqn:Hpc; [|by apply IH].
  apply IH, Hstep; [by eapply list_elem_of_lookup_2|done].
Qed.

Lemma finish_warp_related R warpSize blockDim phase w pc s1 s2 :
  (∀ step w s1 s2, step ∈ phase → R s1 s2 →
     R (run_warp warpSize blockDim step w s1)
       (run_warp warpSize blockDim step w s2)) →
  R s1 s2 →
  R (finish_warp warpSize blockDim phase w pc s1)
    (finish_warp warpSize blockDim phase w pc s2).
Proof.
  intros Hstep. unfold finish_warp.
  assert (Hsub : ∀ step, step ∈ drop pc phase → step ∈ phase).
  { intros step (i & Hi)%list_elem_of_lookup_1. rewrite lookup_drop in Hi.
    by eapply list_elem_of_lookup_2. }
  revert s1 s2 Hsub. generalize (drop pc phase). intros l.
  induction l as [|step l IH]; intros s1 s2 Hsub HR; [done|].
  simpl. apply IH; [intros; apply Hsub; by right|].
  apply Hstep; [apply Hsub; left|done].
Qed.

Lemma finish_phase_related R warpSize blockDim phase w pcs s1 s2 :
  (∀ step w s1 s2, step ∈ phase → R s1 s2 →
     R (run_warp warpSize blockDim step w s1)
       (run_warp warpSize blockDim step w s2)) →
  R s1 s2 →
  R (finish_phase warpSize blockDim phase w pcs s1)
    (finish_phase warpSize blockDim phase w pcs s2).
Proof.
  intros Hstep. revert w s1 s2.
  induction pcs as [|pc pcs IH]; intros w s1 s2 HR; [done|].
  simpl. by apply IH, finish_warp_related.
Qed.

Lemma run_phase_related R warpSize blockDim phase schedule s1 s2 :
  (∀ step w s1 s2, step ∈ phase → R s1 s2 →
     R (run_warp warpSize blockDim step w s1)
       (run_warp warpSize blockDim step w s2)) →
  R s1 s2 →
  R (run_phase warpSize blockDim phase schedule s1)
    (run_phase warpSize blockDim phase schedule s2).
Proof.
  intros Hstep HR. unfold run_phase.
  destruct (run_schedule_related R warpSize blockDim phase schedule
              (replicate (warp_count warpSize blockDim) 0%nat) s1 s2 Hstep HR)
    as (pcs & s1' & s2' & -> & -> & HR').
  by apply finish_phase_related.
Qed.

Lemma run_phases_related R warpSize blockDim ps schedule s1 s2 :
  (∀ phase step w s1 s2, phase ∈ ps → step ∈ phase → R s1 s2 →
     R (run_warp warpSize blockDim step w s1)
       (run_warp warpSize blockDim step w s2)) →
  R s1 s2 →
  R (run_phases warpSize blockDim ps schedule s1)
    (run_phases warpSize blockDim ps schedule s2).
Proof.
  revert schedule s1 s2.
  induction ps as [|phase ps IH]; intros schedule s1 s2 Hstep HR; [done|].
  simpl. apply IH.
  - intros phase' step w s1' s2' Hin. apply Hstep. by right.
  - apply run_phase_related; [|done].
    intros step w s1' s2'. apply Hstep. left.
Qed.

Lemma phases_steps device_emulation warpSize current counters phase step :
  phase ∈ phases device_emulation warpSize current counters →
  step ∈ phase →
  step ∈ current ∨ ∃ j, j ∈ counters ∧ step = join_step j.
Proof.
  revert current. induction counters as [|j counters IH]; intros current; simpl.
  { intros ->%list_elem_of_singleton. by left. }
  destruct (barrier_before _ _ _).
  - intros [->|Hin]%elem_of_cons Hstep; [by left|].
    destruct (IH _ Hin Hstep) as [->%list_elem_of_singleton|(j' & Hj' & ->)].
    + right. exists j. split; [left|done].
    + right. exists j'. split; [by right|done].
  - intros Hin Hstep.
    destruct (IH _ Hin Hstep)
      as [[?| ->%list_elem_of_singleton]%elem_of_app|(j' & Hj' & ->)].
    + by left.
    + right. exists j. split; [left|done].
    + right. exists j'. split; [by right|done].
Qed.

Lemma reduce_shared_on_cuda_related R device_emulation warpSize entry schedule
    blockDim s1 s2 :
  (∀ step w s1 s2,
     step ∈ entry ∨ (∃ j, j ∈ rounds blockDim ∧ step = join_step j) →
     R s1 s2 →
     R (run_warp warpSize blockDim step w s1)
       (run_warp warpSize blockDim step w s2)) →
  R s1 s2 →
  R (reduce_shared_on_cuda device_emulation warpSize entry schedule blockDim s1)
    (reduce_shared_on_cuda device_emulation warpSize entry schedule blockDim s2).
Proof.
  intros Hstep HR. unfold reduce_shared_on_cuda.
  apply run_phases_related; [|done].
  intros phase step w s1' s2' Hphase Hin. apply Hstep.
  by apply (phases_steps _ _ _ _ _ _ Hphase Hin).
Qed.

Lemma reduce_shared_on_cuda_length device_emulation warpSize entry schedule
    blockDim s :
  length (reduce_shared_on_cuda device_emulation warpSize entry schedule
            blockDim s) = length s.
Proof.
  apply (reduce_shared_on_cuda_related (λ s1 _, length s1 = length s)
           device_emulation warpSize entry schedule blockDim s s); [|done].
  intros step w s1 _ _ <-. apply run_warp_length.
Qed.

End AnySchedule.



Global Instance sum_of_join_laws c : JoinLaws (sum_of c).
Proof. split; simpl; intros; lia. Qed.

Global Instance sum_of_reduction_laws c : ReductionLaws (sum_of c).
Proof. split; [apply _|..]; unfold contribution; simpl; intros; lia. Qed.



(** ** The work loops of a block, in closed form *)

Lemma lane_iterations_spec work_count stride start :
  1 ≤ stride →
  (∀ k, k < N.of_nat (lane_iterations work_count stride start) →
        start + k * stride < work_count) ∧
  work_count ≤ start + N.of_nat (lane_iterations work_count stride start) * stride.
Proof.
  intros Hs. unfold lane_iterations.
  destruct (N.ltb_spec start work_count) as [Hlt|Hge]; [|split; [lia|simpl; lia]].
  rewrite N2Nat.id.
  pose proof (N.div_mod (work_count - start + stride - 1) stride) as Hdm.
  pose proof (N.mod_lt (work_count - start + stride - 1) stride) as Hr.
  revert Hdm Hr.
  generalize ((work_count - start + stride - 1) / stride),
             ((work_count - start + stride - 1) mod stride).
  intros q r Hdm Hr. specialize (Hdm ltac:(lia)). specialize (Hr ltac:(lia)).
  split; [intros k Hk|]; nia.
Qed.

Lemma stride_count_unique n m start stride bound :
  1 ≤ stride →
  (∀ k, k < N.of_nat n → start + k * stride < bound) →
  bound ≤ start + N.of_nat n * stride →
  (∀ k, k < N.of_nat m → start + k * stride < bound) →
  bound ≤ start + N.of_nat m * stride →
  n = m.
Proof.
  intros Hs Hn1 Hn2 Hm1 Hm2.
  destruct (Nat.lt_trichotomy n m) as [Hlt|[->|Hgt]]; [|done|].
  - specialize (Hm1 (N.of_nat n)). lia.
  - specialize (Hn1 (N.of_nat m)). lia.
Qed.

Lemma elem_of_lane_items work_count stride start i :
  1 ≤ stride → start < stride →
  i ∈ lane_items work_count stride start ↔ i < work_count ∧ i mod stride = start.
Proof.
  intros Hs Hg. unfold lane_items.
  destruct (lane_iterations_spec work_count stride start Hs) as [Hin Hout].
  rewrite (elem_of_stride_run _ _ _ work_count) by done.
  split; intros [Hi Hk]; (split; [done|]).
  - destruct Hk as [k ->]. symmetry. apply (N.mod_unique _ _ k); [done|lia].
  - exists (i / stride). rewrite <- Hk.
    pose proof (N.div_mod i stride). lia.
Qed.

Lemma NoDup_lane_items work_count stride start :
  1 ≤ stride → NoDup (lane_items work_count stride start).
Proof. apply NoDup_stride_indices. Qed.

Section BlockAccumulate.
Context {V : Type} `{F : ReduceFunctor V}.

Lemma lane_accumulate_items fuel work_count blockDim gridDim blockIdx threadIdx :
  blockDim * gridDim < 2 ^ 32 →
  work_count + blockDim * gridDim ≤ 2 ^ 64 →
  blockIdx < gridDim → threadIdx < blockDim →
  (N.to_nat work_count < fuel)%nat →
  lane_accumulate fuel work_count blockDim gridDim blockIdx threadIdx =
    Some (accumulate
            (lane_items work_count (blockDim * gridDim)
               (threadIdx + blockDim * blockIdx))
            functor_init).
Proof.
  intros Hp Hw Hb Ht Hf.
  destruct (lane_accumulate_run fuel work_count blockDim gridDim blockIdx threadIdx)
    as (n & -> & Hin & Hout); [done..|].
  assert (Hs : 1 ≤ blockDim * gridDim) by nia.
  destruct (lane_iterations_spec work_count (blockDim * gridDim)
              (threadIdx + blockDim * blockIdx) Hs) as [Hin' Hout'].
  unfold lane_items.
  by rewrite (stride_count_unique _ _ _ _ _ Hs Hin Hout Hin' Hout').
Qed.

Lemma block_accumulate_values fuel work_count blockDim gridDim blockIdx :
  blockDim * gridDim < 2 ^ 32 →
  work_count + blockDim * gridDim ≤ 2 ^ 64 →
  blockIdx < gridDim →
  (N.to_nat work_count < fuel)%nat →
  block_accumulate fuel work_count blockDim gridDim blockIdx =
    Some (block_values work_count blockDim gridDim blockIdx).
Proof.
  intros Hp Hw Hb Hf. unfold block_accumulate, block_values.
  apply mapM_Some_2. apply Forall2_fmap_r, Forall_Forall2_diag.
  apply Forall_forall. intros t Ht%elem_of_lanes.
  by apply lane_accumulate_items.
Qed.

Lemma length_block_values work_count blockDim gridDim blockIdx :
  length (block_values work_count blockDim gridDim blockIdx) = N.to_nat blockDim.
Proof. unfold block_values. by rewrite length_fmap, length_lanes. Qed.

Lemma reduce_rounds_length blockDim j shared :
  length (reduce_rounds blockDim j shared) = length shared.
Proof.
  revert shared. induction j as [j IH|j IH|]; intros shared; simpl;
    rewrite ?IH; apply join_round_length.
Qed.

Lemma reduce_in_step_length blockDim shared :
  length (reduce_in_step blockDim shared) = length shared.
Proof. destruct blockDim; [done|apply reduce_rounds_length]. Qed.

Lemma slot_0_lookup blockDim shared :
  (0 < length shared)%nat →
  reduce_in_step blockDim shared !! 0%nat = Some (slot_0 blockDim shared).
Proof.
  intros Hlen. unfold slot_0.
  destruct (lookup_lt_is_Some_2 (reduce_in_step blockDim shared) 0)
    as [v ->]; [by rewrite reduce_in_step_length|done].
Qed.

End BlockAccumulate.

(** ** Sequencing *)

Lemma for_each_app {S A} (body : A → exec S ()) l1 l2 s :
  for_each body (l1 ++ l2) s = (for_each body l1 ;; for_each body l2) s.
Proof.
  revert s. induction l1 as [|a l1 IH]; intros s; [done|].
  simpl. unfold mbind, exec_bind in *. destruct (body a s); [|done..].
  apply IH.
Qed.

Lemma for_each_skip {S A} (body : A → exec S ()) l s :
  (∀ a s', a ∈ l → body a s' = Done () s') → for_each body l s = Done () s.
Proof.
  intros Hskip. induction l as [|a l IH]; [done|].
  simpl. unfold mbind, exec_bind. rewrite Hskip by left.
  apply IH. intros b s' Hb. apply Hskip. by right.
Qed.

Lemma lanes_head n :
  1 ≤ n → ∃ l, lanes n = 0 :: l ∧ ∀ t, t ∈ l → t ≠ 0.
Proof.
  intros Hn. pose proof (NoDup_lanes n) as Hnd. unfold lanes in *.
  destruct (N.to_nat n) as [|m] eqn:Hm; [lia|].
  simpl in *. eexists. split; [done|].
  intros t Ht ->. by apply NoDup_cons in Hnd as [Hnd _].
Qed.

(** ** The shared memory of a block after the tree reduction *)

Section BlockMemory.
Context {V : Type} `{F : ReduceFunctor V}.

Lemma block_memory_length (hw : Hardware V) k blockDim blockIdx values :
  length (block_memory hw k blockDim blockIdx values) = N.to_nat blockDim.
Proof.
  unfold block_memory.
  destruct k; [|destruct (_ || _)];
    by rewrite ?reduce_shared_on_cuda_length, length_fmap, length_lanes.
Qed.

Lemma block_memory_lookup_0 (hw : Hardware V) k blockDim blockIdx values :
  1 ≤ blockDim →
  block_memory hw k blockDim blockIdx values !! 0%nat =
    Some (reduced_value hw k blockDim blockIdx values).
Proof.
  intros Hdim. unfold reduced_value.
  destruct (lookup_lt_is_Some_2 (block_memory hw k blockDim blockIdx values) 0)
    as [v ->]; [rewrite block_memory_length; lia|done].
Qed.

(** Where no lane is ahead of another the block holds what the
    reduction in step leaves, whatever the schedule and whatever shared
    memory held before. *)
Lemma block_memory_in_step (hw : Hardware V) k blockDim blockIdx values :
  synchronised (device_emulation hw) (warpSize hw) blockDim →
  length values = N.to_nat blockDim →
  block_memory hw k blockDim blockIdx values = reduce_in_step blockDim values.
Proof.
  intros Hsync Hlen. unfold block_memory.
  assert (Hcopied : device_emulation hw || (blockDim <=? warpSize hw) = true).
  { destruct Hsync as [->|Hle]; [done|].
    apply orb_true_iff. right. by apply N.leb_le. }
  rewrite Hcopied.
  transitivity (reduce_shared_on_cuda (device_emulation hw) (warpSize hw)
                  [write_step values] (warp_schedule hw k blockIdx) blockDim
                  (shared_at_launch hw <$> lanes blockDim));
    [by destruct k|].
  apply reduce_shared_on_cuda_written; [done|done|].
  by rewrite length_fmap, length_lanes.
Qed.

Lemma reduced_value_in_step (hw : Hardware V) k blockDim blockIdx values :
  synchronised (device_emulation hw) (warpSize hw) blockDim →
  length values = N.to_nat blockDim →
  reduced_value hw k blockDim blockIdx values = slot_0 blockDim values.
Proof.
  intros Hsync Hlen. unfold reduced_value, slot_0.
  by rewrite block_memory_in_step.
Qed.

End BlockMemory.

(** ** The finalize step of a block *)

Section Finalize.
Context {V U : Type} `{F : ReduceFunctor V}.
Implicit Types s : state V U.

(** In a launch of one block, of all the lanes only lane 0 calls the
    serial functor, on the value the tree reduction left in slot 0. *)
Lemma reduce_and_finalize_serial k serial_finalize blockDim blockIdx values s :
  1 ≤ blockDim →
  reduce_and_finalize (U:=U) k (CudaParallelReduceFinalizeFunctor serial_finalize)
      1 blockDim blockIdx values s =
    Done () {| device := device s;
               trace := trace s ++
                 [serial_finalize_event 1 blockIdx 0
                    (reduced_value (hardware (device s)) k blockDim blockIdx
                       values)];
               user := serial_finalize
                         (reduced_value (hardware (device s)) k blockDim blockIdx
                            values) (user s) |}.
Proof.
  intros Hdim. unfold reduce_and_finalize.
  destruct (lanes_head blockDim Hdim) as (l & -> & Hl).
  simpl. unfold mbind, exec_bind, serial_finalize_call at 1. simpl.
  rewrite block_memory_lookup_0 by done.
  apply for_each_skip. intros t s' Ht. unfold serial_finalize_call.
  destruct (N.eqb_spec 0 t) as [<-|]; [by apply Hl in Ht|done].
Qed.

(** In a launch of several blocks, or of none, no lane calls it. *)
Lemma reduce_and_finalize_serial_skip k serial_finalize gridDim blockDim
    blockIdx values s :
  gridDim ≠ 1 →
  reduce_and_finalize (U:=U) k (CudaParallelReduceFinalizeFunctor serial_finalize)
      gridDim blockDim blockIdx values s = Done () s.
Proof.
  intros Hgrid. unfold reduce_and_finalize.
  apply for_each_skip. intros t s' _. simpl. unfold serial_finalize_call.
  destruct (N.eqb_spec 1 gridDim) as [<-|]; done.
Qed.

(** The block functor stores slot 0 at [block_value + blockIdx.x]. *)
Lemma reduce_and_finalize_store k block_value gridDim blockDim blockIdx values s
    bytes slots :
  1 ≤ blockDim →
  global_memory (device s) !! block_value = Some (bytes, slots) →
  blockIdx < N.of_nat (length slots) →
  reduce_and_finalize (U:=U) k (CudaParallelReduceFinalizeBlock block_value)
      gridDim blockDim blockIdx values s =
    Done () (record
      (store_event block_value blockIdx
         (reduced_value (hardware (device s)) k blockDim blockIdx values))
      (set_global_memory
         (<[block_value :=
              (bytes,
               <[N.to_nat blockIdx :=
                   Some (reduced_value (hardware (device s)) k blockDim blockIdx
                           values)]> slots)]>
            (global_memory (device s)))
         (free_memory (device s)) s)).
Proof.
  intros Hdim Hptr Hidx. unfold reduce_and_finalize.
  destruct (lanes_head blockDim Hdim) as (l & -> & Hl).
  simpl. unfold mbind, exec_bind, store_block_call at 1. simpl.
  rewrite block_memory_lookup_0 by done. rewrite Hptr.
  destruct (N.ltb_spec blockIdx (N.of_nat (length slots))); [|lia].
  apply for_each_skip. intros t s' Ht. unfold store_block_call.
  destruct (N.eqb_spec t 0) as [->|]; [by apply Hl in Ht|done].
Qed.

End Finalize.

(** ** The kernels *)

Section Kernels.
Context {V U : Type} `{F : ReduceFunctor V}.
Implicit Types s : state V U.

Lemma store_events_snoc ptr (values : list V) value :
  store_events ptr (values ++ [value]) =
  store_events ptr values ++ [store_event ptr (N.of_nat (length values)) value].
Proof.
  unfold store_events. rewrite imap_app. simpl.
  by rewrite Nat.add_0_r.
Qed.

Lemma length_block_partials work_count blockDim gridDim n :
  length (block_partials (F:=F) work_count blockDim gridDim n) = N.to_nat n.
Proof. unfold block_partials. by rewrite length_fmap, length_lanes. Qed.

Lemma block_partials_succ work_count blockDim gridDim n :
  block_partials (F:=F) work_count blockDim gridDim (N.succ n) =
  block_partials work_count blockDim gridDim n ++
    [block_partial work_count blockDim gridDim n].
Proof. unfold block_partials. by rewrite lanes_succ, fmap_app. Qed.

Lemma length_device_partials hw work_count blockDim gridDim n :
  length (device_partials (F:=F) hw work_count blockDim gridDim n) = N.to_nat n.
Proof. unfold device_partials. by rewrite length_fmap, length_lanes. Qed.

Lemma device_partials_succ hw work_count blockDim gridDim n :
  device_partials (F:=F) hw work_count blockDim gridDim (N.succ n) =
  device_partials hw work_count blockDim gridDim n ++
    [device_partial hw work_count blockDim gridDim n].
Proof. unfold device_partials. by rewrite lanes_succ, fmap_app. Qed.

(** The first phase: block after block, the value the tree reduction
    leaves in slot 0 goes to the slot of the block in the scratch buffer. *)
Lemma run_blocks_store fuel work_count block_value gridDim blockDim bytes s n :
  1 ≤ blockDim →
  blockDim * gridDim < 2 ^ 32 →
  work_count + blockDim * gridDim ≤ 2 ^ 64 →
  (N.to_nat work_count < fuel)%nat →
  global_memory (device s) !! block_value =
    Some (bytes, replicate (N.to_nat gridDim) None) →
  n ≤ gridDim →
  for_each (λ blockIdx,
      values ← exec_lift (block_accumulate fuel work_count blockDim gridDim blockIdx);
      reduce_and_finalize (U:=U) reduce_functor_kernel
        (CudaParallelReduceFinalizeBlock block_value)
        gridDim blockDim blockIdx values)
    (lanes n) s =
  Done () (stored_state s block_value bytes gridDim
             (device_partials (hardware (device s)) work_count blockDim
                gridDim n)).
Proof.
  intros Hdim Hp Hw Hf Hptr.
  induction n as [|n IH] using N.peano_ind; intros Hn.
  - simpl. unfold mret, exec_ret, stored_state, store_events. simpl.
    rewrite Nat.sub_0_r, app_nil_r, insert_id by done.
    by destruct s as [[] ? ?].
  - rewrite lanes_succ, for_each_app.
    unfold mbind at 1. unfold exec_bind at 1. rewrite IH by lia.
    simpl. unfold mbind at 1, exec_bind at 1.
    unfold mbind at 1, exec_bind at 1. unfold exec_lift.
    rewrite block_accumulate_values by (done || lia).
    set (values := device_partials (hardware (device s)) work_count blockDim
                     gridDim n).
    set (slots := (Some <$> values) ++
                  replicate (N.to_nat gridDim - length values) (@None V)).
    assert (Hlen : length values = N.to_nat n)
      by apply length_device_partials.
    rewrite (reduce_and_finalize_store _ _ _ _ _ _ _ bytes slots);
      [| done | apply lookup_insert_eq |].
    2: { subst slots. rewrite length_app, length_fmap, length_replicate. lia. }
    unfold mret, exec_ret. f_equal.
    rewrite device_partials_succ. fold values.
    change (reduced_value _ _ _ _ _)
      with (device_partial (hardware (device s)) work_count blockDim gridDim n).
    unfold stored_state, record, set_global_memory. simpl.
    rewrite store_events_snoc, Hlen, N2Nat.id, app_assoc.
    f_equal. f_equal. rewrite insert_insert_eq. f_equal. f_equal.
    subst slots. rewrite fmap_app, length_app, <- app_assoc. simpl.
    rewrite insert_app_r_alt by (rewrite length_fmap; lia).
    rewrite length_fmap, Hlen, Nat.sub_diag. f_equal.
    destruct (N.to_nat gridDim - N.to_nat n)%nat as [|m] eqn:Hm; [lia|].
    simpl. f_equal. f_equal. lia.
Qed.

End Kernels.

(** ** The shrink loops of the planner *)

Lemma half_bounds n : 2 * (n / 2) ≤ n ∧ n < 2 * (n / 2) + 2.
Proof.
  pose proof (N.div_mod n 2 ltac:(done)) as Hdm.
  pose proof (N.mod_lt n 2 ltac:(done)) as Hr.
  revert Hdm Hr. generalize (n / 2), (n mod 2). intros q r Hdm Hr. lia.
Qed.

Lemma power_of_two_half n : power_of_two n → 2 ≤ n → power_of_two (n / 2).
Proof.
  intros [k ->] Hn. destruct (N.eq_dec k 0) as [->|Hk]; [simpl in Hn; lia|].
  exists (N.pred k). rewrite <- (N.succ_pred k) at 1 by done.
  rewrite N.pow_succ_r', N.mul_comm, N.div_mul; done.
Qed.

Lemma power_of_two_pos n : power_of_two n → 1 ≤ n.
Proof. intros [k ->]. pose proof (N.pow_nonzero 2 k). lia. Qed.

Lemma shrink_thread_count_run fuel work_count thread_count :
  1 ≤ work_count →
  (N.to_nat thread_count < fuel)%nat →
  ∃ thread_count',
    shrink_thread_count fuel work_count thread_count = Some thread_count' ∧
    halved_while (keep_halving_lanes work_count) thread_count thread_count' ∧
    thread_count' ≤ thread_count ∧
    (1 ≤ thread_count → 1 ≤ thread_count') ∧
    (power_of_two thread_count → power_of_two thread_count').
Proof.
  intros Hw. revert thread_count.
  induction fuel as [|fuel IH]; intros thread_count Hf; [lia|].
  simpl. rewrite shiftr_1_div2.
  pose proof (half_bounds thread_count) as Hhalf.
  destruct (N.leb_spec work_count (thread_count / 2)) as [Hle|Hgt].
  - destruct (IH (thread_count / 2)) as (c & -> & Hh & Hc & H1 & Hpow); [lia|].
    exists c. split; [done|]. split; [|split; [lia|split]].
    + apply halved_step; [|done]. unfold keep_halving_lanes. by apply N.leb_le.
    + intros _. apply H1. lia.
    + intros Hp. apply Hpow, power_of_two_half; [done|lia].
  - exists thread_count. split; [done|]. split; [|done].
    apply halved_stop. unfold keep_halving_lanes. by apply N.leb_gt.
Qed.

Lemma shrink_block_count_run fuel work_count max_thread_count block_count :
  1 ≤ work_count →
  max_thread_count * block_count < 2 ^ 64 →
  (N.to_nat block_count < fuel)%nat →
  ∃ block_count',
    shrink_block_count fuel work_count max_thread_count block_count =
      Some block_count' ∧
    halved_while (keep_halving_clusters work_count max_thread_count)
      block_count block_count' ∧
    block_count' ≤ block_count ∧
    (1 ≤ block_count → 1 ≤ block_count') ∧
    (power_of_two block_count → power_of_two block_count').
Proof.
  intros Hw. revert block_count.
  induction fuel as [|fuel IH]; intros block_count Hov Hf; [lia|].
  simpl. rewrite shiftr_1_div2.
  pose proof (half_bounds block_count) as Hhalf.
  rewrite size_t_small by nia.
  destruct (N.leb_spec work_count (max_thread_count * (block_count / 2)))
    as [Hle|Hgt].
  - destruct (IH (block_count / 2)) as (c & -> & Hh & Hc & H1 & Hpow);
      [nia|nia|].
    exists c. split; [done|]. split; [|split; [lia|split]].
    + apply halved_step; [|done]. unfold keep_halving_clusters. by apply N.leb_le.
    + intros _. apply H1. nia.
    + intros Hp. apply Hpow, power_of_two_half; [done|nia].
  - exists block_count. split; [done|]. split; [|done].
    apply halved_stop. unfold keep_halving_clusters. by apply N.leb_gt.
Qed.

Lemma halved_while_unique continue c c1 c2 :
  halved_while continue c c1 → halved_while continue c c2 → c1 = c2.
Proof.
  intros H1. revert c2. induction H1 as [c Hstop|c c' Hgo _ IH]; intros c2 H2.
  - destruct H2 as [|c c2 Hgo _]; [done|congruence].
  - destruct H2 as [c Hstop|c c2 _ H2]; [congruence|]. by apply IH.
Qed.

Lemma halved_while_le continue c c' : halved_while continue c c' → c' ≤ c.
Proof.
  induction 1 as [c _|c c' _ _ IH]; [done|].
  pose proof (half_bounds c). lia.
Qed.

(** The first loop stops at a thread count that is at least the work
    count. *)
Lemma halved_while_lanes_ge work_count c c' :
  halved_while (keep_halving_lanes work_count) c c' →
  work_count ≤ c → work_count ≤ c'.
Proof.
  induction 1 as [c _|c c' Hgo _ IH]; [done|]. intros _.
  apply IH. unfold keep_halving_lanes in Hgo. by apply N.leb_le in Hgo.
Qed.

(** With no work the first loop never ends: once [thread_count] is 0 the
    test [0 <= 0 >> 1] holds for ever. *)
Lemma shrink_thread_count_0 fuel thread_count :
  shrink_thread_count fuel 0 thread_count = None.
Proof.
  revert thread_count. induction fuel as [|fuel IH]; intros thread_count; [done|].
  simpl. destruct (N.leb_spec 0 (N.shiftr thread_count 1)); [apply IH|lia].
Qed.

(** ** Launches *)

Lemma lanes_1 : lanes 1 = [0].
Proof. reflexivity. Qed.

Section Launches.
Context {V U : Type} `{F : ReduceFunctor V}.
Implicit Types s : state V U.

(** A single-block launch of the work kernel with the serial finalize. *)
Lemma launch_single_block fuel thread_count shmem work_count serial_finalize s :
  1 ≤ thread_count → thread_count < 2 ^ 32 →
  work_count + thread_count ≤ 2 ^ 64 →
  (N.to_nat work_count < fuel)%nat →
  launch_functor (U:=U) fuel 1 thread_count shmem work_count
      (CudaParallelReduceFinalizeFunctor serial_finalize) s =
    Done () {| device := device s;
               trace := trace s ++
                 [launch_functor_event 1 thread_count shmem work_count None;
                  serial_finalize_event 1 0 0
                    (device_partial (hardware (device s)) work_count
                       thread_count 1 0)];
               user := serial_finalize
                         (device_partial (hardware (device s)) work_count
                            thread_count 1 0) (user s) |}.
Proof.
  intros H1 H32 Hw Hf. unfold launch_functor.
  rewrite (unsigned_int_small 1) by done.
  rewrite (unsigned_int_small thread_count) by done.
  unfold mbind at 1, exec_bind at 1. unfold run_reduce_functor_on_cuda.
  rewrite lanes_1. simpl.
  unfold mbind at 1, exec_bind at 1. unfold mbind at 1, exec_bind at 1.
  unfold exec_lift.
  rewrite block_accumulate_values by (done || word_lia).
  rewrite reduce_and_finalize_serial by done.
  unfold mret, exec_ret, record, device_partial. simpl.
  by rewrite <- app_assoc.
Qed.

(** The first phase of a two-phase reduction. *)
Lemma launch_first_phase fuel block_count max_thread_count shmem work_count
    block_value bytes s :
  1 ≤ max_thread_count → 1 ≤ block_count →
  max_thread_count * block_count < 2 ^ 32 →
  work_count + max_thread_count * block_count ≤ 2 ^ 64 →
  (N.to_nat work_count < fuel)%nat →
  global_memory (device s) !! block_value =
    Some (bytes, replicate (N.to_nat block_count) None) →
  launch_functor (U:=U) fuel block_count max_thread_count shmem work_count
      (CudaParallelReduceFinalizeBlock block_value) s =
    Done () (stored_state
      (record (launch_functor_event block_count max_thread_count shmem work_count
                 (Some block_value)) s)
      block_value bytes block_count
      (device_partials (hardware (device s)) work_count max_thread_count
         block_count block_count)).
Proof.
  intros H1 Hb1 H32 Hw Hf Hptr. unfold launch_functor.
  rewrite (unsigned_int_small block_count) by nia.
  rewrite (unsigned_int_small max_thread_count) by nia.
  unfold mbind at 1, exec_bind at 1. unfold run_reduce_functor_on_cuda.
  rewrite (run_blocks_store _ _ _ _ _ bytes) by (done || lia). done.
Qed.

Lemma load_block_result_stored block_result bytes (values : list V) s :
  global_memory (device s) !! block_result = Some (bytes, Some <$> values) →
  load_block_result (U:=U) block_result (N.of_nat (length values)) s =
    Done values s.
Proof.
  intros Hptr. unfold load_block_result. rewrite Hptr.
  rewrite (mapM_Some_2 _ _ values); [done|].
  apply Forall2_same_length_lookup. split.
  { by rewrite length_lanes, Nat2N.id. }
  intros k i v Hi Hv.
  rewrite lookup_lanes in Hi by (apply lookup_lt_Some in Hv; lia).
  injection Hi as <-. rewrite Nat2N.id, list_lookup_fmap, Hv. done.
Qed.

(** The second phase: one block, one lane per partial value. *)
Lemma launch_second_phase block_count shmem block_result bytes
    (values : list V) serial_finalize s :
  1 ≤ block_count → block_count < 2 ^ 32 →
  length values = N.to_nat block_count →
  global_memory (device s) !! block_result = Some (bytes, Some <$> values) →
  launch_operator (U:=U) 1 block_count shmem block_result
      (CudaParallelReduceFinalizeFunctor serial_finalize) s =
    Done () {| device := device s;
               trace := trace s ++
                 [launch_operator_event 1 block_count shmem block_result;
                  serial_finalize_event 1 0 0
                    (reduced_value (hardware (device s)) reduce_operator_kernel
                       block_count 0 values)];
               user := serial_finalize
                         (reduced_value (hardware (device s))
                            reduce_operator_kernel block_count 0 values)
                         (user s) |}.
Proof.
  intros H1 H32 Hlen Hptr. unfold launch_operator.
  rewrite (unsigned_int_small 1) by done.
  rewrite (unsigned_int_small block_count) by done.
  unfold mbind at 1, exec_bind at 1. unfold run_reduce_operator_on_cuda.
  rewrite lanes_1. simpl.
  unfold mbind at 1, exec_bind at 1. unfold mbind at 1, exec_bind at 1.
  replace block_count with (N.of_nat (length values)) at 1 by lia.
  rewrite (load_block_result_stored _ bytes) by done.
  rewrite reduce_and_finalize_serial by done.
  unfold mret, exec_ret, record. simpl.
  by rewrite <- app_assoc.
Qed.

End Launches.

(** ** The driver *)

Section DriverRuns.
Context {V U : Type} `{F : ReduceFunctor V}.
Implicit Types s : state V U.

Lemma fresh_pointer_unused (m : gmap N (N * list (option V))) :
  m !! fresh (dom m) = None.
Proof. apply not_elem_of_dom, is_fresh. Qed.

(** The single-block path, from start to end, whatever the schedule. *)
Lemma cuda_parallel_reduce_single_block fuel work_count finalize s thread_count :
  let max_thread_count := reduction_thread_max (device s) reduce_size in
  1 ≤ work_count → work_count < max_thread_count →
  halved_while (keep_halving_lanes work_count) max_thread_count thread_count →
  thread_count < 2 ^ 32 →
  (N.to_nat max_thread_count < fuel)%nat →
  cuda_parallel_reduce (U:=U) fuel work_count finalize s =
    Done () {| device := device s;
               trace := trace s ++
                 single_block_trace (hardware (device s)) thread_count work_count;
               user := finalize
                         (device_partial (hardware (device s)) work_count
                            thread_count 1 0)
                         (user s) |}.
Proof.
  intros max_thread_count Hw1 Hlt Hhalved H32 Hf.
  destruct (shrink_thread_count_run fuel work_count max_thread_count)
    as (thread_count' & Hshrink & Hhalved' & Hle & Hge & _); [done..|].
  rewrite (halved_while_unique _ _ _ _ Hhalved' Hhalved) in *.
  pose proof (halved_while_lanes_ge _ _ _ Hhalved ltac:(lia)) as Hwork.
  unfold cuda_parallel_reduce. fold max_thread_count.
  destruct (N.ltb_spec work_count max_thread_count); [|lia].
  unfold mbind, exec_bind, exec_lift at 1. rewrite Hshrink.
  apply launch_single_block; [apply Hge; lia|done|word_lia|lia].
Qed.

(** The two-phase path, from start to end, whatever the schedule: the
    device is left as it was found. *)
Lemma cuda_parallel_reduce_two_phase fuel work_count finalize s block_count :
  let max_thread_count := reduction_thread_max (device s) reduce_size in
  let limit := N.min (block_count_max (device s)) max_thread_count in
  1 ≤ max_thread_count → 1 ≤ block_count_max (device s) →
  max_thread_count ≤ work_count →
  halved_while (keep_halving_clusters work_count max_thread_count)
    limit block_count →
  max_thread_count * block_count < 2 ^ 32 →
  work_count + max_thread_count * block_count ≤ 2 ^ 64 →
  reduce_size * block_count ≤ free_memory (device s) →
  (N.to_nat work_count < fuel)%nat →
  1 ≤ block_count ∧
  cuda_parallel_reduce (U:=U) fuel work_count finalize s =
    Done () {| device := device s;
               trace := trace s ++
                 two_phase_trace (hardware (device s))
                   (fresh (dom (global_memory (device s))))
                   block_count max_thread_count work_count;
               user := finalize
                 (two_phase_result (hardware (device s)) work_count
                    max_thread_count block_count)
                 (user s) |}.
Proof.
  intros max_thread_count limit HL1 HC1 Hge Hhalved H32 H64 Hfree Hf.
  assert (Hlimit : 1 ≤ limit ∧ limit ≤ max_thread_count) by (subst limit; lia).
  pose proof (halved_while_le _ _ _ Hhalved) as Hle.
  assert (Hb1 : 1 ≤ block_count).
  { clear -Hhalved Hlimit HL1 Hge. destruct Hlimit as [Hlimit _].
    induction Hhalved as [c _|c c' Hgo _ IH]; [done|]. apply IH.
    unfold keep_halving_clusters in Hgo. apply N.leb_le in Hgo.
    destruct (N.eq_dec (c / 2) 0) as [Hzero|]; [|lia].
    rewrite Hzero in Hgo. lia. }
  assert (HL32 : max_thread_count < 2 ^ 32) by nia.
  assert (HL64 : max_thread_count * limit < 2 ^ 64).
  { rewrite pow_2_32 in HL32. rewrite pow_2_64. nia. }
  destruct (shrink_block_count_run fuel work_count max_thread_count limit)
    as (block_count' & Hshrink & Hhalved' & _); [lia|done|lia|].
  rewrite (halved_while_unique _ _ _ _ Hhalved' Hhalved) in *.
  split; [done|].
  unfold cuda_parallel_reduce. fold max_thread_count.
  destruct (N.ltb_spec work_count max_thread_count); [lia|].
  replace (if max_thread_count <? block_count_max (device s)
           then max_thread_count else block_count_max (device s)) with limit
    by (subst limit; destruct (N.ltb_spec max_thread_count
                                 (block_count_max (device s))); lia).
  unfold mbind at 1, exec_bind at 1, exec_lift at 1. rewrite Hshrink.
  unfold mbind at 1, exec_bind at 1, allocate_memory at 1.
  destruct (N.leb_spec (reduce_size * block_count) (free_memory (device s)))
    as [Hfits|]; [|lia].
  set (ptr := fresh (dom (global_memory (device s)))).
  set (bytes := reduce_size * block_count) in *.
  assert (Hptr : global_memory (device s) !! ptr = None)
    by apply fresh_pointer_unused.
  unfold mbind at 1, exec_bind at 1.
  rewrite (launch_first_phase _ _ _ _ _ _ bytes);
    [|done|done|nia|nia|lia|simpl; apply lookup_insert_eq].
  unfold mbind at 1, exec_bind at 1.
  rewrite (launch_second_phase _ _ _ bytes
             (device_partials (hardware (device s)) work_count max_thread_count
                block_count block_count));
    [|done|nia|by rewrite length_device_partials|].
  2: { simpl. rewrite length_device_partials, Nat.sub_diag. simpl.
       rewrite app_nil_r. apply lookup_insert_eq. }
  unfold deallocate_memory. simpl. rewrite lookup_insert_eq.
  f_equal. unfold record, set_global_memory, two_phase_trace, two_phase_result.
  simpl.
  rewrite insert_insert_eq, delete_insert_eq, delete_id by done.
  rewrite <- !app_assoc. simpl.
  destruct s as [[] ? ?]. simpl in *. do 2 f_equal. lia.
Qed.

End DriverRuns.

(** ** Every work item belongs to one lane *)

Lemma lane_of_item blockDim gridDim i :
  1 ≤ blockDim * gridDim →
  ∃ blockIdx threadIdx,
    blockIdx < gridDim ∧ threadIdx < blockDim ∧
    i mod (blockDim * gridDim) = threadIdx + blockDim * blockIdx.
Proof.
  intros Hp. set (P := blockDim * gridDim) in *.
  assert (HblockDim : blockDim ≠ 0) by nia.
  assert (Hg : i mod P < P) by (apply N.mod_lt; lia).
  pose proof (N.div_mod (i mod P) blockDim HblockDim) as Hg_eq.
  pose proof (N.mod_lt (i mod P) blockDim HblockDim) as Ht.
  exists (i mod P / blockDim), ((i mod P) mod blockDim).
  split; [|split; [done|lia]].
  apply N.Div0.div_lt_upper_bound. by subst P.
Qed.

Lemma lane_index_unique blockDim b t b' t' :
  t < blockDim → t' < blockDim →
  t + blockDim * b = t' + blockDim * b' → b = b' ∧ t = t'.
Proof.
  intros Ht Ht' Heq.
  assert (b = b') as -> by nia. split; [done|lia].
Qed.

Lemma grid_items_permutation work_count blockDim gridDim :
  1 ≤ blockDim * gridDim →
  grid_items work_count blockDim gridDim ≡ₚ lanes work_count.
Proof.
  intros Hp.
  assert (Hlane : ∀ b t, b < gridDim → t < blockDim →
            t + blockDim * b < blockDim * gridDim) by (intros; nia).
  apply NoDup_Permutation; [|apply NoDup_lanes|].
  - unfold grid_items. apply NoDup_bind; [| |apply NoDup_lanes].
    + intros b b' i Hb%elem_of_lanes Hb'%elem_of_lanes Hi Hi'.
      apply list_elem_of_bind in Hi as (t & Hi & Ht%elem_of_lanes).
      apply list_elem_of_bind in Hi' as (t' & Hi' & Ht'%elem_of_lanes).
      apply elem_of_lane_items in Hi as [_ Hi]; [|done|by apply Hlane].
      apply elem_of_lane_items in Hi' as [_ Hi']; [|done|by apply Hlane].
      apply (lane_index_unique blockDim b t b' t'); [done..|congruence].
    + intros b Hb%elem_of_lanes. unfold block_items.
      apply NoDup_bind; [| |apply NoDup_lanes].
      * intros t t' i Ht%elem_of_lanes Ht'%elem_of_lanes Hi Hi'.
        apply elem_of_lane_items in Hi as [_ Hi]; [|done|by apply Hlane].
        apply elem_of_lane_items in Hi' as [_ Hi']; [|done|by apply Hlane].
        apply (lane_index_unique blockDim b t b t'); [done..|congruence].
      * intros t _. by apply NoDup_lane_items.
  - intros i. rewrite elem_of_lanes. unfold grid_items, block_items. split.
    + intros (b & Hi & Hb%elem_of_lanes)%list_elem_of_bind.
      apply list_elem_of_bind in Hi as (t & Hi & Ht%elem_of_lanes).
      apply elem_of_lane_items in Hi as [Hi _]; [done..|by apply Hlane].
    + intros Hi. destruct (lane_of_item blockDim gridDim i Hp)
        as (b & t & Hb & Ht & Hmod).
      apply list_elem_of_bind. exists b. split; [|by apply elem_of_lanes].
      apply list_elem_of_bind. exists t. split; [|by apply elem_of_lanes].
      apply elem_of_lane_items; [done|by apply Hlane|done].
Qed.

(** ** The algebra of a reduction *)

Section Algebra.
Context {V : Type} `{F : ReduceFunctor V} `{!ReductionLaws F}.

Lemma join_init_r value : functor_join value functor_init = value.
Proof. rewrite join_comm. apply join_init_l. Qed.

Lemma fold_left_join_list l value :
  fold_left functor_join l value = functor_join value (join_list l).
Proof.
  revert value. induction l as [|x l IH]; intros value; simpl.
  - by rewrite join_init_r.
  - by rewrite IH, join_assoc.
Qed.

Lemma join_all_join_list l : l ≠ [] → join_all l = Some (join_list l).
Proof. destruct l as [|x l]; [done|]. intros _. simpl. by rewrite fold_left_join_list. Qed.

Lemma join_list_app l1 l2 :
  join_list (l1 ++ l2) = functor_join (join_list l1) (join_list l2).
Proof.
  induction l1 as [|x l1 IH]; simpl.
  - by rewrite join_init_l.
  - by rewrite IH, join_assoc.
Qed.

Lemma join_list_permutation l1 l2 : l1 ≡ₚ l2 → join_list l1 = join_list l2.
Proof.
  induction 1 as [|x l1 l2 _ IH|x y l|l1 l2 l3 _ IH1 _ IH2]; simpl.
  - done.
  - by rewrite IH.
  - rewrite !join_assoc. f_equal. apply join_comm.
  - by rewrite IH1.
Qed.

Lemma serial_reduce_permutation l1 l2 :
  l1 ≡ₚ l2 → serial_reduce l1 = serial_reduce l2.
Proof. intros Hp. unfold serial_reduce. by apply join_list_permutation, fmap_Permutation. Qed.

Lemma serial_reduce_app l1 l2 :
  serial_reduce (l1 ++ l2) =
  functor_join (serial_reduce l1) (serial_reduce l2).
Proof. unfold serial_reduce. by rewrite fmap_app, join_list_app. Qed.

Lemma accumulate_join l value :
  accumulate l value = functor_join value (serial_reduce l).
Proof.
  revert value. induction l as [|i l IH]; intros value.
  - unfold serial_reduce. simpl. by rewrite join_init_r.
  - change (accumulate (i :: l) value) with (accumulate l (functor_call i value)).
    rewrite IH, call_join. unfold serial_reduce. simpl. by rewrite join_assoc.
Qed.

Lemma accumulate_init l : accumulate l functor_init = serial_reduce l.
Proof. by rewrite accumulate_join, join_init_l. Qed.

Lemma join_list_bind {A} (f : A → list N) (l : list A) :
  join_list ((λ a, serial_reduce (f a)) <$> l) = serial_reduce (l ≫= f).
Proof.
  induction l as [|a l IH]; [done|].
  by rewrite fmap_cons, bind_cons, serial_reduce_app, <- IH.
Qed.

(** For a power-of-two lane count the tree reduction leaves the join of
    all slots in slot 0. *)
Lemma slot_0_power_of_two blockDim shared :
  power_of_two blockDim → length shared = N.to_nat blockDim →
  slot_0 blockDim shared = join_list shared.
Proof.
  intros [k ->] Hlen. unfold slot_0.
  assert (Hk : 2 ^ k = Npos (pow2_pos (N.to_nat k)))
    by (by rewrite pow2_pos_spec, N2Nat.id).
  assert (Hnat : (2 ^ N.to_nat k)%nat = length shared).
  { rewrite Hlen. rewrite <- (N2Nat.id k) at 2.
    generalize (N.to_nat k). clear. intros n. induction n as [|n IH]; [done|].
    rewrite Nat2N.inj_succ, N.pow_succ_r'. simpl. lia. }
  rewrite Hk. simpl. rewrite reduce_rounds_pow2.
  - rewrite Hnat, firstn_all, join_all_join_list; [done|].
    intros ->. simpl in Hnat. pose proof (Nat.pow_nonzero 2 (N.to_nat k)). lia.
  - rewrite <- pow2_pos_spec. lia.
  - lia.
Qed.

Lemma block_values_join work_count blockDim gridDim blockIdx :
  join_list (block_values work_count blockDim gridDim blockIdx) =
  serial_reduce (block_items work_count blockDim gridDim blockIdx).
Proof.
  unfold block_values, block_items. rewrite <- join_list_bind.
  f_equal. apply list_fmap_ext. intros _ t _. apply accumulate_init.
Qed.

Lemma block_partial_power_of_two work_count blockDim gridDim blockIdx :
  power_of_two blockDim →
  block_partial work_count blockDim gridDim blockIdx =
  serial_reduce (block_items work_count blockDim gridDim blockIdx).
Proof.
  intros Hpow. unfold block_partial.
  rewrite slot_0_power_of_two by (done || apply length_block_values).
  apply block_values_join.
Qed.

(** With power-of-two lane counts in both phases, what reaches the serial
    finalize is the serial reduction of all work items. *)
Lemma two_phase_value work_count blockDim gridDim :
  power_of_two blockDim → power_of_two gridDim →
  slot_0 gridDim (block_partials work_count blockDim gridDim gridDim) =
  serial_reduce (lanes work_count).
Proof.
  intros HL HC.
  rewrite slot_0_power_of_two by (done || apply length_block_partials).
  unfold block_partials.
  rewrite (list_fmap_ext _
    (λ b, serial_reduce (block_items work_count blockDim gridDim b)))
    by (intros; by apply block_partial_power_of_two).
  rewrite join_list_bind. apply serial_reduce_permutation.
  apply grid_items_permutation.
  apply power_of_two_pos in HL, HC. nia.
Qed.

Lemma single_block_value work_count blockDim :
  power_of_two blockDim →
  block_partial work_count blockDim 1 0 = serial_reduce (lanes work_count).
Proof.
  intros HL. rewrite block_partial_power_of_two by done.
  apply serial_reduce_permutation.
  rewrite <- (grid_items_permutation work_count blockDim 1)
    by (apply power_of_two_pos in HL; lia).
  unfold grid_items. rewrite lanes_1. simpl. by rewrite app_nil_r.
Qed.

End Algebra.

(** C1, as the code has it: when the launch has at least one and fewer than
    [2^32] lanes in all, and [work_count] plus the number of lanes does not
    exceed [2^64], every lane ends its work loop and has called the functor
    exactly once on each index [g, g+P, g+2P, ...] below [work_count], in
    this order and on no other index, [g] being its global index and [P]
    the number of lanes; every index below [work_count] is visited by one
    lane and by no other.  [visited] is what the recording functor
    [visit_log] ends with; any other functor ends with the value its calls
    on [visited] build from [init]. *)
Theorem grid_stride_partition (work_count blockDim gridDim : N) :
  1 ≤ blockDim * gridDim →
  blockDim * gridDim < 2 ^ 32 →
  work_count + blockDim * gridDim ≤ 2 ^ 64 →
  ∃ fuel0 : nat, ∀ fuel : nat, (fuel0 ≤ fuel)%nat →
    (∀ blockIdx threadIdx, blockIdx < gridDim → threadIdx < blockDim →
       ∃ visited,
         lane_accumulate (F:=visit_log) fuel work_count blockDim gridDim
           blockIdx threadIdx = Some visited ∧
         NoDup visited ∧
         (∀ i, i ∈ visited ↔
               i < work_count ∧
               ∃ k, i = threadIdx + blockDim * blockIdx + k * (blockDim * gridDim)) ∧
         (∀ V' (F' : ReduceFunctor V'),
            lane_accumulate (F:=F') fuel work_count blockDim gridDim
              blockIdx threadIdx =
            Some (accumulate (F:=F') visited functor_init))) ∧
    (∀ i, i < work_count →
       ∃ blockIdx threadIdx visited,
         blockIdx < gridDim ∧ threadIdx < blockDim ∧
         lane_accumulate (F:=visit_log) fuel work_count blockDim gridDim
           blockIdx threadIdx = Some visited ∧
         i ∈ visited ∧
         ∀ blockIdx' threadIdx' visited',
           blockIdx' < gridDim → threadIdx' < blockDim →
           lane_accumulate (F:=visit_log) fuel work_count blockDim gridDim
             blockIdx' threadIdx' = Some visited' →
           i ∈ visited' →
           blockIdx' = blockIdx ∧ threadIdx' = threadIdx).
Proof.
  intros Hp1 Hp Hw. exists (S (N.to_nat work_count)). intros fuel Hfuel.
  set (P := blockDim * gridDim) in *.
  assert (Hg : ∀ b t, b < gridDim → t < blockDim → t + blockDim * b < P)
    by (intros; subst P; nia).
  assert (Hrun : ∀ V' (F' : ReduceFunctor V') b t, b < gridDim → t < blockDim →
    lane_accumulate (F:=F') fuel work_count blockDim gridDim b t =
    Some (accumulate (F:=F') (lane_items work_count P (t + blockDim * b))
            functor_init)).
  { intros V' F' b t Hb Ht. apply lane_accumulate_items; [done..|lia]. }
  assert (Hvisit : ∀ b t, b < gridDim → t < blockDim →
    lane_accumulate (F:=visit_log) fuel work_count blockDim gridDim b t =
    Some (lane_items work_count P (t + blockDim * b))).
  { intros b t Hb Ht. rewrite Hrun by done. by rewrite accumulate_visit_log. }
  assert (Hmem : ∀ b t i, b < gridDim → t < blockDim →
    i ∈ lane_items work_count P (t + blockDim * b) ↔
    i < work_count ∧ ∃ k, i = t + blockDim * b + k * P).
  { intros b t i Hb Ht. rewrite elem_of_lane_items by auto. split.
    - intros [Hi Hmod]. split; [done|]. exists (i / P). rewrite <- Hmod.
      pose proof (N.div_mod i P). lia.
    - intros [Hi [k ->]]. split; [done|].
      symmetry. apply (N.mod_unique _ _ k); [by apply Hg|lia]. }
  split.
  - intros b t Hb Ht. exists (lane_items work_count P (t + blockDim * b)).
    split; [by apply Hvisit|]. split; [by apply NoDup_lane_items|].
    split; [intros i; by apply Hmem|]. intros V' F'. by apply Hrun.
  - intros i Hi.
    destruct (lane_of_item blockDim gridDim i Hp1) as (b & t & Hb & Ht & Hmod).
    fold P in Hmod.
    exists b, t, (lane_items work_count P (t + blockDim * b)).
    split; [done|]. split; [done|]. split; [by apply Hvisit|]. split.
    + apply elem_of_lane_items; auto.
    + intros b' t' visited' Hb' Ht' Hrun' Hi'.
      rewrite Hvisit in Hrun' by done. injection Hrun' as <-.
      apply elem_of_lane_items in Hi' as [_ Hmod']; auto.
      apply (lane_index_unique blockDim b' t' b t); [done..|congruence].
Qed.

Lemma grid_stride_partition_witness :
  ∃ fuel0 : nat, ∀ fuel : nat, (fuel0 ≤ fuel)%nat →
    ∃ visited,
      lane_accumulate (F:=visit_log) fuel 10 2 2 1 1 = Some visited ∧
      NoDup visited ∧
      (∀ i, i ∈ visited ↔ i < 10 ∧ ∃ k, i = 1 + 2 * 1 + k * (2 * 2)) ∧
      (∀ V' (F' : ReduceFunctor V'),
         lane_accumulate (F:=F') fuel 10 2 2 1 1 =
         Some (accumulate (F:=F') visited functor_init)).
Proof.
  destruct (grid_stride_partition 10 2 2) as (fuel0 & H); [done..|].
  exists fuel0. intros fuel Hfuel.
  destruct (H fuel Hfuel) as [Hlane _]. by apply Hlane.
Defined.

(** With a stride of 0 the work loop of a lane that has work never ends. *)
Lemma work_loop_stride_0 `{F : ReduceFunctor V} fuel work_count iwork value :
  iwork < work_count → iwork < 2 ^ 64 →
  work_loop fuel work_count 0 iwork value = None.
Proof.
  intros Hlt Hi. revert value. induction fuel as [|fuel IH]; intros value; [done|].
  simpl. rewrite N.add_0_r, (size_t_small iwork) by done.
  destruct (N.ltb_spec iwork work_count); [apply IH|lia].
Qed.

(** C1 as stated fails when the number of lanes is not below [2^32]:
    with 4194304 blocks of 1024 lanes the stride [blockDim.x * gridDim.x]
    is 0 in [unsigned int], and lane 0 of block 0 calls the functor on
    index 0 over and over. *)
Lemma grid_stride_wraps :
  1 ≤ 1024 * 4194304 ∧
  ¬ ∃ fuel visited,
      lane_accumulate (F:=visit_log) fuel 1 1024 4194304 0 0 = Some visited.
Proof.
  split; [done|]. intros (fuel & visited & Hrun).
  unfold lane_accumulate in Hrun.
  change (unsigned_int (1024 * 4194304)) with 0 in Hrun.
  change (unsigned_int (0 + unsigned_int (1024 * 0))) with 0 in Hrun.
  by rewrite work_loop_stride_0 in Hrun.
Qed.

(** ** What reaches the serial finalize functor *)

Lemma finalize_arguments_app {V} (t1 t2 : list (event V)) :
  finalize_arguments (t1 ++ t2) = finalize_arguments t1 ++ finalize_arguments t2.
Proof. apply omap_app. Qed.

Lemma finalize_arguments_imap_store {V} ptr (g : nat → N) (values : list V) :
  finalize_arguments (imap (λ b value, store_event ptr (g b) value) values) = [].
Proof.
  revert g. induction values as [|v values IH]; intros g; [done|].
  apply (IH (g ∘ S)).
Qed.

Lemma finalize_arguments_store_events {V} ptr (values : list V) :
  finalize_arguments (store_events ptr values) = [].
Proof. apply finalize_arguments_imap_store. Qed.

Lemma serial_finalize_events_imap_store {V} ptr (g : nat → N) (values : list V) :
  serial_finalize_events
    (imap (λ b value, store_event ptr (g b) value) values) = [].
Proof.
  revert g. induction values as [|v values IH]; intros g; [done|].
  simpl. unfold serial_finalize_events in *. rewrite filter_cons_False by done.
  apply (IH (g ∘ S)).
Qed.

Lemma serial_finalize_events_store_events {V} ptr (values : list V) :
  serial_finalize_events (store_events ptr values) = [].
Proof. apply serial_finalize_events_imap_store. Qed.

Lemma finalize_arguments_single_block {V} `{F : ReduceFunctor V}
    hw thread_count work_count :
  finalize_arguments (single_block_trace hw thread_count work_count) =
  [device_partial hw work_count thread_count 1 0].
Proof. done. Qed.

Lemma finalize_arguments_two_phase {V} `{F : ReduceFunctor V}
    hw ptr block_count max_thread_count work_count :
  finalize_arguments
    (two_phase_trace hw ptr block_count max_thread_count work_count) =
  [two_phase_result hw work_count max_thread_count block_count].
Proof.
  unfold two_phase_trace.
  rewrite !finalize_arguments_app, finalize_arguments_store_events. done.
Qed.

(** ** Where no lane is ahead of another *)

Lemma synchronised_le device_emulation warpSize n n' :
  n' ≤ n → synchronised device_emulation warpSize n →
  synchronised device_emulation warpSize n'.
Proof. intros Hle [?|?]; [by left|right; lia]. Qed.

Section InStep.
Context {V : Type} `{F : ReduceFunctor V}.

Lemma device_partial_in_step (hw : Hardware V) work_count blockDim gridDim
    blockIdx :
  synchronised (device_emulation hw) (warpSize hw) blockDim →
  device_partial hw work_count blockDim gridDim blockIdx =
    block_partial work_count blockDim gridDim blockIdx.
Proof.
  intros Hsync. unfold device_partial, block_partial.
  by rewrite reduced_value_in_step by (done || apply length_block_values).
Qed.

Lemma device_partials_in_step (hw : Hardware V) work_count blockDim gridDim n :
  synchronised (device_emulation hw) (warpSize hw) blockDim →
  device_partials hw work_count blockDim gridDim n =
    block_partials work_count blockDim gridDim n.
Proof.
  intros Hsync. unfold device_partials, block_partials.
  apply list_fmap_ext. intros _ b _. by apply device_partial_in_step.
Qed.

Lemma two_phase_result_in_step (hw : Hardware V) work_count blockDim gridDim :
  synchronised (device_emulation hw) (warpSize hw) blockDim →
  gridDim ≤ blockDim →
  two_phase_result hw work_count blockDim gridDim =
    slot_0 gridDim (block_partials work_count blockDim gridDim gridDim).
Proof.
  intros Hsync Hle. unfold two_phase_result.
  rewrite reduced_value_in_step.
  - by rewrite device_partials_in_step.
  - by apply (synchronised_le _ _ blockDim).
  - apply length_device_partials.
Qed.

End InStep.

(** C3, as the code has it: for at least one work item and a functor whose
    [join] is associative and commutative with the value of [init] as
    identity and whose call joins the contribution of the item into the
    value, on every device on which the planner launches the work kernel
    on a power of two of blocks of a power of two of lanes, fewer than
    [2^32] lanes in all, where no lane is ahead of another (a barrier
    before every round, or blocks of at most [warpSize] lanes) and, on
    the two-phase path, the scratch buffer can be allocated, the
    reduction ends and hands the serial finalize functor one value, the
    serial reduction of the work items, which depends on neither limit
    nor on the schedule of the warps. *)
Theorem cuda_parallel_reduce_deterministic {V U} `{F : ReduceFunctor V}
    `{!ReductionLaws F} (work_count : N) (finalize : V → U → U) (s : state V U)
    (gridDim blockDim : N) :
  let max_thread_count := reduction_thread_max (device s) reduce_size in
  let hw := hardware (device s) in
  1 ≤ work_count →
  planned work_count max_thread_count (block_count_max (device s))
    gridDim blockDim →
  power_of_two gridDim → power_of_two blockDim →
  synchronised (device_emulation hw) (warpSize hw) blockDim →
  blockDim * gridDim < 2 ^ 32 →
  work_count + blockDim * gridDim ≤ 2 ^ 64 →
  (max_thread_count ≤ work_count →
   reduce_size * gridDim ≤ free_memory (device s)) →
  ∃ fuel0 : nat, ∀ fuel : nat, (fuel0 ≤ fuel)%nat →
    ∃ s',
      cuda_parallel_reduce fuel work_count finalize s = Done () s' ∧
      finalize_arguments (trace s') =
        finalize_arguments (trace s) ++ [serial_reduce (lanes work_count)] ∧
      user s' = finalize (serial_reduce (lanes work_count)) (user s).
Proof.
  intros max_thread_count hw Hw Hplan Hgrid Hblock Hsync H32 H64 Hfree.
  exists (S (N.to_nat work_count + N.to_nat max_thread_count)).
  intros fuel Hfuel.
  destruct Hplan as [thread_count Hlt Hhalved|block_count Hge Hhalved].
  - rewrite (cuda_parallel_reduce_single_block fuel work_count finalize s
               thread_count) by (done || lia).
    eexists. split; [done|]. simpl.
    rewrite finalize_arguments_app, finalize_arguments_single_block.
    rewrite device_partial_in_step by done.
    by rewrite single_block_value.
  - pose proof (power_of_two_pos _ Hblock) as HL1.
    pose proof (power_of_two_pos _ Hgrid) as Hb1.
    pose proof (halved_while_le _ _ _ Hhalved) as Hle.
    destruct (cuda_parallel_reduce_two_phase fuel work_count finalize s
                block_count) as [_ ->];
      [done|lia|done|done|done|done|by apply Hfree|lia|].
    eexists. split; [done|]. simpl.
    rewrite finalize_arguments_app, finalize_arguments_two_phase.
    rewrite two_phase_result_in_step by (done || lia).
    by rewrite two_phase_value.
Qed.

Lemma cuda_parallel_reduce_deterministic_witness :
  ∃ fuel0 : nat, ∀ fuel : nat, (fuel0 ≤ fuel)%nat →
    ∃ s',
      cuda_parallel_reduce (F:=count_items) fuel 20 (λ _ u, u)
        (example_state 4 8 1000) = Done () s' ∧
      finalize_arguments (trace s') =
        [] ++ [serial_reduce (F:=count_items) (lanes 20)] ∧
      user s' = ().
Proof.
  apply (cuda_parallel_reduce_deterministic (F:=count_items) 20 (λ _ u, u)
           (example_state 4 8 1000) 4 4).
  - done.
  - apply planned_two_phase; [done|]. by apply halved_stop.
  - by exists 2.
  - by exists 2.
  - by right.
  - done.
  - done.
  - done.
Defined.

(** C3 as stated fails when the planner launches a number of lanes that
    is not a power of two: four work items counted on a device with at
    most 6 threads in a block give 3, on a device with at most 8 they
    give 4.  It also fails for a power of two above [warpSize] when
    [__DEVICE_EMULATION__] is not defined: in a block of 64 lanes the
    round [j = 32] has no barrier before it, the first warp can join the
    slots 32 to 63 before the second warp has written them, and forty
    work items counted on a device with at most 64 threads in a block
    give 32. *)
Lemma cuda_parallel_reduce_depends_on_limits :
  (∃ s',
     cuda_parallel_reduce (F:=count_items) 100 4 (λ _ u, u)
       (example_state 6 4 1000) = Done () s' ∧
     finalize_arguments (trace s') = [3]) ∧
  (∃ s',
     cuda_parallel_reduce (F:=count_items) 100 4 (λ _ u, u)
       (example_state 8 4 1000) = Done () s' ∧
     finalize_arguments (trace s') = [4]) ∧
  (∃ s',
     cuda_parallel_reduce (F:=count_items) 100 40 (λ _ u, u)
       (example_state 64 4 1000) = Done () s' ∧
     finalize_arguments (trace s') = [32]).
Proof.
  split; [|split]; (eexists; split; [vm_compute; reflexivity|reflexivity]).
Qed.

(** With no work the driver never gets past its first loop, whatever the
    device: on a device whose thread limit is 0 it is the second loop that
    never ends. *)
Lemma cuda_parallel_reduce_no_work {V U} `{F : ReduceFunctor V}
    (fuel : nat) (finalize : V → U → U) (s : state V U) :
  cuda_parallel_reduce fuel 0 finalize s = OutOfFuel.
Proof.
  unfold cuda_parallel_reduce.
  destruct (N.ltb_spec 0 (reduction_thread_max (device s) reduce_size)) as [|Hmax].
  - unfold mbind, exec_bind, exec_lift. by rewrite shrink_thread_count_0.
  - assert (reduction_thread_max (device s) reduce_size = 0) as -> by lia.
    replace (if 0 <? block_count_max (device s) then 0
             else block_count_max (device s)) with 0
      by (destruct (N.ltb_spec 0 (block_count_max (device s))); lia).
    unfold mbind at 1, exec_bind at 1, exec_lift.
    replace (shrink_block_count fuel 0 0 0) with (@None N); [done|].
    clear. induction fuel as [|fuel IH]; [done|]. simpl. apply IH.
Qed.

(** C4 fails on the code: with [work_count = 0] neither entry point ever
    returns, whatever the functor, the device and the fuel; no kernel is
    launched and nothing reaches the finalize functor. *)
Theorem ParallelReduce_run_no_work {V U} `{F : ReduceFunctor V}
    (fuel : nat) (finalize : V → U → U) (s : state V U)
    (sv : state V (@ValueView V)) :
  ParallelReduce_run fuel 0 finalize s = OutOfFuel ∧
  ParallelReduce_run_value fuel 0 sv = OutOfFuel.
Proof.
  split; [apply cuda_parallel_reduce_no_work|].
  unfold ParallelReduce_run_value. unfold mbind at 1, exec_bind at 1.
  unfold mbind at 1, exec_bind at 1.
  by rewrite cuda_parallel_reduce_no_work.
Qed.

(** For at least one work item the second loop ends too, with or without
    wrap-around in its test, and leaves a count of at least 1. *)
Lemma shrink_block_count_ends fuel work_count max_thread_count block_count :
  1 ≤ work_count →
  (N.to_nat block_count < fuel)%nat →
  ∃ block_count',
    shrink_block_count fuel work_count max_thread_count block_count =
      Some block_count' ∧
    block_count' ≤ block_count ∧
    (1 ≤ block_count → 1 ≤ block_count').
Proof.
  intros Hw. revert block_count.
  induction fuel as [|fuel IH]; intros block_count Hf; [lia|].
  simpl. rewrite shiftr_1_div2.
  pose proof (half_bounds block_count) as Hhalf.
  destruct (N.leb_spec work_count (size_t (max_thread_count * (block_count / 2))))
    as [Hle|Hgt]; [|by exists block_count].
  assert (Hq : block_count / 2 ≠ 0).
  { intros Hq. rewrite Hq, N.mul_0_r in Hle. unfold size_t in Hle.
    rewrite N.Div0.mod_0_l in Hle. lia. }
  destruct (IH (block_count / 2)) as (c & -> & Hc & H1); [lia|].
  exists c. split; [done|]. split; [lia|]. intros _. apply H1. lia.
Qed.

(** C5 fails on the code for [workCount = 0]: the loop that shrinks the
    thread count then never ends, whatever the limit (from 1 the test
    [0 <= 1 >> 1] holds, the count becomes 0 and stays 0).  For at least
    one work item both loops end, with counts of at least 1 and at most
    the limits. *)
Theorem shrink_loops (work_count max_thread_count block_count_max : N) :
  1 ≤ max_thread_count → 1 ≤ block_count_max →
  (work_count = 0 →
   ∀ fuel, shrink_thread_count fuel work_count max_thread_count = None) ∧
  (1 ≤ work_count →
   ∃ fuel0 : nat, ∀ fuel : nat, (fuel0 ≤ fuel)%nat →
     ∃ thread_count block_count,
       shrink_thread_count fuel work_count max_thread_count = Some thread_count ∧
       1 ≤ thread_count ∧ thread_count ≤ max_thread_count ∧
       shrink_block_count fuel work_count max_thread_count
         (if max_thread_count <? block_count_max
          then max_thread_count else block_count_max) = Some block_count ∧
       1 ≤ block_count ∧ block_count ≤ block_count_max ∧
       block_count ≤ max_thread_count).
Proof.
  intros HL HC. split.
  - intros -> fuel. apply shrink_thread_count_0.
  - intros Hw. exists (S (N.to_nat max_thread_count)). intros fuel Hfuel.
    destruct (shrink_thread_count_run fuel work_count max_thread_count)
      as (thread_count & Ht & _ & Hle & H1 & _); [done|lia|].
    set (limit := if max_thread_count <? block_count_max
                  then max_thread_count else block_count_max).
    assert (Hlimit : 1 ≤ limit ∧ limit ≤ max_thread_count ∧ limit ≤ block_count_max)
      by (subst limit; destruct (N.ltb_spec max_thread_count block_count_max); lia).
    destruct (shrink_block_count_ends fuel work_count max_thread_count limit)
      as (block_count & Hb & Hble & Hb1); [done|lia|].
    exists thread_count, block_count.
    split; [done|]. split; [by apply H1|]. split; [done|]. split; [done|].
    split; [apply Hb1; lia|lia].
Qed.

Lemma shrink_loops_witness :
  (∀ fuel, shrink_thread_count fuel 0 4 = None) ∧
  ∃ fuel0 : nat, ∀ fuel : nat, (fuel0 ≤ fuel)%nat →
    ∃ thread_count block_count,
      shrink_thread_count fuel 3 4 = Some thread_count ∧
      1 ≤ thread_count ∧ thread_count ≤ 4 ∧
      shrink_block_count fuel 3 4 (if 4 <? 8 then 4 else 8) = Some block_count ∧
      1 ≤ block_count ∧ block_count ≤ 8 ∧ block_count ≤ 4.
Proof.
  split.
  - by apply (shrink_loops 0 4 8).
  - by apply (shrink_loops 3 4 8).
Defined.

(** C6, as the code has it: when [work_count] is at least the thread limit
    the driver sets the block count to the smaller of the two limits and
    halves it while [work_count <= max_thread_count * (block_count / 2)].
    With the [block_count] this gives, fewer than [2^32] lanes to launch
    and the [block_count] slots allocated, it then does this and nothing
    else, whatever the schedule of the warps: one allocation of
    [block_count] slots; the work kernel on [block_count] blocks of
    [max_thread_count] threads, block [b] storing what the tree reduction
    left in its slot 0 to slot [b] of the buffer; the second kernel on one
    block of [block_count] threads with the serial finalize; one
    deallocation.  The device is left as it was.  What block [b] stores
    is the join of all the contributions of its work items when
    [max_thread_count] is a power of two and no lane is ahead of another
    (a barrier before every round, or at most [warpSize] lanes). *)
Theorem cuda_parallel_reduce_two_phase_sequence {V U} `{F : ReduceFunctor V}
    (work_count : N) (finalize : V → U → U) (s : state V U) (block_count : N) :
  let max_thread_count := reduction_thread_max (device s) reduce_size in
  let limit := N.min (block_count_max (device s)) max_thread_count in
  let ptr := fresh (dom (global_memory (device s))) in
  let hw := hardware (device s) in
  1 ≤ max_thread_count → 1 ≤ block_count_max (device s) →
  max_thread_count ≤ work_count →
  halved_while (keep_halving_clusters work_count max_thread_count)
    limit block_count →
  max_thread_count * block_count < 2 ^ 32 →
  work_count + max_thread_count * block_count ≤ 2 ^ 64 →
  reduce_size * block_count ≤ free_memory (device s) →
  ∃ fuel0 : nat, ∀ fuel : nat, (fuel0 ≤ fuel)%nat →
    ∃ s',
      cuda_parallel_reduce fuel work_count finalize s = Done () s' ∧
      trace s' = trace s ++
        [allocate_event reduce_size block_count ptr;
         launch_functor_event block_count max_thread_count
           (size_t (reduce_size * max_thread_count)) work_count (Some ptr)] ++
        imap (λ b partial, store_event ptr (N.of_nat b) partial)
          (device_partial hw work_count max_thread_count block_count
             <$> lanes block_count) ++
        [launch_operator_event 1 block_count
           (size_t (reduce_size * block_count)) ptr;
         serial_finalize_event 1 0 0
           (two_phase_result hw work_count max_thread_count block_count);
         deallocate_event ptr] ∧
      device s' = device s ∧
      (power_of_two max_thread_count → ReductionLaws F →
       synchronised (device_emulation hw) (warpSize hw) max_thread_count →
       ∀ b, b < block_count →
         device_partial hw work_count max_thread_count block_count b =
         serial_reduce (block_items work_count max_thread_count block_count b)).
Proof.
  intros max_thread_count limit ptr hw HL1 HC1 Hge Hhalved H32 H64 Hfree.
  exists (S (N.to_nat work_count)). intros fuel Hfuel.
  destruct (cuda_parallel_reduce_two_phase fuel work_count finalize s
              block_count) as [_ Hrun]; [done..|lia|].
  eexists. split; [exact Hrun|].
  split; [done|]. split; [done|].
  intros Hpow Hlaws Hsync b _. rewrite device_partial_in_step by done.
  by apply block_partial_power_of_two.
Qed.

Lemma cuda_parallel_reduce_two_phase_sequence_witness :
  ∃ fuel0 : nat, ∀ fuel : nat, (fuel0 ≤ fuel)%nat →
    ∃ s',
      cuda_parallel_reduce (F:=count_items) fuel 20 (λ _ u, u)
        (example_state 4 8 1000) = Done () s' ∧
      trace s' = [] ++
        [allocate_event 8 4 0;
         launch_functor_event 4 4 (size_t (8 * 4)) 20 (Some 0)] ++
        imap (λ b partial, store_event 0 (N.of_nat b) partial)
          (device_partial (F:=count_items) example_hardware 20 4 4 <$> lanes 4) ++
        [launch_operator_event 1 4 (size_t (8 * 4)) 0;
         serial_finalize_event 1 0 0
           (two_phase_result (F:=count_items) example_hardware 20 4 4);
         deallocate_event 0] ∧
      device s' = example_device 4 8 1000 ∧
      (power_of_two 4 → ReductionLaws count_items →
       synchronised false 32 4 →
       ∀ b, b < 4 →
         device_partial (F:=count_items) example_hardware 20 4 4 b =
         serial_reduce (F:=count_items) (block_items 20 4 4 b)).
Proof.
  apply (cuda_parallel_reduce_two_phase_sequence (F:=count_items) 20 (λ _ u, u)
           (example_state 4 8 1000) 4); try done.
  by apply halved_stop.
Defined.

(** C6 as stated fails when the thread limit is not a power of two: with
    six work items on one block of six threads, each thread counting one
    item, the block stores 4, not the 6 that all its contributions join
    to.  It also fails for a power of two above [warpSize] when
    [__DEVICE_EMULATION__] is not defined: with 64 work items on one
    block of 64 threads whose first warp runs ahead of the second, the
    block stores 32. *)
Lemma cuda_parallel_reduce_store_drops_lanes :
  (cuda_parallel_reduce (F:=count_items) 100 6 (λ _ u, u)
     (example_state 6 1 1000) =
     Done () {| device := example_device 6 1 1000;
                trace := [allocate_event 8 1 0;
                          launch_functor_event 1 6 48 6 (Some 0);
                          store_event 0 0 4;
                          launch_operator_event 1 1 8 0;
                          serial_finalize_event 1 0 0 4;
                          deallocate_event 0];
                user := () |} ∧
   serial_reduce (F:=count_items) (block_items 6 6 1 0) = 6) ∧
  (cuda_parallel_reduce (F:=count_items) 100 64 (λ _ u, u)
     (example_state 64 1 1000) =
     Done () {| device := example_device 64 1 1000;
                trace := [allocate_event 8 1 0;
                          launch_functor_event 1 64 512 64 (Some 0);
                          store_event 0 0 32;
                          launch_operator_event 1 1 8 0;
                          serial_finalize_event 1 0 0 32;
                          deallocate_event 0];
                user := () |} ∧
   serial_reduce (F:=count_items) (block_items 64 64 1 0) = 64).
Proof. split; (split; [vm_compute; reflexivity|reflexivity]). Qed.

(** C7, as the code has it: in a reduction of at least one work item (with
    fewer than [2^32] lanes to launch and, on the two-phase path, the
    scratch buffer allocated) the serial finalize functor is called
    exactly once, by thread 0 of a kernel launched with a single block, on
    what the tree reduction of that launch left in slot 0; nothing calls
    it before that launch, the first phase of a two-phase reduction
    included, and nothing after.  The value is the serial reduction of
    all work items when the functor obeys the laws of a reduction, the
    launch has a power of two of blocks of a power of two of lanes, and no
    lane is ahead of another (a barrier before every round, or at most
    [warpSize] lanes in a block). *)
Theorem serial_finalize_called_once {V U} `{F : ReduceFunctor V}
    (work_count : N) (finalize : V → U → U) (s : state V U)
    (gridDim blockDim : N) :
  let max_thread_count := reduction_thread_max (device s) reduce_size in
  let hw := hardware (device s) in
  1 ≤ work_count →
  1 ≤ max_thread_count → 1 ≤ block_count_max (device s) →
  planned work_count max_thread_count (block_count_max (device s))
    gridDim blockDim →
  blockDim * gridDim < 2 ^ 32 →
  work_count + blockDim * gridDim ≤ 2 ^ 64 →
  (max_thread_count ≤ work_count →
   reduce_size * gridDim ≤ free_memory (device s)) →
  ∃ fuel0 : nat, ∀ fuel : nat, (fuel0 ≤ fuel)%nat →
    ∃ s' before launch value after,
      cuda_parallel_reduce fuel work_count finalize s = Done () s' ∧
      trace s' = trace s ++ before ++
                 [launch; serial_finalize_event 1 0 0 value] ++ after ∧
      is_single_block_launch launch ∧
      serial_finalize_events before = [] ∧
      serial_finalize_events after = [] ∧
      user s' = finalize value (user s) ∧
      value = (if work_count <? max_thread_count
               then device_partial hw work_count blockDim 1 0
               else two_phase_result hw work_count blockDim gridDim) ∧
      (ReductionLaws F → power_of_two gridDim → power_of_two blockDim →
       synchronised (device_emulation hw) (warpSize hw) blockDim →
       value = serial_reduce (lanes work_count)).
Proof.
  intros max_thread_count hw Hw HL1 HC1 Hplan H32 H64 Hfree.
  exists (S (N.to_nat work_count + N.to_nat max_thread_count)).
  intros fuel Hfuel.
  destruct Hplan as [thread_count Hlt Hhalved|block_count Hge Hhalved].
  - pose proof (cuda_parallel_reduce_single_block fuel work_count finalize s
                  thread_count Hw Hlt Hhalved ltac:(lia) ltac:(lia)) as Hrun.
    eexists _, [], _, _, []. split; [exact Hrun|]. simpl.
    split; [done|]. split; [done|]. split; [done|]. split; [done|].
    split; [done|].
    destruct (N.ltb_spec work_count max_thread_count); [|lia].
    split; [done|]. intros Hlaws _ Hpow Hsync.
    rewrite device_partial_in_step by done. by apply single_block_value.
  - pose proof (halved_while_le _ _ _ Hhalved) as Hle.
    destruct (cuda_parallel_reduce_two_phase fuel work_count finalize s
                block_count) as [Hb1 Hrun];
      [done|done|done|done|done|done|by apply Hfree|lia|].
    exists {| device := device s;
              trace := trace s ++
                two_phase_trace hw (fresh (dom (global_memory (device s))))
                  block_count max_thread_count work_count;
              user := finalize
                (two_phase_result hw work_count max_thread_count block_count)
                (user s) |}.
    exists ([allocate_event reduce_size block_count
               (fresh (dom (global_memory (device s))));
             launch_functor_event block_count max_thread_count
               (size_t (reduce_size * max_thread_count)) work_count
               (Some (fresh (dom (global_memory (device s)))))] ++
            store_events (fresh (dom (global_memory (device s))))
              (device_partials hw work_count max_thread_count block_count
                 block_count)).
    exists (launch_operator_event 1 block_count
              (size_t (reduce_size * block_count))
              (fresh (dom (global_memory (device s))))).
    exists (two_phase_result hw work_count max_thread_count block_count).
    exists [deallocate_event (fresh (dom (global_memory (device s))))].
    split; [exact Hrun|]. simpl. split.
    { unfold two_phase_trace. simpl. do 3 f_equal. }
    split; [done|]. split.
    { unfold serial_finalize_events.
      rewrite !filter_cons_False by done.
      apply serial_finalize_events_store_events. }
    split; [done|]. split; [done|].
    destruct (N.ltb_spec work_count max_thread_count); [lia|].
    split; [done|]. intros Hlaws Hgrid Hblock Hsync.
    rewrite two_phase_result_in_step by (done || lia).
    by apply two_phase_value.
Qed.

Lemma serial_finalize_called_once_witness :
  ∃ fuel0 : nat, ∀ fuel : nat, (fuel0 ≤ fuel)%nat →
    ∃ s' before launch value after,
      cuda_parallel_reduce (F:=count_items) fuel 20 (λ _ u, u)
        (example_state 4 8 1000) = Done () s' ∧
      trace s' = [] ++ before ++
                 [launch; serial_finalize_event 1 0 0 value] ++ after ∧
      is_single_block_launch launch ∧
      serial_finalize_events before = [] ∧
      serial_finalize_events after = [] ∧
      user s' = () ∧
      value = (if 20 <? 4
               then device_partial (F:=count_items) example_hardware 20 4 1 0
               else two_phase_result (F:=count_items) example_hardware 20 4 4) ∧
      (ReductionLaws count_items → power_of_two 4 → power_of_two 4 →
       synchronised false 32 4 →
       value = serial_reduce (F:=count_items) (lanes 20)).
Proof.
  apply (serial_finalize_called_once (F:=count_items) 20 (λ _ u, u)
           (example_state 4 8 1000) 4 4); try done.
  apply planned_two_phase; [done|]. by apply halved_stop.
Defined.

(** C7 as stated fails when a limit is not a power of two: the one value
    the serial finalize functor is called with is then not the join of
    the contributions of all work items -- four items counted with at most
    6 threads in a block give 3.  It also fails for a power of two above
    [warpSize] when [__DEVICE_EMULATION__] is not defined: forty items
    counted on a block of 64 threads whose first warp runs ahead of the
    second give 32. *)
Lemma serial_finalize_partial_value :
  ((∃ s',
      cuda_parallel_reduce (F:=count_items) 100 4 (λ _ u, u)
        (example_state 6 4 1000) = Done () s' ∧
      trace s' = [launch_functor_event 1 6 48 4 None;
                  serial_finalize_event 1 0 0 3]) ∧
   serial_reduce (F:=count_items) (lanes 4) = 4) ∧
  ((∃ s',
      cuda_parallel_reduce (F:=count_items) 100 40 (λ _ u, u)
        (example_state 64 4 1000) = Done () s' ∧
      trace s' = [launch_functor_event 1 64 512 40 None;
                  serial_finalize_event 1 0 0 32]) ∧
   serial_reduce (F:=count_items) (lanes 40) = 40).
Proof.
  split; (split; [|reflexivity]);
    (eexists; split; [vm_compute; reflexivity|reflexivity]).
Qed.

(** C9: on the two-phase path, when the allocation of the scratch buffer
    fails, the failure reaches the caller and the state is what it was
    before the call: no kernel was launched and nothing is allocated. *)
Theorem allocation_failure_propagates {V U} `{F : ReduceFunctor V}
    (work_count : N) (finalize : V → U → U) (s : state V U) :
  let max_thread_count := reduction_thread_max (device s) reduce_size in
  let limit := N.min (block_count_max (device s)) max_thread_count in
  1 ≤ max_thread_count → 1 ≤ block_count_max (device s) →
  max_thread_count ≤ work_count →
  max_thread_count * limit < 2 ^ 64 →
  (∀ block_count,
     halved_while (keep_halving_clusters work_count max_thread_count)
       limit block_count →
     free_memory (device s) < reduce_size * block_count) →
  ∃ fuel0 : nat, ∀ fuel : nat, (fuel0 ≤ fuel)%nat →
    cuda_parallel_reduce fuel work_count finalize s = Raised allocation_failure s.
Proof.
  intros max_thread_count limit HL1 HC1 Hge H64 Hfail.
  assert (Hlimit : 1 ≤ limit ∧ limit ≤ max_thread_count) by (subst limit; lia).
  exists (S (N.to_nat max_thread_count)). intros fuel Hfuel.
  destruct (shrink_block_count_run fuel work_count max_thread_count limit)
    as (block_count & Hshrink & Hhalved & _); [lia|done|lia|].
  unfold cuda_parallel_reduce. fold max_thread_count.
  destruct (N.ltb_spec work_count max_thread_count); [lia|].
  replace (if max_thread_count <? block_count_max (device s)
           then max_thread_count else block_count_max (device s)) with limit
    by (subst limit; destruct (N.ltb_spec max_thread_count
                                 (block_count_max (device s))); lia).
  unfold mbind at 1, exec_bind at 1, exec_lift at 1. rewrite Hshrink.
  unfold mbind at 1, exec_bind at 1, allocate_memory at 1.
  specialize (Hfail block_count Hhalved).
  destruct (N.leb_spec (reduce_size * block_count) (free_memory (device s)));
    [lia|done].
Qed.

Lemma allocation_failure_propagates_witness :
  ∃ fuel0 : nat, ∀ fuel : nat, (fuel0 ≤ fuel)%nat →
    cuda_parallel_reduce (F:=count_items) fuel 20 (λ _ u, u) (example_state 4 8 3) =
      Raised allocation_failure (example_state 4 8 3).
Proof.
  apply (allocation_failure_propagates (F:=count_items) 20 (λ _ u, u)
           (example_state 4 8 3)); try done.
  intros block_count Hhalved. inversion Hhalved; subst; [reflexivity|discriminate].
Defined.

(** ** The reduction does not depend on the finalize functor *)

Section Erasure.
Context {V U : Type} `{F : ReduceFunctor V}.

Lemma simulates_ret {A} (a : A) :
  simulates (V:=V) (U:=U) (mret a) (mret a).
Proof. by intros s. Qed.

Lemma simulates_bind {A B} (m : exec (state V U) A) m'
    (k : A → exec (state V U) B) k' :
  simulates m m' → (∀ a, simulates (k a) (k' a)) →
  simulates (m ≫= k) (m' ≫= k').
Proof.
  intros Hm Hk s. unfold mbind, exec_bind. rewrite <- Hm.
  destruct (m s); simpl; [apply Hk|done..].
Qed.

Lemma simulates_for_each {A} (body : A → exec (state V U) ()) body' l :
  (∀ a, simulates (body a) (body' a)) →
  simulates (for_each body l) (for_each body' l).
Proof.
  intros Hbody. induction l as [|a l IH]; simpl.
  - apply simulates_ret.
  - apply simulates_bind; [apply Hbody|done].
Qed.

Lemma simulates_lift {A} (o : option A) :
  simulates (V:=V) (U:=U) (exec_lift o) (exec_lift o).
Proof. intros s. by destruct o. Qed.

Lemma simulates_finalize_call (finalize : @FinalizeType V U)
    gridDim blockIdx threadIdx shared :
  simulates (finalize_call (U:=U) finalize gridDim blockIdx threadIdx shared)
            (finalize_call (erase_finalize finalize)
               gridDim blockIdx threadIdx shared).
Proof.
  intros s. destruct finalize as [sink|ptr]; simpl.
  - unfold serial_finalize_call.
    destruct ((1 =? gridDim) && (0 =? threadIdx)); [|done].
    by destruct (shared !! N.to_nat threadIdx).
  - unfold store_block_call. destruct (threadIdx =? 0); [|done].
    simpl. destruct (shared !! 0%nat); [|done].
    destruct (global_memory (device s) !! ptr) as [[bytes slots]|]; [|done].
    by destruct (blockIdx <? N.of_nat (length slots)).
Qed.

Lemma simulates_reduce_and_finalize k (finalize : @FinalizeType V U)
    gridDim blockDim blockIdx values :
  simulates
    (reduce_and_finalize (U:=U) k finalize gridDim blockDim blockIdx values)
    (reduce_and_finalize k (erase_finalize finalize)
       gridDim blockDim blockIdx values).
Proof.
  intros s. unfold reduce_and_finalize. simpl.
  apply simulates_for_each. intros t. apply simulates_finalize_call.
Qed.

Lemma simulates_launch_functor fuel grid block shmem work_count
    (finalize : @FinalizeType V U) :
  simulates (launch_functor (U:=U) fuel grid block shmem work_count finalize)
            (launch_functor fuel grid block shmem work_count
               (erase_finalize finalize)).
Proof.
  unfold launch_functor. apply simulates_bind.
  - intros s. by destruct finalize.
  - intros _. apply simulates_for_each. intros b.
    apply simulates_bind; [apply simulates_lift|].
    intros shared. apply simulates_reduce_and_finalize.
Qed.

Lemma simulates_launch_operator grid block shmem block_result
    (finalize : @FinalizeType V U) :
  simulates (launch_operator (U:=U) grid block shmem block_result finalize)
            (launch_operator grid block shmem block_result
               (erase_finalize finalize)).
Proof.
  unfold launch_operator. apply simulates_bind; [done|].
  intros _. apply simulates_for_each. intros b.
  apply simulates_bind.
  - intros s. unfold load_block_result. simpl.
    destruct (global_memory (device s) !! block_result) as [[bytes slots]|];
      [|done].
    by destruct (mapM _ _).
  - intros shared. apply simulates_reduce_and_finalize.
Qed.

Lemma simulates_allocate_memory size count :
  simulates (allocate_memory (V:=V) (U:=U) size count)
            (allocate_memory size count).
Proof.
  intros s. unfold allocate_memory. simpl.
  by destruct (size * count <=? free_memory (device s)).
Qed.

Lemma simulates_deallocate_memory ptr :
  simulates (deallocate_memory (V:=V) (U:=U) ptr) (deallocate_memory ptr).
Proof.
  intros s. unfold deallocate_memory. simpl.
  by destruct (global_memory (device s) !! ptr) as [[bytes slots]|].
Qed.

(** The device and the trace of a reduction are the same whatever the
    finalize functor does to its own state. *)
Lemma simulates_cuda_parallel_reduce fuel work_count (finalize : V → U → U) :
  simulates (cuda_parallel_reduce fuel work_count finalize)
            (cuda_parallel_reduce fuel work_count (λ _ _, ())).
Proof.
  intros s. unfold cuda_parallel_reduce. simpl.
  destruct (work_count <? reduction_thread_max (device s) reduce_size).
  - apply simulates_bind; [apply simulates_lift|].
    intros thread_count.
    apply (simulates_launch_functor _ _ _ _ _
             (CudaParallelReduceFinalizeFunctor finalize)).
  - apply simulates_bind; [apply simulates_lift|].
    intros block_count.
    apply simulates_bind; [apply simulates_allocate_memory|].
    intros block_value.
    apply simulates_bind;
      [apply (simulates_launch_functor _ _ _ _ _
                (CudaParallelReduceFinalizeBlock block_value))|].
    intros _.
    apply simulates_bind;
      [apply (simulates_launch_operator _ _ _ _
                (CudaParallelReduceFinalizeFunctor finalize))|].
    intros _. apply simulates_deallocate_memory.
Qed.

End Erasure.

(** ** The serial finalize functor is called at most once *)

Section Calls.
Context {V U : Type} `{F : ReduceFunctor V}.
Implicit Types s : state V U.

Lemma no_call_refl s : no_call s s.
Proof. by split. Qed.

Lemma no_call_trans s1 s2 s3 : no_call s1 s2 → no_call s2 s3 → no_call s1 s3.
Proof. intros [Ht1 Hu1] [Ht2 Hu2]. split; congruence. Qed.

Lemma at_most_one_then_none (sink : V → U → U) s1 s2 s3 :
  at_most_one_call sink s1 s2 → no_call s2 s3 → at_most_one_call sink s1 s3.
Proof.
  intros [H12|(v & Ht & Hu)] H23.
  - left. by apply (no_call_trans _ s2).
  - right. exists v. destruct H23 as [Ht' Hu']. split; congruence.
Qed.

Lemma none_then_at_most_one (sink : V → U → U) s1 s2 s3 :
  no_call s1 s2 → at_most_one_call sink s2 s3 → at_most_one_call sink s1 s3.
Proof.
  intros [Ht Hu] [H23|(v & Ht' & Hu')].
  - left. by apply (no_call_trans _ s2).
  - right. exists v. split; congruence.
Qed.

Lemma ensures_bind {A B} (R1 R2 R : state V U → state V U → Prop)
    (m : exec (state V U) A) (k : A → exec (state V U) B) :
  ensures R1 m → (∀ a, ensures R2 (k a)) →
  (∀ s1 s2 s3, R1 s1 s2 → R2 s2 s3 → R s1 s3) →
  ensures R (m ≫= k).
Proof.
  intros Hm Hk Htrans s b s' Hrun. unfold mbind, exec_bind in Hrun.
  destruct (m s) as [a s1| |] eqn:Hms; [|done..].
  eapply Htrans; [by eapply Hm|by eapply Hk].
Qed.

Lemma ensures_for_each {A} (R : state V U → state V U → Prop)
    (body : A → exec (state V U) ()) l :
  (∀ s, R s s) → (∀ s1 s2 s3, R s1 s2 → R s2 s3 → R s1 s3) →
  (∀ a, a ∈ l → ensures R (body a)) →
  ensures R (for_each body l).
Proof.
  intros Hrefl Htrans. induction l as [|a l IH]; intros Hbody.
  - intros s [] s' [= <-]. apply Hrefl.
  - simpl. apply (ensures_bind R R); [apply Hbody; left| |done].
    intros _. apply IH. intros b Hb. apply Hbody. by right.
Qed.

Lemma ensures_lift {A} (o : option A) :
  ensures (no_call (V:=V) (U:=U)) (exec_lift o).
Proof. intros s a s' Hrun. destruct o; [|done]. injection Hrun as _ <-. apply no_call_refl. Qed.

Lemma ensures_record (e : event V) :
  is_serial_finalize e = false →
  ensures (no_call (U:=U)) (λ s, Done () (record e s)).
Proof.
  intros He s [] s' [= <-]. split; [|done]. simpl.
  rewrite finalize_arguments_app. destruct e; try done; by rewrite app_nil_r.
Qed.

Lemma ensures_serial_finalize_call (sink : V → U → U)
    gridDim blockIdx threadIdx shared :
  ensures (at_most_one_call sink)
    (serial_finalize_call (U:=U) sink gridDim blockIdx threadIdx shared).
Proof.
  intros s [] s' Hrun. unfold serial_finalize_call in Hrun.
  destruct ((1 =? gridDim) && (0 =? threadIdx)).
  - destruct (shared !! N.to_nat threadIdx) as [v|]; [|done].
    injection Hrun as <-. right. exists v. simpl.
    by rewrite finalize_arguments_app.
  - injection Hrun as <-. left. apply no_call_refl.
Qed.

Lemma ensures_serial_finalize_call_other (sink : V → U → U)
    gridDim blockIdx threadIdx shared :
  threadIdx ≠ 0 →
  ensures no_call
    (serial_finalize_call (U:=U) sink gridDim blockIdx threadIdx shared).
Proof.
  intros Ht s [] s' Hrun. unfold serial_finalize_call in Hrun.
  destruct (N.eqb_spec 0 threadIdx) as [<-|]; [done|].
  rewrite andb_false_r in Hrun. injection Hrun as <-. apply no_call_refl.
Qed.

Lemma ensures_store_block_call block_value blockIdx threadIdx
    (shared : list V) :
  ensures no_call
    (store_block_call (U:=U) block_value blockIdx threadIdx shared).
Proof.
  intros s [] s' Hrun. unfold store_block_call in Hrun.
  destruct (threadIdx =? 0); [|injection Hrun as <-; apply no_call_refl].
  destruct (shared !! 0%nat) as [v|]; [|done].
  destruct (global_memory (device s) !! block_value) as [[bytes slots]|]; [|done].
  destruct (blockIdx <? N.of_nat (length slots)); [|done].
  injection Hrun as <-. split; [|done]. simpl.
  by rewrite finalize_arguments_app, app_nil_r.
Qed.

Lemma ensures_reduce_and_finalize (R : state V U → state V U → Prop)
    k (finalize : @FinalizeType V U) gridDim blockDim blockIdx values :
  (∀ shared,
     ensures R
       (for_each (λ threadIdx,
            finalize_call finalize gridDim blockIdx threadIdx shared)
          (lanes blockDim))) →
  ensures R (reduce_and_finalize k finalize gridDim blockDim blockIdx values).
Proof. intros Hlanes s a s' Hrun. by eapply Hlanes. Qed.

Lemma ensures_reduce_and_finalize_serial k (sink : V → U → U)
    gridDim blockDim blockIdx values :
  ensures (at_most_one_call sink)
    (reduce_and_finalize (U:=U) k (CudaParallelReduceFinalizeFunctor sink)
       gridDim blockDim blockIdx values).
Proof.
  apply ensures_reduce_and_finalize. intros shared.
  destruct (N.eq_dec blockDim 0) as [->|Hdim].
  { intros s [] s' [= <-]. left. apply no_call_refl. }
  destruct (lanes_head blockDim) as (l & -> & Hl); [lia|].
  simpl. eapply ensures_bind.
  - apply ensures_serial_finalize_call.
  - intros _. apply (ensures_for_each no_call);
      [apply no_call_refl|apply no_call_trans|].
    intros t Ht. apply ensures_serial_finalize_call_other. by apply Hl.
  - apply at_most_one_then_none.
Qed.

Lemma ensures_reduce_and_finalize_store k block_value gridDim blockDim blockIdx
    (values : list V) :
  ensures no_call
    (reduce_and_finalize (U:=U) k (CudaParallelReduceFinalizeBlock block_value)
       gridDim blockDim blockIdx values).
Proof.
  apply ensures_reduce_and_finalize. intros shared.
  apply (ensures_for_each no_call); [apply no_call_refl|apply no_call_trans|].
  intros t _. apply ensures_store_block_call.
Qed.

Lemma ensures_load_block_result block_result blockDim :
  ensures no_call (load_block_result (V:=V) (U:=U) block_result blockDim).
Proof.
  intros s shared s' Hrun. unfold load_block_result in Hrun.
  destruct (global_memory (device s) !! block_result) as [[bytes slots]|];
    [|done].
  destruct (mapM _ _); [|done]. injection Hrun as _ <-. apply no_call_refl.
Qed.

Lemma ensures_allocate_memory size count :
  ensures no_call (allocate_memory (V:=V) (U:=U) size count).
Proof.
  intros s ptr s' Hrun. unfold allocate_memory in Hrun.
  destruct (size * count <=? free_memory (device s)); [|done].
  injection Hrun as _ <-. split; [|done]. simpl.
  by rewrite finalize_arguments_app, app_nil_r.
Qed.

Lemma ensures_deallocate_memory ptr :
  ensures no_call (deallocate_memory (V:=V) (U:=U) ptr).
Proof.
  intros s [] s' Hrun. unfold deallocate_memory in Hrun.
  destruct (global_memory (device s) !! ptr) as [[bytes slots]|]; [|done].
  injection Hrun as <-. split; [|done]. simpl.
  by rewrite finalize_arguments_app, app_nil_r.
Qed.

(** A completed reduction has called the serial finalize functor at most
    once. *)
Lemma ensures_cuda_parallel_reduce fuel work_count (finalize : V → U → U) :
  ensures (at_most_one_call finalize)
    (cuda_parallel_reduce fuel work_count finalize).
Proof.
  intros s [] s' Hrun. unfold cuda_parallel_reduce in Hrun.
  destruct (work_count <? reduction_thread_max (device s) reduce_size).
  - revert Hrun. apply (ensures_bind no_call (at_most_one_call finalize));
      [apply ensures_lift| |apply none_then_at_most_one].
    intros thread_count. unfold launch_functor.
    apply (ensures_bind no_call (at_most_one_call finalize));
      [by apply ensures_record| |apply none_then_at_most_one].
    intros _. unfold run_reduce_functor_on_cuda.
    change (unsigned_int 1) with 1. rewrite lanes_1. simpl.
    apply (ensures_bind (at_most_one_call finalize) no_call);
      [|intros _ ? [] ? [= <-]; apply no_call_refl|apply at_most_one_then_none].
    apply (ensures_bind no_call (at_most_one_call finalize));
      [apply ensures_lift| |apply none_then_at_most_one].
    intros shared. apply ensures_reduce_and_finalize_serial.
  - revert Hrun. apply (ensures_bind no_call (at_most_one_call finalize));
      [apply ensures_lift| |apply none_then_at_most_one].
    intros block_count.
    apply (ensures_bind no_call (at_most_one_call finalize));
      [apply ensures_allocate_memory| |apply none_then_at_most_one].
    intros block_value.
    apply (ensures_bind no_call (at_most_one_call finalize));
      [| |apply none_then_at_most_one].
    { unfold launch_functor.
      apply (ensures_bind no_call no_call);
        [by apply ensures_record| |apply no_call_trans].
      intros _. apply (ensures_for_each no_call);
        [apply no_call_refl|apply no_call_trans|].
      intros b _. apply (ensures_bind no_call no_call);
        [apply ensures_lift| |apply no_call_trans].
      intros shared. apply ensures_reduce_and_finalize_store. }
    intros _.
    apply (ensures_bind (at_most_one_call finalize) no_call);
      [|intros _; apply ensures_deallocate_memory|apply at_most_one_then_none].
    unfold launch_operator.
    apply (ensures_bind no_call (at_most_one_call finalize));
      [by apply ensures_record| |apply none_then_at_most_one].
    intros _. unfold run_reduce_operator_on_cuda.
    change (unsigned_int 1) with 1. rewrite lanes_1. simpl.
    apply (ensures_bind (at_most_one_call finalize) no_call);
      [|intros _ ? [] ? [= <-]; apply no_call_refl|apply at_most_one_then_none].
    apply (ensures_bind no_call (at_most_one_call finalize));
      [apply ensures_load_block_result| |apply none_then_at_most_one].
    intros shared. apply ensures_reduce_and_finalize_serial.
Qed.

End Calls.

(** C10: the two entry points agree.  On the same device, after the same
    events and with the same fuel, the form that returns the value
    returns exactly when the form that takes a finalize functor
    completes, and returns the value that form has called its functor
    with (the result holder as it was created when nothing was called).
    And in a reduction of at least one work item, with fewer than [2^32]
    lanes to launch and, on the two-phase path, the scratch buffer
    allocated, both forms do complete: one value is handed to the
    finalize functor, and the other form returns that value. *)
Theorem ParallelReduce_run_agree {V U} `{F : ReduceFunctor V}
    (work_count : N) (finalize : V → U → U) (s : state V U)
    (view : @ValueView V) :
  let max_thread_count := reduction_thread_max (device s) reduce_size in
  let sv := {| device := device s; trace := trace s; user := view |} in
  (∀ (fuel : nat) (value : V),
     (∃ s', ParallelReduce_run_value fuel work_count sv = Done value s') ↔
     (∃ s', ParallelReduce_run fuel work_count finalize s = Done () s' ∧
            (finalize_arguments (trace s') =
               finalize_arguments (trace s) ++ [value] ∨
             finalize_arguments (trace s') = finalize_arguments (trace s) ∧
             value = create_value (hardware (device s))))) ∧
  (∀ gridDim blockDim : N,
     1 ≤ work_count →
     1 ≤ max_thread_count → 1 ≤ block_count_max (device s) →
     planned work_count max_thread_count (block_count_max (device s))
       gridDim blockDim →
     blockDim * gridDim < 2 ^ 32 →
     work_count + blockDim * gridDim ≤ 2 ^ 64 →
     (max_thread_count ≤ work_count →
      reduce_size * gridDim ≤ free_memory (device s)) →
     ∃ fuel0 : nat, ∀ fuel : nat, (fuel0 ≤ fuel)%nat →
       ∃ value s' sv',
         ParallelReduce_run fuel work_count finalize s = Done () s' ∧
         finalize_arguments (trace s') =
           finalize_arguments (trace s) ++ [value] ∧
         user s' = finalize value (user s) ∧
         ParallelReduce_run_value fuel work_count sv = Done value sv').
Proof.
  intros max_thread_count sv0. split.
  - intros fuel value. unfold ParallelReduce_run_value, ParallelReduce_run.
    set (sv := {| device := device s; trace := trace s;
                  user := create_value (hardware (device s)) |}).
    pose proof (simulates_cuda_parallel_reduce fuel work_count ValueView_call sv)
      as Hsv.
    pose proof (simulates_cuda_parallel_reduce fuel work_count finalize s) as Hs.
    change (erase sv) with (erase s) in Hsv. rewrite <- Hs in Hsv. clear Hs.
    pose proof (ensures_cuda_parallel_reduce fuel work_count ValueView_call sv)
      as Hview.
    unfold mbind at 1, exec_bind at 1. simpl. fold sv.
    unfold mbind at 1, exec_bind at 1.
    destruct (cuda_parallel_reduce fuel work_count ValueView_call sv)
      as [[] sv'| |] eqn:Hrunv;
      destruct (cuda_parallel_reduce fuel work_count finalize s)
        as [[] s'| |] eqn:Hrun; simpl in Hsv; try discriminate.
    + assert (Htrace : trace sv' = trace s').
      { apply (f_equal (λ o, match o with
                             | Done _ x => trace x
                             | _ => []
                             end)) in Hsv. exact Hsv. }
      specialize (Hview _ _ eq_refl).
      unfold deep_copy. split.
      * intros [s1 [= <- _]]. exists s'. split; [done|].
        rewrite <- Htrace.
        destruct Hview as [[Ht Hu]|(v & Ht & Hu)].
        -- right. by rewrite Ht, Hu.
        -- left. by rewrite Ht, Hu.
      * intros (s1 & [= <-] & Hargs). rewrite <- Htrace in Hargs.
        destruct Hargs as [Hargs|[Hargs ->]].
        -- destruct Hview as [[Ht _]|(v & Ht & Hu)].
           ++ rewrite Ht in Hargs. simpl in Hargs.
              apply (f_equal length) in Hargs. rewrite length_app in Hargs.
              simpl in Hargs. lia.
           ++ rewrite Ht in Hargs. apply app_inj_tail in Hargs as [_ ->].
              rewrite Hu. by eexists.
        -- destruct Hview as [[_ Hu]|(v & Ht & _)].
           ++ rewrite Hu. by eexists.
           ++ rewrite Ht in Hargs. simpl in Hargs.
              apply (f_equal length) in Hargs. rewrite length_app in Hargs.
              simpl in Hargs. lia.
    + split; [by intros [? ?]|by intros (? & ? & ?)].
    + split; [by intros [? ?]|by intros (? & ? & ?)].
  - intros gridDim blockDim Hw HL1 HC1 Hplan H32 H64 Hfree.
    exists (S (N.to_nat work_count + N.to_nat max_thread_count)).
    intros fuel Hfuel. unfold ParallelReduce_run_value, ParallelReduce_run.
    set (sv := {| device := device s; trace := trace s;
                  user := create_value (hardware (device s)) |}).
    unfold mbind at 1, exec_bind at 1. simpl. fold sv.
    unfold mbind at 1, exec_bind at 1.
    destruct Hplan as [thread_count Hlt Hhalved|block_count Hge Hhalved].
    + assert (Hf : (N.to_nat max_thread_count < fuel)%nat) by lia.
      rewrite (cuda_parallel_reduce_single_block fuel work_count finalize s
                 thread_count Hw Hlt Hhalved ltac:(lia) Hf).
      rewrite (cuda_parallel_reduce_single_block fuel work_count ValueView_call
                 sv thread_count Hw Hlt Hhalved ltac:(lia) Hf).
      eexists _, _, _. split; [done|]. simpl.
      rewrite finalize_arguments_app, finalize_arguments_single_block.
      done.
    + destruct (cuda_parallel_reduce_two_phase fuel work_count finalize s
                  block_count) as [_ ->];
        [done|done|done|done|done|done|by apply Hfree|lia|].
      destruct (cuda_parallel_reduce_two_phase fuel work_count ValueView_call
                  sv block_count) as [_ ->];
        [done|done|done|done|done|done|by apply Hfree|lia|].
      eexists _, _, _. split; [done|]. simpl.
      rewrite finalize_arguments_app, finalize_arguments_two_phase.
      done.
Qed.

Lemma ParallelReduce_run_agree_witness :
  ∃ fuel0 : nat, ∀ fuel : nat, (fuel0 ≤ fuel)%nat →
    ∃ value s' sv',
      ParallelReduce_run (F:=count_items) fuel 20 (λ _ u, u)
        (example_state 4 8 1000) = Done () s' ∧
      finalize_arguments (trace s') = [] ++ [value] ∧
      user s' = () ∧
      ParallelReduce_run_value (F:=count_items) fuel 20
        {| device := example_device 4 8 1000; trace := []; user := 7 |} =
        Done value sv'.
Proof.
  apply (proj2 (ParallelReduce_run_agree (F:=count_items) 20 (λ _ u, u)
                  (example_state 4 8 1000) 7) 4 4); try done.
  apply planned_two_phase; [done|]. by apply halved_stop.
Defined.

(** The two forms at work: twenty work items counted on a device with at
    most 4 threads in a block and 8 blocks. *)
Example ParallelReduce_run_value_20 :
  ∃ s', ParallelReduce_run_value (F:=count_items) 100 20
          {| device := example_device 4 8 1000; trace := []; user := 7 |} =
        Done 20 s'.
Proof. eexists. vm_compute. reflexivity. Qed.

(** On a device that allows no block at all the second kernel is launched
    on one block of no lanes: the form that takes a finalize functor
    completes without a call of it, and the form that returns the value
    returns what the result holder held when it was created. *)
Example ParallelReduce_run_no_block :
  (∃ s', ParallelReduce_run (F:=count_items) 100 20 (λ _ u, u)
           (example_state 4 0 1000) = Done () s' ∧
         finalize_arguments (trace s') = []) ∧
  (∃ s', ParallelReduce_run_value (F:=count_items) 100 20
           {| device := example_device 4 0 1000; trace := []; user := 7 |} =
         Done (create_value example_hardware) s').
Proof.
  split; [eexists; split; [vm_compute; reflexivity|reflexivity]|].
  eexists. vm_compute. reflexivity.
Qed.

(** * Further properties of the kernels and the driver *)

(** ** The tree reduction for any number of lanes *)

Lemma reached_slots_lt j i : i ∈ reached_slots j → i < Npos j.
Proof.
  revert i. induction j as [j IH|j IH|]; intros i Hi; simpl in Hi.
  - apply elem_of_app in Hi as [Hi|Hi].
    + apply IH in Hi. lia.
    + apply list_elem_of_fmap in Hi as (k & -> & Hk). apply IH in Hk. lia.
  - apply elem_of_app in Hi as [Hi|Hi].
    + apply IH in Hi. lia.
    + apply list_elem_of_fmap in Hi as (k & -> & Hk). apply IH in Hk. lia.
  - apply list_elem_of_singleton in Hi as ->. lia.
Qed.

Lemma NoDup_reached_slots j : NoDup (reached_slots j).
Proof.
  assert (Hstep : ∀ j', NoDup (reached_slots j') →
    NoDup (reached_slots j' ++ ((λ i, i + Npos j') <$> reached_slots j'))).
  { intros j' IH. apply NoDup_app. split; [done|]. split.
    - intros i Hi Hi'. apply reached_slots_lt in Hi.
      apply list_elem_of_fmap in Hi' as (k & -> & Hk). lia.
    - apply NoDup_fmap_2; [|done]. intros a b Hab. lia. }
  induction j as [j IH|j IH|]; simpl; [by apply Hstep..|].
  apply NoDup_singleton.
Qed.

Lemma length_reached_slots j :
  N.of_nat (length (reached_slots j)) = 2 ^ N.log2 (Npos j).
Proof.
  induction j as [j IH|j IH|]; [| |done].
  - change (Npos j~1) with (2 * Npos j + 1).
    rewrite N.log2_succ_double by lia. rewrite N.pow_succ_r', <- IH.
    simpl. rewrite length_app, length_fmap. lia.
  - change (Npos j~0) with (2 * Npos j).
    rewrite N.log2_double by lia. rewrite N.pow_succ_r', <- IH.
    simpl. rewrite length_app, length_fmap. lia.
Qed.

Lemma select_app {V} l1 l2 (shared : list V) :
  select (l1 ++ l2) shared = select l1 shared ++ select l2 shared.
Proof. apply omap_app. Qed.

Lemma select_cons {V} i l (shared : list V) :
  select (i :: l) shared =
  match shared !! N.to_nat i with
  | Some a => a :: select l shared
  | None => select l shared
  end.
Proof. done. Qed.

Section TreeAnyLanes.
Context {V : Type} `{F : ReduceFunctor V} `{!JoinLaws F}.

(** After the round at [j], the slots below [j] hold the joins of the
    slots [i] and [i + j]. *)
Lemma select_join_round blockDim j (shared : list V) indices :
  j ≤ blockDim → (N.to_nat (2 * j) ≤ length shared)%nat →
  Forall (λ i, i < j) indices →
  select indices (join_round blockDim j shared) =
  zip_with functor_join (select indices shared)
    (select ((λ i, i + j) <$> indices) shared) ∧
  length (select indices shared) = length indices ∧
  length (select ((λ i, i + j) <$> indices) shared) = length indices.
Proof.
  intros Hdim Hlen. induction 1 as [|i indices Hi _ IH]; [done|].
  destruct IH as (IH & Hl1 & Hl2).
  rewrite fmap_cons, !select_cons.
  rewrite join_round_lookup. unfold round_result.
  rewrite decide_True by lia.
  destruct (lookup_lt_is_Some_2 shared (N.to_nat i)) as [a Ha]; [lia|].
  destruct (lookup_lt_is_Some_2 shared (N.to_nat (i + j))) as [b Hb]; [lia|].
  rewrite <- N2Nat.inj_add, Ha, Hb. simpl.
  rewrite IH, Hl1, Hl2. done.
Qed.

Lemma reduce_rounds_reached blockDim j (shared : list V) :
  Npos j ≤ blockDim → (Pos.to_nat j ≤ length shared)%nat →
  reduce_rounds blockDim j shared !! 0%nat =
  join_all (select (reached_slots j) shared).
Proof.
  assert (Hstep : ∀ j' : positive,
    (∀ shared : list V, Npos j' ≤ blockDim → (Pos.to_nat j' ≤ length shared)%nat →
       reduce_rounds blockDim j' shared !! 0%nat =
       join_all (select (reached_slots j') shared)) →
    ∀ shared : list V, Npos j' ≤ blockDim →
      (N.to_nat (2 * Npos j') ≤ length shared)%nat →
      reduce_rounds blockDim j' (join_round blockDim (Npos j') shared) !! 0%nat =
      join_all (select (reached_slots j' ++
                        ((λ i, i + Npos j') <$> reached_slots j')) shared)).
  { intros j' IH s Hdim Hlen.
    rewrite IH by (done || rewrite join_round_length; lia).
    destruct (select_join_round blockDim (Npos j') s (reached_slots j'))
      as (-> & Hl1 & Hl2); [done|done| |].
    { apply Forall_forall. intros i. apply reached_slots_lt. }
    rewrite join_all_zip by congruence. by rewrite select_app. }
  revert shared. induction j as [j IH|j IH|]; intros shared Hdim Hlen.
  - cbn [reduce_rounds reached_slots]. apply Hstep; [done|lia|lia].
  - cbn [reduce_rounds reached_slots]. apply Hstep; [done|lia|lia].
  - simpl. rewrite join_round_0.
    destruct shared as [|v rest]; [simpl in Hlen; lia|done].
Qed.

End TreeAnyLanes.

Lemma reduce_in_step_select {V} `{F : ReduceFunctor V} `{!JoinLaws F}
    (blockDim : N) (shared : list V) :
  1 ≤ blockDim → N.of_nat (length shared) = blockDim →
  reduce_in_step blockDim shared !! 0%nat =
    join_all (select (reached_lanes blockDim) shared).
Proof.
  intros Hdim Hlen. destruct blockDim as [|j]; [lia|].
  unfold reached_lanes, reduce_in_step.
  apply reduce_rounds_reached; lia.
Qed.



Lemma length_reached_lanes blockDim :
  1 ≤ blockDim →
  N.of_nat (length (reached_lanes blockDim)) = 2 ^ N.log2 blockDim.
Proof. destruct blockDim as [|j]; [lia|]. intros _. apply length_reached_slots. Qed.

Lemma reached_lanes_lt blockDim i : i ∈ reached_lanes blockDim → i < blockDim.
Proof. destruct blockDim as [|j]; [by intros ?%elem_of_nil|apply reached_slots_lt]. Qed.

Lemma NoDup_reached_lanes blockDim : NoDup (reached_lanes blockDim).
Proof. destruct blockDim as [|j]; [apply NoDup_nil_2|apply NoDup_reached_slots]. Qed.

(** Every lane is reached exactly when the number of lanes is a power of
    two. *)
Lemma reached_lanes_all blockDim :
  1 ≤ blockDim →
  (∀ i, i < blockDim → i ∈ reached_lanes blockDim) ↔ power_of_two blockDim.
Proof.
  intros Hdim. pose proof (length_reached_lanes blockDim Hdim) as Hlen.
  pose proof (N.log2_spec blockDim ltac:(lia)) as [Hlog _].
  split.
  - intros Hall. exists (N.log2 blockDim).
    assert (lanes blockDim ⊆+ reached_lanes blockDim) as Hsub.
    { apply NoDup_submseteq; [apply NoDup_lanes|].
      intros i Hi%elem_of_lanes. by apply Hall. }
    apply submseteq_length in Hsub. rewrite length_lanes in Hsub. lia.
  - intros [k ->]. rewrite N.log2_pow2 in Hlen by lia.
    assert (reached_lanes (2 ^ k) ⊆+ lanes (2 ^ k)) as Hsub.
    { apply NoDup_submseteq; [apply NoDup_reached_lanes|].
      intros i Hi. by apply elem_of_lanes, reached_lanes_lt. }
    apply submseteq_length_Permutation in Hsub;
      [|rewrite length_lanes; lia].
    intros i Hi. rewrite Hsub. by apply elem_of_lanes.
Qed.

Lemma select_insert_other {V} indices (shared : list V) i v :
  i ∉ indices → select indices (<[N.to_nat i := v]> shared) = select indices shared.
Proof.
  induction indices as [|k indices IH]; intros Hi; [done|].
  rewrite !select_cons. apply not_elem_of_cons in Hi as [Hne Hi].
  rewrite list_lookup_insert_ne by lia. by rewrite IH.
Qed.

Lemma reached_slots_0 p : 0 ∈ reached_slots p.
Proof.
  induction p as [p IH|p IH|]; simpl;
    [by apply elem_of_app; left..|apply list_elem_of_singleton; done].
Qed.

(** With a slot that a round joins into, the reached slots hold the slot
    it is joined with. *)
Lemma reached_slots_closed p j k :
  k ∈ reached_slots p → j ∈ round_counters p → k < j →
  k + j ∈ reached_slots p.
Proof.
  assert (Hstep : ∀ p' : positive,
    (∀ j k, k ∈ reached_slots p' → j ∈ round_counters p' → k < j →
       k + j ∈ reached_slots p') →
    ∀ j k,
      k ∈ reached_slots p' ++ ((λ i, i + Npos p') <$> reached_slots p') →
      j ∈ Npos p' :: round_counters p' → k < j →
      k + j ∈ reached_slots p' ++ ((λ i, i + Npos p') <$> reached_slots p')).
  { clear j k. intros p' IH j k Hk Hj Hlt. apply elem_of_app.
    apply elem_of_cons in Hj as [->|Hj].
    - apply elem_of_app in Hk as [Hk|Hk].
      + right. apply list_elem_of_fmap. by exists k.
      + apply list_elem_of_fmap in Hk as (k' & -> & _). lia.
    - pose proof (round_counters_le _ _ Hj) as Hle.
      pose proof (half_bounds (Npos p')).
      apply elem_of_app in Hk as [Hk|Hk].
      + left. by apply IH.
      + apply list_elem_of_fmap in Hk as (k' & -> & _). lia. }
  revert j k. induction p as [p IH|p IH|]; intros j k Hk Hj Hlt.
  - by apply (Hstep p IH).
  - by apply (Hstep p IH).
  - simpl in Hj. apply list_elem_of_singleton in Hj as ->. lia.
Qed.

Section LostLane.
Context {V : Type} `{F : ReduceFunctor V}.

Lemma run_warp_agree_on_reached warpSize blockDim j w (s1 s2 : list V) :
  j ∈ rounds blockDim →
  agree_on_reached blockDim s1 s2 →
  agree_on_reached blockDim
    (run_warp warpSize blockDim (join_step j) w s1)
    (run_warp warpSize blockDim (join_step j) w s2).
Proof.
  intros Hj [Hlen Hagree]. split; [by rewrite !run_warp_length|].
  intros k Hk. rewrite !run_warp_lookup. case_decide; [|by apply Hagree].
  unfold lane_result. case_decide as Hlt; [|by apply Hagree].
  rewrite N2Nat.id in Hlt.
  assert (Hkj : k + j ∈ reached_lanes blockDim).
  { destruct blockDim as [|p]; [by apply elem_of_nil in Hk|].
    by apply reached_slots_closed. }
  rewrite <- !N2Nat.inj_add.
  by rewrite (Hagree _ Hk), (Hagree _ Hkj).
Qed.

End LostLane.

(** X2: when the number of lanes is not a power of two, there is a lane of
    the block whose slot the tree reduction never joins into slot 0:
    whatever is written to that slot beforehand, slot 0 ends the same,
    with or without a barrier before every round and in whatever order
    the warps run. *)
Theorem reduce_shared_on_cuda_lost_lane {V} `{F : ReduceFunctor V} `{!JoinLaws F}
    (blockDim : N) :
  1 ≤ blockDim → ¬ power_of_two blockDim →
  ∃ i, i < blockDim ∧
    ∀ (device_emulation : bool) (warpSize : N) (schedule : list (list nat))
      (shared : list V) (value : V),
      N.of_nat (length shared) = blockDim →
      reduce_shared_on_cuda device_emulation warpSize [] schedule blockDim
          (<[N.to_nat i := value]> shared) !! 0%nat =
      reduce_shared_on_cuda device_emulation warpSize [] schedule blockDim
          shared !! 0%nat.
Proof.
  intros Hdim Hpow.
  destruct (decide (Forall (λ i, i ∈ reached_lanes blockDim) (lanes blockDim)))
    as [Hall|Hnot].
  { destruct Hpow. apply reached_lanes_all; [done|].
    intros i Hi. rewrite Forall_forall in Hall. by apply Hall, elem_of_lanes. }
  apply not_Forall_Exists in Hnot; [|apply _].
  apply Exists_exists in Hnot as (i & Hi%elem_of_lanes & Hlost).
  exists i. split; [done|].
  intros device_emulation warpSize schedule shared value Hlen.
  assert (H0 : 0 ∈ reached_lanes blockDim).
  { destruct blockDim as [|p]; [lia|]. apply reached_slots_0. }
  refine (proj2 (reduce_shared_on_cuda_related (agree_on_reached blockDim)
           device_emulation warpSize [] schedule blockDim
           (<[N.to_nat i := value]> shared) shared _ _) 0 H0).
  - intros step w s1 s2 [Hin|(j & Hj & ->)] Hagree;
      [by apply elem_of_nil in Hin|].
    by apply run_warp_agree_on_reached.
  - split; [by rewrite length_insert|].
    intros k Hk. apply list_lookup_insert_ne.
    intros Heq%(inj N.to_nat). by subst.
Qed.

Lemma reduce_shared_on_cuda_lost_lane_witness :
  ∃ i, i < 6 ∧
    ∀ (device_emulation : bool) (warpSize : N) (schedule : list (list nat))
      (shared : list N) (value : N),
      N.of_nat (length shared) = 6 →
      reduce_shared_on_cuda (F:=count_items) device_emulation warpSize []
          schedule 6 (<[N.to_nat i := value]> shared) !! 0%nat =
      reduce_shared_on_cuda (F:=count_items) device_emulation warpSize []
          schedule 6 shared !! 0%nat.
Proof.
  apply (reduce_shared_on_cuda_lost_lane (F:=count_items) 6); [done|].
  intros [k Hk]. destruct (N.lt_ge_cases k 3) as [Hlt|Hge].
  - assert (k = 0 ∨ k = 1 ∨ k = 2) as [-> | [-> | ->]] by lia; done.
  - pose proof (N.pow_le_mono_r 2 3 k ltac:(done) Hge) as Hle.
    rewrite <- Hk in Hle. done.
Defined.

(** X3: the tree reduction writes the lower half of the block's slots
    only: every slot from [blockDim / 2] on is left as it was, and the
    number of slots does not change, with or without a barrier before
    every round and in whatever order the warps run. *)
Theorem reduce_shared_on_cuda_upper_half {V} `{F : ReduceFunctor V}
    (device_emulation : bool) (warpSize : N) (schedule : list (list nat))
    (blockDim : N) (shared : list V) (i : nat) :
  blockDim / 2 ≤ N.of_nat i →
  reduce_shared_on_cuda device_emulation warpSize [] schedule blockDim shared
      !! i = shared !! i ∧
  length (reduce_shared_on_cuda device_emulation warpSize [] schedule blockDim
            shared) = length shared.
Proof.
  intros Hi. split; [|apply reduce_shared_on_cuda_length].
  apply (reduce_shared_on_cuda_related (λ s1 _, s1 !! i = shared !! i)
           device_emulation warpSize [] schedule blockDim shared shared);
    [|done].
  intros step w s1 _ [Hin|(j & Hj%rounds_le & ->)] <-;
    [by apply elem_of_nil in Hin|].
  rewrite run_warp_lookup. case_decide; [|done].
  unfold lane_result. by rewrite decide_False by lia.
Qed.

Lemma reduce_shared_on_cuda_upper_half_witness :
  reduce_shared_on_cuda (F:=count_items) false 2 [] [[1; 0]%nat] 6
      [1; 2; 4; 8; 16; 32] !! 3%nat =
    [1; 2; 4; 8; 16; 32] !! 3%nat ∧
  length (reduce_shared_on_cuda (F:=count_items) false 2 [] [[1; 0]%nat] 6
            [1; 2; 4; 8; 16; 32]) =
    length [1; 2; 4; 8; 16; 32].
Proof.
  apply (reduce_shared_on_cuda_upper_half (F:=count_items) false 2
           [[1; 0]%nat] 6 [1; 2; 4; 8; 16; 32] 3). done.
Defined.

(** ** The work kernel without work *)

Section NoWork.
Context {V : Type} `{F : ReduceFunctor V}.

Lemma lane_accumulate_no_work fuel blockDim gridDim blockIdx threadIdx :
  lane_accumulate (S fuel) 0 blockDim gridDim blockIdx threadIdx =
    Some functor_init.
Proof.
  unfold lane_accumulate. simpl.
  by destruct (N.ltb_spec
    (unsigned_int (threadIdx + unsigned_int (blockDim * blockIdx))) 0); [lia|].
Qed.

Lemma block_accumulate_no_work fuel blockDim gridDim blockIdx :
  block_accumulate (S fuel) 0 blockDim gridDim blockIdx =
    Some (replicate (N.to_nat blockDim) functor_init).
Proof.
  unfold block_accumulate. apply mapM_Some_2.
  apply Forall2_same_length_lookup. split.
  { by rewrite length_lanes, length_replicate. }
  intros k t v _ [-> _]%lookup_replicate. apply lane_accumulate_no_work.
Qed.

Section Idempotent.
Hypothesis join_init : functor_join functor_init functor_init = functor_init.

Lemma join_round_all_init blockDim j (shared : list V) :
  Forall (λ v, v = functor_init) shared →
  Forall (λ v, v = functor_init) (join_round blockDim j shared).
Proof.
  intros Hall. apply Forall_lookup. intros i v.
  rewrite join_round_lookup. unfold round_result.
  rewrite Forall_lookup in Hall.
  case_decide; [|by apply Hall].
  destruct (shared !! i) as [a|] eqn:Ha; [|done].
  destruct (shared !! (i + N.to_nat j)%nat) as [b|] eqn:Hb.
  - intros [= <-]. by rewrite (Hall _ _ Ha), (Hall _ _ Hb).
  - intros [= <-]. by apply (Hall i).
Qed.

Lemma reduce_rounds_all_init blockDim j (shared : list V) :
  Forall (λ v, v = functor_init) shared →
  Forall (λ v, v = functor_init) (reduce_rounds blockDim j shared).
Proof.
  revert shared. induction j as [j IH|j IH|]; intros shared Hall; simpl.
  - by apply IH, join_round_all_init.
  - by apply IH, join_round_all_init.
  - by apply join_round_all_init.
Qed.

Lemma slot_0_all_init blockDim :
  slot_0 blockDim (replicate (N.to_nat blockDim) functor_init) = functor_init.
Proof.
  unfold slot_0.
  destruct (reduce_in_step blockDim _ !! 0%nat) as [v|] eqn:Hv; [|done].
  simpl.
  apply (Forall_lookup_1 (λ v, v = functor_init) _ _ _) with (2:=Hv).
  destruct blockDim as [|j]; simpl.
  - apply Forall_nil_2.
  - apply reduce_rounds_all_init, Forall_replicate. done.
Qed.

End Idempotent.
End NoWork.

(** X4: launched on one block with no work at all, the work kernel calls
    the functor on nothing and hands the serial finalize functor the value
    of [init], once, for any number of lanes that run in step (a barrier
    before every round, or one warp), provided [join] of two [init]
    values is the [init] value. *)
Theorem launch_functor_no_work {V U} `{F : ReduceFunctor V}
    (fuel : nat) (blockDim shmem : N) (serial_finalize : V → U → U)
    (s : state V U) :
  1 ≤ blockDim → blockDim < 2 ^ 32 →
  synchronised (device_emulation (hardware (device s)))
    (warpSize (hardware (device s))) blockDim →
  functor_join functor_init functor_init = functor_init →
  launch_functor (S fuel) 1 blockDim shmem 0
      (CudaParallelReduceFinalizeFunctor serial_finalize) s =
    Done () {| device := device s;
               trace := trace s ++
                 [launch_functor_event 1 blockDim shmem 0 None;
                  serial_finalize_event 1 0 0 functor_init];
               user := serial_finalize functor_init (user s) |}.
Proof.
  intros H1 H32 Hsync Hjoin. unfold launch_functor.
  rewrite (unsigned_int_small 1) by done.
  rewrite (unsigned_int_small blockDim) by done.
  unfold mbind at 1, exec_bind at 1. unfold run_reduce_functor_on_cuda.
  rewrite lanes_1.
  change (for_each ?body [0]) with (body 0 ;; mret ()).
  unfold mbind at 1, exec_bind at 1. unfold mbind at 1, exec_bind at 1.
  unfold exec_lift. rewrite block_accumulate_no_work.
  rewrite reduce_and_finalize_serial by done.
  unfold mret, exec_ret, record. simpl.
  rewrite reduced_value_in_step by (done || by rewrite length_replicate).
  by rewrite slot_0_all_init, <- app_assoc.
Qed.

Lemma launch_functor_no_work_witness :
  launch_functor (F:=count_items) 1 1 3 24 0
      (CudaParallelReduceFinalizeFunctor (λ _ u, u)) (example_state 4 8 1000) =
    Done () {| device := example_device 4 8 1000;
               trace := [] ++
                 [launch_functor_event 1 3 24 0 None;
                  serial_finalize_event 1 0 0 0];
               user := () |}.
Proof.
  apply (launch_functor_no_work (F:=count_items) 0 3 24 (λ _ u, u)
           (example_state 4 8 1000)); [done|done|by right|done].
Defined.

(** ** What a launch leaves behind *)

Section Device.
Context {V U : Type} `{F : ReduceFunctor V}.
Implicit Types s : state V U.
Implicit Types P : CudaDevice V → Prop.

Lemma device_keeps_refl P s : device_keeps P s s.
Proof. by intros ?. Qed.

Lemma device_keeps_trans P s1 s2 s3 :
  device_keeps P s1 s2 → device_keeps P s2 s3 → device_keeps P s1 s3.
Proof. unfold device_keeps. auto. Qed.

Lemma keeps_lift {A} P (o : option A) :
  ensures (device_keeps (U:=U) P) (exec_lift o).
Proof.
  intros s a s' Hrun. destruct o; [|done]. injection Hrun as _ <-.
  apply device_keeps_refl.
Qed.

Lemma keeps_record P (e : event V) :
  ensures (device_keeps (U:=U) P) (λ s, Done () (record e s)).
Proof. intros s [] s' [= <-]. by intros ?. Qed.

Lemma keeps_serial_finalize_call P (sink : V → U → U)
    gridDim blockIdx threadIdx shared :
  ensures (device_keeps P)
    (serial_finalize_call sink gridDim blockIdx threadIdx shared).
Proof.
  intros s [] s' Hrun. unfold serial_finalize_call in Hrun.
  destruct ((1 =? gridDim) && (0 =? threadIdx)).
  - destruct (shared !! N.to_nat threadIdx) as [v|]; [|done].
    injection Hrun as <-. by intros ?.
  - injection Hrun as <-. by intros ?.
Qed.

Lemma keeps_store_block_call dev0 block_value bytes blockIdx threadIdx
    (shared : list V) :
  ensures (device_keeps (holds_scratch dev0 block_value bytes))
    (store_block_call (U:=U) block_value blockIdx threadIdx shared).
Proof.
  intros s [] s' Hrun. unfold store_block_call in Hrun.
  destruct (threadIdx =? 0); [|injection Hrun as <-; by intros ?].
  destruct (shared !! 0%nat) as [v|]; [|done].
  destruct (global_memory (device s) !! block_value) as [[bytes' slots]|]
    eqn:Hptr; [|done].
  destruct (blockIdx <? N.of_nat (length slots)); [|done].
  injection Hrun as <-. intros (Ht & Hb & Hhw & Hfree & slots0 & Hmem).
  rewrite Hmem, lookup_insert_eq in Hptr. injection Hptr as <- <-.
  split; [done|]. split; [done|]. split; [done|]. split; [done|]. simpl.
  eexists. by rewrite Hmem, insert_insert_eq.
Qed.

Lemma keeps_load_block_result P block_result blockDim :
  ensures (device_keeps P) (load_block_result (U:=U) block_result blockDim).
Proof.
  intros s shared s' Hrun. unfold load_block_result in Hrun.
  destruct (global_memory (device s) !! block_result) as [[bytes slots]|];
    [|done].
  destruct (mapM _ _); [|done]. injection Hrun as _ <-. by intros ?.
Qed.

Lemma keeps_reduce_and_finalize_serial P k (sink : V → U → U)
    gridDim blockDim blockIdx values :
  ensures (device_keeps P)
    (reduce_and_finalize k (CudaParallelReduceFinalizeFunctor sink)
       gridDim blockDim blockIdx values).
Proof.
  apply ensures_reduce_and_finalize. intros shared.
  apply (ensures_for_each (device_keeps P));
    [apply device_keeps_refl|apply device_keeps_trans|].
  intros t _. apply keeps_serial_finalize_call.
Qed.

Lemma keeps_reduce_and_finalize_store dev0 block_value bytes k
    gridDim blockDim blockIdx (values : list V) :
  ensures (device_keeps (holds_scratch dev0 block_value bytes))
    (reduce_and_finalize (U:=U) k (CudaParallelReduceFinalizeBlock block_value)
       gridDim blockDim blockIdx values).
Proof.
  apply ensures_reduce_and_finalize. intros shared.
  apply (ensures_for_each
    (device_keeps (holds_scratch dev0 block_value bytes)));
    [apply device_keeps_refl|apply device_keeps_trans|].
  intros t _. apply keeps_store_block_call.
Qed.

Lemma keeps_launch_functor_serial P fuel grid block shmem work_count
    (sink : V → U → U) :
  ensures (device_keeps P)
    (launch_functor fuel grid block shmem work_count
       (CudaParallelReduceFinalizeFunctor sink)).
Proof.
  unfold launch_functor.
  apply (ensures_bind (device_keeps P) (device_keeps P));
    [apply keeps_record| |apply device_keeps_trans].
  intros _. apply (ensures_for_each (device_keeps P));
    [apply device_keeps_refl|apply device_keeps_trans|].
  intros b _. apply (ensures_bind (device_keeps P) (device_keeps P));
    [apply keeps_lift| |apply device_keeps_trans].
  intros shared. apply keeps_reduce_and_finalize_serial.
Qed.

Lemma keeps_launch_functor_store dev0 block_value bytes
    fuel grid block shmem work_count :
  ensures (device_keeps (holds_scratch dev0 block_value bytes))
    (launch_functor (U:=U) fuel grid block shmem work_count
       (CudaParallelReduceFinalizeBlock block_value)).
Proof.
  set (P := holds_scratch dev0 block_value bytes).
  unfold launch_functor.
  apply (ensures_bind (device_keeps P) (device_keeps P));
    [apply keeps_record| |apply device_keeps_trans].
  intros _. apply (ensures_for_each (device_keeps P));
    [apply device_keeps_refl|apply device_keeps_trans|].
  intros b _. apply (ensures_bind (device_keeps P) (device_keeps P));
    [apply keeps_lift| |apply device_keeps_trans].
  intros shared. apply keeps_reduce_and_finalize_store.
Qed.

Lemma keeps_launch_operator_serial P grid block shmem block_result
    (sink : V → U → U) :
  ensures (device_keeps P)
    (launch_operator grid block shmem block_result
       (CudaParallelReduceFinalizeFunctor sink)).
Proof.
  unfold launch_operator.
  apply (ensures_bind (device_keeps P) (device_keeps P));
    [apply keeps_record| |apply device_keeps_trans].
  intros _. apply (ensures_for_each (device_keeps P));
    [apply device_keeps_refl|apply device_keeps_trans|].
  intros b _. apply (ensures_bind (device_keeps P) (device_keeps P));
    [apply keeps_load_block_result| |apply device_keeps_trans].
  intros shared. apply keeps_reduce_and_finalize_serial.
Qed.

Lemma allocate_memory_scratch size count ptr s s' :
  allocate_memory size count s = Done ptr s' →
  holds_scratch (device s) ptr (size * count) (device s') ∧
  global_memory (device s) !! ptr = None.
Proof.
  unfold allocate_memory.
  destruct (N.leb_spec (size * count) (free_memory (device s))); [|done].
  intros [= <- <-]. split; [|apply fresh_pointer_unused].
  split; [done|]. split; [done|]. split; [done|]. split; [simpl; lia|].
  by eexists.
Qed.

Lemma deallocate_memory_scratch dev0 ptr bytes s s' :
  global_memory dev0 !! ptr = None →
  holds_scratch dev0 ptr bytes (device s) →
  deallocate_memory ptr s = Done () s' →
  device s' = dev0.
Proof.
  intros Hnone (Ht & Hb & Hhw & Hfree & slots & Hmem). unfold deallocate_memory.
  rewrite Hmem, lookup_insert_eq. intros [= <-]. simpl.
  rewrite delete_insert_eq, delete_id, Ht, Hb, Hhw, Hfree by done.
  by destruct dev0.
Qed.

End Device.

(** X5: in a launch of the work kernel on any number of blocks other than
    one, the wrapper of the serial finalize functor calls it in no lane:
    all a completed launch leaves behind is the record of the launch, and
    the values the blocks reduced are dropped. *)
Theorem launch_functor_many_blocks {V U} `{F : ReduceFunctor V}
    (fuel : nat) (grid block shmem work_count : N)
    (serial_finalize : V → U → U) (s s' : state V U) :
  unsigned_int grid ≠ 1 →
  launch_functor fuel grid block shmem work_count
    (CudaParallelReduceFinalizeFunctor serial_finalize) s = Done () s' →
  s' = record (launch_functor_event (unsigned_int grid) (unsigned_int block)
                 shmem work_count None) s.
Proof.
  intros Hgrid. unfold launch_functor, mbind at 1, exec_bind at 1.
  generalize (record (U:=U) (launch_functor_event (unsigned_int grid)
    (unsigned_int block) shmem work_count None) s).
  intros s1 Hrun. revert Hrun.
  apply (ensures_for_each (λ s1 s', s' = s1)); [done|congruence|].
  intros b _ s2 [] s3. unfold mbind, exec_bind, exec_lift.
  destruct (block_accumulate _ _ _ _ _) as [shared|]; [|done].
  rewrite reduce_and_finalize_serial_skip by done. congruence.
Qed.

Lemma launch_functor_many_blocks_witness :
  unsigned_int 2 ≠ 1 ∧
  launch_functor (F:=count_items) 8 2 2 16 5
    (CudaParallelReduceFinalizeFunctor (λ _ u, u)) (example_state 4 8 1000) =
    Done () (record (launch_functor_event 2 2 16 5 None)
               (example_state 4 8 1000)) ∧
  record (launch_functor_event 2 2 16 5 None) (example_state 4 8 1000) =
    record (launch_functor_event (unsigned_int 2) (unsigned_int 2) 16 5 None)
      (example_state 4 8 1000).
Proof.
  assert (Hgrid : unsigned_int 2 ≠ 1) by done.
  assert (Hrun : launch_functor (F:=count_items) 8 2 2 16 5
    (CudaParallelReduceFinalizeFunctor (λ _ u, u)) (example_state 4 8 1000) =
    Done () (record (launch_functor_event 2 2 16 5 None)
               (example_state 4 8 1000))) by (vm_compute; reflexivity).
  split; [done|]. split; [done|].
  exact (launch_functor_many_blocks (F:=count_items) 8 2 2 16 5 (λ _ u, u)
           _ _ Hgrid Hrun).
Defined.

(** X6: a reduction that completes leaves the device as it found it,
    whatever the work count and the device limits: the limits and the
    free memory are the same and the scratch buffer of the two-phase path
    is gone, so that nothing is leaked and nothing else in device memory
    is touched. *)
Theorem cuda_parallel_reduce_device {V U} `{F : ReduceFunctor V}
    (fuel : nat) (work_count : N) (finalize : V → U → U) (s s' : state V U) :
  cuda_parallel_reduce fuel work_count finalize s = Done () s' →
  device s' = device s.
Proof.
  unfold cuda_parallel_reduce.
  destruct (work_count <? reduction_thread_max (device s) reduce_size).
  - intros Hrun.
    assert (device_keeps (λ dev, dev = device s) s s') as Hkeep; [|by apply Hkeep].
    revert Hrun.
    apply (ensures_bind (device_keeps (λ dev, dev = device s))
             (device_keeps (λ dev, dev = device s)));
      [apply keeps_lift| |apply device_keeps_trans].
    intros thread_count. apply keeps_launch_functor_serial.
  - unfold mbind at 1, exec_bind at 1, exec_lift at 1.
    destruct (shrink_block_count _ _ _ _) as [block_count|]; [|done].
    unfold mbind at 1, exec_bind at 1.
    destruct (allocate_memory _ _ s) as [ptr s1| |] eqn:Halloc; [|done..].
    apply allocate_memory_scratch in Halloc as [Hs1 Hnone].
    unfold mbind at 1, exec_bind at 1.
    destruct (launch_functor _ _ _ _ _ _ s1) as [[] s2| |] eqn:Hfirst; [|done..].
    apply keeps_launch_functor_store with (dev0:=device s)
      (bytes:=reduce_size * block_count) in Hfirst.
    unfold mbind at 1, exec_bind at 1.
    destruct (launch_operator _ _ _ _ _ s2) as [[] s3| |] eqn:Hsecond; [|done..].
    apply (keeps_launch_operator_serial
      (holds_scratch (device s) ptr (reduce_size * block_count))) in Hsecond.
    intros Hfree.
    apply (deallocate_memory_scratch (device s) ptr
             (reduce_size * block_count) s3 s' Hnone); [|done].
    by apply Hsecond, Hfirst.
Qed.

Lemma cuda_parallel_reduce_device_witness :
  device (V:=N) (U:=())
    {| device := example_device 4 8 1000;
       trace := [allocate_event 8 2 0;
                 launch_functor_event 2 4 32 6 (Some 0);
                 store_event 0 0 4; store_event 0 1 2;
                 launch_operator_event 1 2 16 0;
                 serial_finalize_event 1 0 0 6;
                 deallocate_event 0];
       user := () |} = device (example_state 4 8 1000).
Proof.
  apply (cuda_parallel_reduce_device (F:=count_items) 10 6 (λ _ u, u)).
  vm_compute. reflexivity.
Defined.

(** ** How much work the planner gives a lane *)

Lemma shrink_thread_count_load fuel work_count thread_count thread_count' :
  shrink_thread_count fuel work_count thread_count = Some thread_count' →
  work_count ≤ thread_count →
  work_count ≤ thread_count' ∧ thread_count' < 2 * work_count ∧
  thread_count' ≤ thread_count.
Proof.
  revert thread_count. induction fuel as [|fuel IH]; intros thread_count; [done|].
  simpl. rewrite shiftr_1_div2.
  pose proof (half_bounds thread_count) as Hhalf. revert Hhalf.
  generalize (thread_count / 2). intros half Hhalf.
  destruct (N.leb_spec work_count half) as [Hle|Hgt].
  - intros Hrun _. destruct (IH _ Hrun Hle) as (? & ? & ?). lia.
  - intros [= <-] Hle. lia.
Qed.

Lemma shrink_block_count_load fuel work_count max_thread_count
    block_count block_count' :
  max_thread_count * block_count < 2 ^ 64 →
  shrink_block_count fuel work_count max_thread_count block_count =
    Some block_count' →
  block_count' ≤ block_count ∧
  max_thread_count * (block_count' / 2) < work_count ∧
  (block_count' = block_count ∨ work_count ≤ max_thread_count * block_count').
Proof.
  revert block_count. induction fuel as [|fuel IH]; intros block_count; [done|].
  simpl. rewrite shiftr_1_div2. intros H64.
  pose proof (half_bounds block_count) as Hhalf.
  rewrite size_t_small by nia.
  destruct (N.leb_spec work_count (max_thread_count * (block_count / 2)))
    as [Hle|Hgt].
  - intros Hrun. destruct (IH (block_count / 2)) as (Hc & Hstop & Hor);
      [nia|done|].
    split; [lia|]. split; [done|]. right. by destruct Hor as [->|Hmany].
  - intros [= <-]. split; [lia|]. split; [done|]. by left.
Qed.

Lemma lane_items_single work_count stride start :
  work_count ≤ stride → start < stride →
  lane_items work_count stride start =
    if start <? work_count then [start] else [].
Proof.
  intros Hle Hlt. unfold lane_items, lane_iterations.
  destruct (N.ltb_spec start work_count) as [Hwork|]; [|done].
  replace ((work_count - start + stride - 1) / stride) with 1.
  - unfold stride_indices. simpl. f_equal. lia.
  - apply (N.div_unique _ _ _ (work_count - start - 1)); lia.
Qed.

(** X7: on the single-block path the thread count the first loop stops at
    is at least the work count and less than twice the work count, so the
    work loop of a lane never takes a second step: lane [t] calls the
    functor on the work item [t] alone when [t] is below the work count,
    and on nothing otherwise. *)
Theorem single_block_one_item_per_lane {V} `{F : ReduceFunctor V}
    (fuel : nat) (work_count max_thread_count : N) :
  1 ≤ work_count → work_count < max_thread_count →
  max_thread_count < 2 ^ 32 →
  (N.to_nat max_thread_count < fuel)%nat →
  ∃ thread_count,
    shrink_thread_count fuel work_count max_thread_count = Some thread_count ∧
    work_count ≤ thread_count ∧ thread_count < 2 * work_count ∧
    thread_count ≤ max_thread_count ∧
    ∀ threadIdx, threadIdx < thread_count →
      lane_accumulate fuel work_count thread_count 1 0 threadIdx =
        Some (if threadIdx <? work_count
              then functor_call threadIdx functor_init
              else functor_init).
Proof.
  intros Hw Hlt H32 Hf.
  destruct (shrink_thread_count_run fuel work_count max_thread_count)
    as (thread_count & Hshrink & _); [done..|].
  destruct (shrink_thread_count_load _ _ _ _ Hshrink) as (Hge & Hless & Hle);
    [lia|].
  exists thread_count. do 4 (split; [done|]). intros threadIdx Ht.
  rewrite lane_accumulate_items by (done || word_lia || lia).
  rewrite N.mul_1_r, N.mul_0_r, N.add_0_r, lane_items_single by done.
  by destruct (threadIdx <? work_count).
Qed.

Lemma single_block_one_item_per_lane_witness :
  ∃ thread_count,
    shrink_thread_count 20 5 16 = Some thread_count ∧
    5 ≤ thread_count ∧ thread_count < 2 * 5 ∧ thread_count ≤ 16 ∧
    ∀ threadIdx, threadIdx < thread_count →
      lane_accumulate (F:=count_items) 20 5 thread_count 1 0 threadIdx =
        Some (if threadIdx <? 5
              then functor_call (ReduceFunctor:=count_items) threadIdx
                     (functor_init (ReduceFunctor:=count_items))
              else functor_init (ReduceFunctor:=count_items)).
Proof.
  apply (single_block_one_item_per_lane (F:=count_items) 20 5 16); done || lia.
Defined.

(** X8: on the two-phase path the block count the second loop stops at
    leaves more work items than the lanes of half the blocks, fewer than
    three lanes are launched per work item, and unless the loop stops at
    the block count it started with there are at least as many lanes as
    work items. *)
Theorem two_phase_load (fuel : nat) (work_count max_thread_count limit : N) :
  1 ≤ max_thread_count → max_thread_count ≤ work_count →
  max_thread_count * limit < 2 ^ 64 →
  (N.to_nat limit < fuel)%nat →
  ∃ block_count,
    shrink_block_count fuel work_count max_thread_count limit =
      Some block_count ∧
    block_count ≤ limit ∧
    max_thread_count * (block_count / 2) < work_count ∧
    max_thread_count * block_count < 3 * work_count ∧
    (block_count = limit ∨ work_count ≤ max_thread_count * block_count).
Proof.
  intros HL Hge H64 Hf.
  destruct (shrink_block_count_run fuel work_count max_thread_count limit)
    as (block_count & Hshrink & _); [lia|done..|].
  destruct (shrink_block_count_load _ _ _ _ _ H64 Hshrink) as (Hle & Hstop & Hor).
  exists block_count. do 3 (split; [done|]). split; [|done].
  pose proof (half_bounds block_count) as Hhalf. revert Hstop Hhalf.
  generalize (block_count / 2). intros half Hstop Hhalf.
  destruct (N.eq_dec half 0) as [->|Hpos]; nia.
Qed.

Lemma two_phase_load_witness :
  ∃ block_count,
    shrink_block_count 20 9 4 8 = Some block_count ∧
    block_count ≤ 8 ∧
    4 * (block_count / 2) < 9 ∧
    4 * block_count < 3 * 9 ∧
    (block_count = 8 ∨ 9 ≤ 4 * block_count).
Proof. apply (two_phase_load 20 9 4 8); done || lia. Defined.

(** ** What a block reduces, for any number of lanes *)

Lemma select_fmap_lanes {A} (f : N → A) n indices :
  Forall (λ i, i < n) indices → select indices (f <$> lanes n) = f <$> indices.
Proof.
  induction 1 as [|i indices Hi _ IH]; [done|].
  rewrite select_cons, list_lookup_fmap, lookup_lanes by lia. simpl.
  by rewrite N2Nat.id, IH.
Qed.

(** X9: for a functor that obeys the laws of a reduction, a block of any
    number of lanes that run in step (a barrier before every round, or
    one warp) leaves in slot 0 the reduction of the work items of its
    reached lanes, and of no other lane. *)
Theorem block_reduces_reached_lanes {V} `{F : ReduceFunctor V}
    `{!ReductionLaws F} (hw : Hardware V) (fuel : nat)
    (work_count blockDim gridDim blockIdx : N) :
  1 ≤ blockDim → blockDim * gridDim < 2 ^ 32 →
  work_count + blockDim * gridDim ≤ 2 ^ 64 →
  blockIdx < gridDim →
  (N.to_nat work_count < fuel)%nat →
  synchronised (device_emulation hw) (warpSize hw) blockDim →
  ∃ values,
    block_accumulate fuel work_count blockDim gridDim blockIdx = Some values ∧
    block_memory hw reduce_functor_kernel blockDim blockIdx values !! 0%nat =
      Some (serial_reduce
              (reached_lanes blockDim ≫= λ threadIdx,
                 lane_items work_count (blockDim * gridDim)
                   (threadIdx + blockDim * blockIdx))).
Proof.
  intros Hdim H32 H64 Hb Hf Hsync.
  rewrite block_accumulate_values by done. eexists. split; [done|].
  rewrite block_memory_in_step by (done || (rewrite length_block_values; lia)).
  rewrite reduce_in_step_select
    by (done || (rewrite length_block_values; lia)).
  unfold block_values. rewrite select_fmap_lanes
    by (apply Forall_forall; intros i; apply reached_lanes_lt).
  rewrite join_all_join_list.
  - f_equal. rewrite <- join_list_bind. f_equal.
    apply list_fmap_ext. intros _ t _. apply accumulate_init.
  - intros Hnil%fmap_nil_inv.
    pose proof (length_reached_lanes blockDim Hdim) as Hlen.
    rewrite Hnil in Hlen. simpl in Hlen.
    pose proof (N.pow_nonzero 2 (N.log2 blockDim)). lia.
Qed.

Lemma block_reduces_reached_lanes_witness :
  ∃ values,
    block_accumulate (F:=count_items) 20 10 6 1 0 = Some values ∧
    block_memory (F:=count_items) example_hardware reduce_functor_kernel 6 0
        values !! 0%nat =
      Some (serial_reduce (F:=count_items)
              (reached_lanes 6 ≫= λ threadIdx,
                 lane_items 10 (6 * 1) (threadIdx + 6 * 0))).
Proof.
  apply (block_reduces_reached_lanes (F:=count_items) example_hardware
           20 10 6 1 0); try (done || lia).
  right. done.
Defined.

(** ** The copy loops, word by word *)

Lemma same_remainder_step i k B :
  1 ≤ B → i ≤ k → k ≠ i → k mod B = i mod B → i + B ≤ k.
Proof.
  intros HB Hle Hne Hmod.
  pose proof (N.div_mod k B ltac:(lia)) as Hk.
  pose proof (N.div_mod i B ltac:(lia)) as Hi.
  rewrite Hmod in Hk. revert Hk Hi.
  generalize (k / B), (i / B), (i mod B). intros qk qi r Hk Hi.
  assert (qi < qk) by nia.
  assert (B * (qi + 1) ≤ B * qk) by (apply N.mul_le_mono_l; lia). lia.
Qed.

Lemma copy_words_loop_run fuel n blockDim i block_result shared_memory :
  1 ≤ blockDim → n + blockDim ≤ 2 ^ 32 →
  n ≤ N.of_nat (length block_result) →
  n ≤ N.of_nat (length shared_memory) →
  i < n + blockDim → n + blockDim ≤ i + N.of_nat fuel * blockDim →
  ∃ shared_memory',
    copy_words_loop fuel n blockDim i block_result shared_memory =
      Done () shared_memory' ∧
    length shared_memory' = length shared_memory ∧
    ∀ k : N,
      shared_memory' !! N.to_nat k =
        if decide (i ≤ k ∧ k < n ∧ k mod blockDim = i mod blockDim)
        then block_result !! N.to_nat k
        else shared_memory !! N.to_nat k.
Proof.
  intros HB H32 Hsrc. revert i shared_memory.
  induction fuel as [|fuel IH]; intros i dst Hdst Hi Hf; [simpl in Hf; lia|].
  simpl. destruct (N.ltb_spec i n) as [Hlt|Hge].
  - destruct (lookup_lt_is_Some_2 block_result (N.to_nat i)) as [w Hw]; [lia|].
    rewrite Hw. destruct (N.ltb_spec i (N.of_nat (length dst))); [|lia].
    rewrite unsigned_int_small by word_lia.
    destruct (IH (i + blockDim) (<[N.to_nat i := w]> dst))
      as (dst' & -> & Hlen & Hlook);
      [by rewrite length_insert|lia|lia|].
    exists dst'. split; [done|]. split; [by rewrite Hlen, length_insert|].
    intros k. rewrite Hlook.
    replace ((i + blockDim) mod blockDim) with (i mod blockDim)
      by (rewrite <- (N.Div0.mod_add i 1 blockDim); f_equal; lia).
    destruct (decide (i + blockDim ≤ k ∧ k < n ∧
                      k mod blockDim = i mod blockDim)) as [(? & ? & ?)|Hlater];
      destruct (decide (i ≤ k ∧ k < n ∧ k mod blockDim = i mod blockDim))
        as [(? & ? & ?)|Hnow]; try done.
    + exfalso. apply Hnow. split; [lia|done].
    + destruct (N.eq_dec k i) as [->|Hne].
      * rewrite list_lookup_insert, decide_True by (split; [done|lia]). done.
      * exfalso. apply Hlater. split; [|done].
        by apply same_remainder_step.
    + apply list_lookup_insert_ne. intros Heq. apply Hnow.
      assert (k = i) as -> by lia. split; [lia|done].
  - exists dst. split; [done|]. split; [done|]. intros k.
    destruct (decide _) as [(? & ? & ?)|]; [lia|done].
Qed.

Lemma copy_lanes_run fuel n blockDim block_result l shared_memory :
  1 ≤ blockDim → n + blockDim ≤ 2 ^ 32 →
  n ≤ N.of_nat (length block_result) →
  n ≤ N.of_nat (length shared_memory) →
  Forall (λ threadIdx, threadIdx < blockDim) l →
  n + blockDim ≤ N.of_nat fuel * blockDim →
  ∃ shared_memory',
    for_each (λ threadIdx,
        copy_words_loop fuel n blockDim threadIdx block_result) l
      shared_memory = Done () shared_memory' ∧
    length shared_memory' = length shared_memory ∧
    ∀ k : N,
      shared_memory' !! N.to_nat k =
        if decide (k < n ∧ k mod blockDim ∈ l)
        then block_result !! N.to_nat k
        else shared_memory !! N.to_nat k.
Proof.
  intros HB H32 Hsrc Hdst Hall Hf. revert shared_memory Hdst.
  induction Hall as [|t l Ht _ IH]; intros dst Hdst.
  - exists dst. split; [done|]. split; [done|]. intros k.
    destruct (decide _) as [[_ Hin]|]; [|done]. by apply elem_of_nil in Hin.
  - simpl. unfold mbind, exec_bind.
    destruct (copy_words_loop_run fuel n blockDim t block_result dst)
      as (dst1 & -> & Hlen1 & Hlook1); [done|done|done|done|lia|lia|].
    destruct (IH dst1) as (dst' & -> & Hlen & Hlook); [by rewrite Hlen1|].
    exists dst'. split; [done|]. split; [congruence|].
    intros k. rewrite Hlook, Hlook1, (N.mod_small t blockDim) by done.
    pose proof (N.Div0.mod_le k blockDim) as Hmod.
    destruct (decide (k < n ∧ k mod blockDim ∈ l)) as [[? ?]|Hrest];
      destruct (decide (k < n ∧ k mod blockDim ∈ t :: l)) as [[? Hin]|Hall];
      destruct (decide (t ≤ k ∧ k < n ∧ k mod blockDim = t))
        as [(? & ? & Heq)|Hfirst]; try done.
    + exfalso. apply Hall. split; [done|]. by right.
    + exfalso. apply Hall. split; [done|]. by right.
    + exfalso. apply elem_of_cons in Hin as [Hin|Hin].
      * apply Hfirst. split; [lia|done].
      * by apply Hrest.
    + exfalso. apply Hall. split; [done|]. rewrite Heq. by left.
Qed.

Lemma copy_lanes_all fuel n blockDim block_result shared_memory :
  1 ≤ blockDim → n + blockDim ≤ 2 ^ 32 →
  n ≤ N.of_nat (length block_result) →
  n ≤ N.of_nat (length shared_memory) →
  n + blockDim ≤ N.of_nat fuel * blockDim →
  for_each (λ threadIdx,
      copy_words_loop fuel n blockDim threadIdx block_result) (lanes blockDim)
    shared_memory =
    Done () (take (N.to_nat n) block_result ++ drop (N.to_nat n) shared_memory).
Proof.
  intros HB H32 Hsrc Hdst Hf.
  destruct (copy_lanes_run fuel n blockDim block_result (lanes blockDim)
              shared_memory) as (dst' & -> & Hlen & Hlook); [done..| |done|].
  { apply Forall_forall. intros t. apply elem_of_lanes. }
  f_equal. apply list_eq. intros j.
  specialize (Hlook (N.of_nat j)). rewrite Nat2N.id in Hlook. rewrite Hlook.
  assert (Htake : length (take (N.to_nat n) block_result) = N.to_nat n)
    by (rewrite length_take; lia).
  destruct (decide _) as [[Hj _]|Hnot].
  - rewrite lookup_app_l, lookup_take, decide_True by lia. done.
  - assert (n ≤ N.of_nat j).
    { apply N.le_ngt. intros Hj. apply Hnot. split; [done|].
      apply elem_of_lanes, N.mod_lt. lia. }
    rewrite lookup_app_r, lookup_drop, Htake by lia. f_equal. lia.
Qed.

(** X10: when nothing wraps around and both arrays hold the
    [CudaWordCount< reduce_type >::value * blockDim.x] words, the copy
    loops of the lanes of the block together copy exactly these words of
    [block_result] to shared memory, in their places, and leave the rest
    of shared memory as it was. *)
Theorem copy_block_result_run (fuel : nat) (reduce_words blockDim : N)
    (block_result shared_memory : list N) :
  reduce_words * blockDim + blockDim ≤ 2 ^ 32 →
  reduce_words * blockDim ≤ N.of_nat (length block_result) →
  reduce_words * blockDim ≤ N.of_nat (length shared_memory) →
  (N.to_nat reduce_words < fuel)%nat →
  copy_block_result fuel reduce_words blockDim block_result shared_memory =
    Done () (take (N.to_nat (reduce_words * blockDim)) block_result ++
             drop (N.to_nat (reduce_words * blockDim)) shared_memory).
Proof.
  intros H32 Hsrc Hdst Hf. unfold copy_block_result.
  destruct (N.eq_dec blockDim 0) as [->|HB].
  { rewrite N.mul_0_r. simpl. by rewrite drop_0. }
  rewrite unsigned_int_small by word_lia.
  apply copy_lanes_all; [lia|done..|nia].
Qed.

Lemma copy_block_result_run_witness :
  copy_block_result 4 3 2 [10; 11; 12; 13; 14; 15; 16] [0; 0; 0; 0; 0; 0; 0; 0] =
    Done () (take (N.to_nat (3 * 2)) [10; 11; 12; 13; 14; 15; 16] ++
             drop (N.to_nat (3 * 2)) [0; 0; 0; 0; 0; 0; 0; 0]).
Proof.
  apply (copy_block_result_run 4 3 2); simpl; done || lia.
Defined.

Lemma int_small z : (0 ≤ z < 2 ^ 31)%Z → int z = z.
Proof.
  unfold int. change (2 ^ 31)%Z with 2147483648%Z.
  change (2 ^ 32)%Z with 4294967296%Z. intros Hz.
  rewrite Z.mod_small; lia.
Qed.

(** While the index stays below [2 ^ 31] the signed loop is the unsigned
    one. *)
Lemma store_words_loop_unsigned fuel WordCount blockDim i storage output :
  WordCount + blockDim ≤ 2 ^ 31 → i < WordCount + blockDim →
  store_words_loop fuel (Z.of_N WordCount) blockDim (Z.of_N i) storage output =
    copy_words_loop fuel WordCount blockDim i storage output.
Proof.
  assert (H31 : 2 ^ 31 = 2147483648) by done. rewrite H31.
  intros Hfit. revert i output.
  induction fuel as [|fuel IH]; intros i output Hi; [done|].
  simpl.
  replace (Z.of_N i <? Z.of_N WordCount)%Z with (i <? WordCount)
    by (destruct (N.ltb_spec i WordCount), (Z.ltb_spec (Z.of_N i) (Z.of_N WordCount)); lia).
  destruct (N.ltb_spec i WordCount) as [Hlt|]; [|done].
  destruct (Z.leb_spec 0 (Z.of_N i)); [|lia].
  rewrite <- Z_N_nat, N2Z.id.
  destruct (storage !! N.to_nat i) as [w|]; [|done].
  replace (Z.of_N i <? Z.of_nat (length output))%Z
    with (i <? N.of_nat (length output))
    by (destruct (N.ltb_spec i (N.of_nat (length output))),
          (Z.ltb_spec (Z.of_N i) (Z.of_nat (length output))); lia).
  destruct (i <? N.of_nat (length output)); [|done].
  rewrite unsigned_int_small by word_lia.
  rewrite int_small by (change (2 ^ 31)%Z with 2147483648%Z; lia).
  rewrite <- N2Z.inj_add. apply IH. lia.
Qed.

(** X11: when nothing wraps around ([WordCount + blockDim.x] is at most
    [2 ^ 31]) and both storages hold the [WordCount] words, the lanes of
    a block together copy exactly the [WordCount] words of the value from
    the storage of slot 0 to the output slot, and leave the rest of the
    output slot, the padding word, as it was. *)
Theorem store_block_words_run (fuel : nat) (WordCount blockDim : N)
    (storage output : list N) :
  1 ≤ blockDim → WordCount + blockDim ≤ 2 ^ 31 →
  WordCount ≤ N.of_nat (length storage) →
  WordCount ≤ N.of_nat (length output) →
  (N.to_nat WordCount < fuel)%nat →
  store_block_words fuel WordCount blockDim storage output =
    Done () (take (N.to_nat WordCount) storage ++
             drop (N.to_nat WordCount) output).
Proof.
  intros HB H31 Hsrc Hdst Hf. unfold store_block_words.
  assert (H31' : 2 ^ 31 = 2147483648) by done.
  rewrite <- (copy_lanes_all fuel WordCount blockDim storage output);
    [|done|word_lia|done|done|nia].
  clear Hdst. revert output.
  assert (Hall : Forall (λ t, t < blockDim) (lanes blockDim))
    by (apply Forall_forall; intros t; apply elem_of_lanes).
  induction Hall as [|t l Ht _ IH]; intros output; [done|].
  simpl. unfold mbind, exec_bind.
  rewrite int_small by (change (2 ^ 31)%Z with 2147483648%Z; lia).
  rewrite store_words_loop_unsigned by (done || lia).
  destruct (copy_words_loop _ _ _ _ _ _) as [[] output'| |]; [apply IH|done..].
Qed.

Lemma store_block_words_run_witness :
  store_block_words 4 3 2 [7; 8; 9; 0] [1; 1; 1; 1] =
    Done () (take (N.to_nat 3) [7; 8; 9; 0] ++ drop (N.to_nat 3) [1; 1; 1; 1]).
Proof.
  apply (store_block_words_run 4 3 2); simpl; done || lia.
Defined.

(** ** What a reduction delivers, for any launch limits *)

Lemma reached_lanes_nonempty blockDim : 1 ≤ blockDim → reached_lanes blockDim ≠ [].
Proof.
  intros Hdim Hnil. pose proof (length_reached_lanes blockDim Hdim) as Hlen.
  rewrite Hnil in Hlen. simpl in Hlen.
  pose proof (N.pow_nonzero 2 (N.log2 blockDim)). lia.
Qed.

Lemma NoDup_reached_items work_count blockDim gridDim :
  1 ≤ blockDim * gridDim → NoDup (reached_items work_count blockDim gridDim).
Proof.
  intros Hp.
  assert (Hlane : ∀ b t, b < gridDim → t < blockDim →
            t + blockDim * b < blockDim * gridDim) by (intros; nia).
  unfold reached_items. apply NoDup_bind; [| |apply NoDup_reached_lanes].
  - intros b b' i Hb%reached_lanes_lt Hb'%reached_lanes_lt Hi Hi'.
    apply list_elem_of_bind in Hi as (t & Hi & Ht%reached_lanes_lt).
    apply list_elem_of_bind in Hi' as (t' & Hi' & Ht'%reached_lanes_lt).
    apply elem_of_lane_items in Hi as [_ Hi]; [|done|by apply Hlane].
    apply elem_of_lane_items in Hi' as [_ Hi']; [|done|by apply Hlane].
    apply (lane_index_unique blockDim b t b' t'); [done..|congruence].
  - intros b Hb%reached_lanes_lt.
    apply NoDup_bind; [| |apply NoDup_reached_lanes].
    + intros t t' i Ht%reached_lanes_lt Ht'%reached_lanes_lt Hi Hi'.
      apply elem_of_lane_items in Hi as [_ Hi]; [|done|by apply Hlane].
      apply elem_of_lane_items in Hi' as [_ Hi']; [|done|by apply Hlane].
      apply (lane_index_unique blockDim b t b t'); [done..|congruence].
    + intros t _. by apply NoDup_lane_items.
Qed.

Lemma reached_items_lt work_count blockDim gridDim i :
  1 ≤ blockDim * gridDim →
  i ∈ reached_items work_count blockDim gridDim → i < work_count.
Proof.
  intros Hp (b & Hi & Hb%reached_lanes_lt)%list_elem_of_bind.
  apply list_elem_of_bind in Hi as (t & Hi & Ht%reached_lanes_lt).
  apply elem_of_lane_items in Hi as [Hi _]; [done..|nia].
Qed.

Lemma reached_items_single work_count blockDim :
  reached_items work_count blockDim 1 =
    reached_lanes blockDim ≫= λ threadIdx,
      lane_items work_count (blockDim * 1) (threadIdx + blockDim * 0).
Proof.
  unfold reached_items. change (reached_lanes 1) with [0].
  rewrite bind_cons. apply app_nil_r.
Qed.

Section Reached.
Context {V : Type} `{F : ReduceFunctor V} `{!ReductionLaws F}.

Lemma slot_0_reached n (f : N → V) :
  1 ≤ n → slot_0 n (f <$> lanes n) = join_list (f <$> reached_lanes n).
Proof.
  intros Hn. unfold slot_0.
  rewrite reduce_in_step_select
    by (done || (rewrite length_fmap, length_lanes; lia)).
  rewrite select_fmap_lanes
    by (apply Forall_forall; intros i; apply reached_lanes_lt).
  rewrite join_all_join_list; [done|].
  intros Hnil%fmap_nil_inv. by apply (reached_lanes_nonempty n).
Qed.

Lemma block_partial_reached work_count blockDim gridDim blockIdx :
  1 ≤ blockDim →
  block_partial work_count blockDim gridDim blockIdx =
    serial_reduce
      (reached_lanes blockDim ≫= λ threadIdx,
         lane_items work_count (blockDim * gridDim)
           (threadIdx + blockDim * blockIdx)).
Proof.
  intros Hdim. unfold block_partial, block_values.
  rewrite slot_0_reached, <- join_list_bind by done. f_equal.
  apply list_fmap_ext. intros _ t _. apply accumulate_init.
Qed.

Lemma block_partials_reached work_count blockDim gridDim :
  1 ≤ blockDim → 1 ≤ gridDim →
  slot_0 gridDim (block_partials work_count blockDim gridDim gridDim) =
    serial_reduce (reached_items work_count blockDim gridDim).
Proof.
  intros HL HC. unfold block_partials, reached_items.
  rewrite slot_0_reached, <- join_list_bind by done. f_equal.
  apply list_fmap_ext. intros _ b _. by apply block_partial_reached.
Qed.

End Reached.

(** X12: for a functor that obeys the laws of a reduction and for any
    launch limits, power of two or not, whose blocks run in step (a
    barrier before every round, or one warp to a block), a reduction of
    at least one work item that launches fewer than [2^32] lanes and, on
    the two-phase path, has the memory for its scratch buffer, completes
    and calls the finalize functor on the reduction of the work items of
    the reached lanes of the reached blocks of its work kernel launch.
    These are different work items, all below the work count: no work
    item is ever counted twice. *)
Theorem cuda_parallel_reduce_reached_items {V U} `{F : ReduceFunctor V}
    `{!ReductionLaws F} (work_count : N) (finalize : V → U → U)
    (s : state V U) (gridDim blockDim : N) :
  let max_thread_count := reduction_thread_max (device s) reduce_size in
  let hw := hardware (device s) in
  1 ≤ work_count →
  1 ≤ max_thread_count → 1 ≤ block_count_max (device s) →
  planned work_count max_thread_count (block_count_max (device s))
    gridDim blockDim →
  synchronised (device_emulation hw) (warpSize hw) blockDim →
  blockDim * gridDim < 2 ^ 32 →
  work_count + blockDim * gridDim ≤ 2 ^ 64 →
  (max_thread_count ≤ work_count →
   reduce_size * gridDim ≤ free_memory (device s)) →
  ∃ fuel0 : nat, ∀ fuel : nat, (fuel0 ≤ fuel)%nat →
    ∃ s',
      cuda_parallel_reduce fuel work_count finalize s = Done () s' ∧
      (∃ before shmem block_value after,
         trace s' = trace s ++ before ++
           launch_functor_event gridDim blockDim shmem work_count block_value
             :: after) ∧
      user s' =
        finalize (serial_reduce (reached_items work_count blockDim gridDim))
          (user s) ∧
      NoDup (reached_items work_count blockDim gridDim) ∧
      ∀ i, i ∈ reached_items work_count blockDim gridDim → i < work_count.
Proof.
  intros max_thread_count hw Hw HL1 HC1 Hplan Hsync H32 H64 Hfree.
  exists (S (N.to_nat work_count + N.to_nat max_thread_count)).
  intros fuel Hfuel.
  destruct Hplan as [thread_count Hlt Hhalved|block_count Hge Hhalved].
  - pose proof (halved_while_lanes_ge _ _ _ Hhalved ltac:(lia)) as Ht1.
    pose proof (cuda_parallel_reduce_single_block fuel work_count finalize s
                  thread_count Hw Hlt Hhalved ltac:(lia) ltac:(lia)) as Hrun.
    eexists. split; [exact Hrun|]. simpl.
    split; [by eexists [], _, _, _|].
    split.
    { rewrite device_partial_in_step by done.
      by rewrite block_partial_reached, reached_items_single by lia. }
    split; [apply NoDup_reached_items; lia|].
    intros i. apply reached_items_lt. lia.
  - pose proof (halved_while_le _ _ _ Hhalved) as Hle.
    destruct (cuda_parallel_reduce_two_phase fuel work_count finalize s
                block_count) as [Hb1 Hrun];
      [done|done|done|done|done|done|by apply Hfree|lia|].
    eexists. split; [exact Hrun|]. simpl.
    split; [by eexists [_], _, _, _|].
    split.
    { rewrite two_phase_result_in_step by (done || lia).
      by rewrite block_partials_reached. }
    split; [apply NoDup_reached_items; nia|].
    intros i. apply reached_items_lt. nia.
Qed.

Lemma cuda_parallel_reduce_reached_items_witness :
  ∃ fuel0 : nat, ∀ fuel : nat, (fuel0 ≤ fuel)%nat →
    ∃ s',
      cuda_parallel_reduce (F:=count_items) fuel 4 (λ _ u, u)
        (example_state 6 8 0) = Done () s' ∧
      (∃ before shmem block_value after,
         trace s' = trace (example_state 6 8 0) ++ before ++
           launch_functor_event 1 6 shmem 4 block_value :: after) ∧
      user s' =
        (λ _ u, u) (serial_reduce (F:=count_items) (reached_items 4 6 1))
          (user (example_state 6 8 0)) ∧
      NoDup (reached_items 4 6 1) ∧
      ∀ i, i ∈ reached_items 4 6 1 → i < 4.
Proof.
  apply (cuda_parallel_reduce_reached_items (F:=count_items) 4 (λ _ u, u)
           (example_state 6 8 0) 1 6);
    [done|done|done| |by right|done|done|simpl; lia].
  apply planned_single_block; [done|]. by apply halved_stop.
Defined.

(** ** Words and bytes of the scratch buffer *)

Lemma max_alignment_words a :
  power_of_two a → ∃ c, N.max a sizeof_CudaWordType = sizeof_CudaWordType * c.
Proof.
  intros [k ->]. unfold sizeof_CudaWordType.
  destruct (N.lt_ge_cases k 2) as [Hlt|Hge].
  - exists 1. assert (k = 0 ∨ k = 1) as [-> | ->] by lia; done.
  - exists (2 ^ (k - 2)). replace k with (2 + (k - 2)) at 1 by lia.
    rewrite N.pow_add_r. change (2 ^ 2) with 4.
    pose proof (N.pow_nonzero 2 (k - 2)). lia.
Qed.

Lemma CudaWordCount_whole words :
  sizeof_CudaWordType * words + 3 < 2 ^ 64 →
  CudaWordCount (sizeof_CudaWordType * words) = words.
Proof.
  intros H64. rewrite CudaWordCount_exact by done.
  unfold sizeof_CudaWordType. symmetry.
  apply (N.div_unique _ _ _ 3); lia.
Qed.

(** X13: the slot type is a whole number of words when the alignment of
    the value type is a power of two, so that the words the second kernel
    copies for [block_count] lanes,
    [CudaWordCount< reduce_type >::value * blockDim.x], are exactly the
    [sizeof(reduce_type) * block_count] bytes the driver allocates. *)
Theorem scratch_buffer_words {V} `{F : ReduceFunctor V} (block_count : N) :
  power_of_two alignof_value_type → reduce_size + 3 < 2 ^ 64 →
  sizeof_CudaWordType * (CudaWordCount reduce_size * block_count) =
    reduce_size * block_count.
Proof.
  intros Halign H64. unfold reduce_size, sizeof_reduce_type, round_up in *.
  destruct (max_alignment_words _ Halign) as [c Hc].
  rewrite Hc in *. revert H64.
  generalize ((N.max sizeof_value_type
                 (sizeof_CudaWordType * storage_length sizeof_value_type) +
               sizeof_CudaWordType * c - 1) / (sizeof_CudaWordType * c)).
  intros q H64.
  replace (q * (sizeof_CudaWordType * c)) with (sizeof_CudaWordType * (q * c))
    in * by lia.
  rewrite CudaWordCount_whole by done. lia.
Qed.

Lemma scratch_buffer_words_witness :
  sizeof_CudaWordType * (CudaWordCount (reduce_size (H:=count_items)) * 5) =
    reduce_size (H:=count_items) * 5.
Proof.
  apply (scratch_buffer_words (F:=count_items) 5); [by exists 3|done].
Defined.
